(** * url-shortener: identifier allocation, code encoding and entry cache

    A shallow embedding of three pieces of the Go sources:

    - [internal/shortener]: the obfuscating base-62 encoder
      ([CounterGenerator]) and the jump-ahead counter allocator
      ([CounterCache]);
    - [internal/cache/memory]: the in-memory entry cache with dirty
      tracking ([Cache]).

    Machine integers are integers of [Z] with the wrap-around of the Go
    type written out ([uint64], [uint32], [int64]).  Go maps are [gmap]s,
    Go strings of ASCII characters are [string]s. *)

From Stdlib Require Import ZArith String Ascii List Sorted Lia Bool Btauto.
From stdpp Require Import gmap strings list fin_maps.
From coqutil Require Import Z.bitblast.
From Equations Require Import Equations.

Local Open Scope Z_scope.

(** ** Machine words *)

Module Bits.

(** Conversion to Go's [uint64] and [uint32]: the value modulo the width. *)
Definition uint64 (z : Z) : Z := z mod 2 ^ 64.
Definition uint32 (z : Z) : Z := z mod 2 ^ 32.

(** Conversion to Go's [int64]: two's complement wrap-around. *)
Definition min_int64 : Z := - 2 ^ 63.
Definition max_int64 : Z := 2 ^ 63 - 1.
Definition int64 (z : Z) : Z := (z + 2 ^ 63) mod 2 ^ 64 - 2 ^ 63.

(** [math/bits.RotateLeft64]:
    [s := uint(k) & (n - 1); return x<<s | x>>(n-s)] with [n = 64]. *)
Definition RotateLeft64 (x k : Z) : Z :=
  let s := Z.land k 63 in
  Z.lor (uint64 (Z.shiftl x s)) (Z.shiftr x (64 - s)).

(** [math/bits.Reverse32]: "the value of x with its bits in reversed
    order".  The low bit of [x] is shifted out and pushed into the
    accumulator from the right, 32 times. *)
Fixpoint reverse_bits (n : nat) (x acc : Z) : Z :=
  match n with
  | O => acc
  | S n' => reverse_bits n' (Z.shiftr x 1) (Z.lor (Z.shiftl acc 1) (Z.land x 1))
  end.

Definition Reverse32 (x : Z) : Z := reverse_bits 32 x 0.

End Bits.

(** ** internal/shortener: the counter generator *)

Module CounterGenerator.
Import Bits.

(** Base62 characters: 0-9, a-z, A-Z (case sensitive). *)
Definition base62Chars : string :=
  "0123456789abcdefghijklmnopqrstuvwxyzABCDEFGHIJKLMNOPQRSTUVWXYZ".
Definition targetLength : Z := 7.

(** The fields [NewCounterGenerator] sets. *)
Definition multiplier : Z := 0x5DEECE66D.
Definition salt : Z := 0x9E3779B97F4A7C15.

(** [s[i]] on a Go string.  An index outside the string panics in Go;
    every index used below is a remainder modulo 62 (see
    [index_byte_in_range]), so the default is never returned. *)
Definition index_byte (s : string) (i : Z) : ascii :=
  match String.get (Z.to_nat i) s with
  | Some c => c
  | None => Ascii.zero
  end.

(** [obfuscateValue]: the five scrambling steps on a [uint64]. *)
Definition obfuscateValue (value : Z) : Z :=
  (* Step 1: XOR with salt *)
  let result := Z.lxor value salt in
  (* Step 2: multiply by a large odd number *)
  let result := uint64 (result * multiplier) in
  (* Step 3: bit rotation *)
  let result := RotateLeft64 result 21 in
  (* Step 4: XOR with rotated version of itself *)
  let result := Z.lxor result (RotateLeft64 result 32) in
  (* Step 5: bit reversal on lower 32 bits *)
  let lower := uint32 (Z.land result 0xFFFFFFFF) in
  let upper := uint32 (Z.shiftr result 32) in
  Z.lor (uint64 (Z.shiftl (Reverse32 lower) 32)) upper.

(** The number of loop iterations [toBase62] still has to run. *)
Definition bitlen (num : Z) : nat :=
  if 0 <? num then S (Z.to_nat (Z.log2 num)) else O.

Lemma bitlen_div num : 0 < num -> (bitlen (num / 62) < bitlen num)%nat.
Proof.
  intros H. unfold bitlen.
  destruct (Z.ltb_spec 0 num); [|lia].
  destruct (Z.ltb_spec 0 (num / 62)); [|lia].
  apply -> Nat.succ_lt_mono.
  assert (Z.log2 (num / 62) < Z.log2 num);
    [|pose proof (Z.log2_nonneg (num / 62)); lia].
  apply Z.log2_lt_pow2; [lia|].
  pose proof (Z.log2_spec num H) as [Hlo Hhi].
  assert (num / 62 <= num / 2) by (apply Z.div_le_compat_l; lia).
  assert (num / 2 < 2 ^ Z.log2 num); [|lia].
  apply Z.div_lt_upper_bound; [lia|].
  replace (Z.succ (Z.log2 num)) with (1 + Z.log2 num) in Hhi by lia.
  rewrite Z.pow_add_r in Hhi; [lia|lia|apply Z.log2_nonneg].
Qed.

(** The loop of [toBase62]:
    [for num > 0 { result = string(base62Chars[num%62]) + result; num /= 62 }]. *)
Equations? toBase62_loop (num : Z) (result : string) : string
  by wf (bitlen num) lt :=
  toBase62_loop num result with Z_lt_dec 0 num := {
    | left _ =>
        toBase62_loop (num / 62)
          (String (index_byte base62Chars (num mod 62)) result)
    | right _ => result }.
Proof. apply bitlen_div; assumption. Qed.

(** [toBase62] *)
Definition toBase62 (num : Z) : string :=
  if num =? 0 then "0"%string else toBase62_loop num ""%string.

(** The value [fromBase62] gives a character. *)
Definition char_value (char : ascii) : Z :=
  let c := Z.of_N (N_of_ascii char) in
  if (48 <=? c) && (c <=? 57) then uint64 (c - 48)
  else if (97 <=? c) && (c <=? 122) then uint64 (c - 97 + 10)
  else if (65 <=? c) && (c <=? 90) then uint64 (c - 65 + 36)
  else 0.

(** The loop of [fromBase62]: [result = result*62 + value] per character.
    The strings are ASCII, so each rune of the [range] is one byte. *)
Fixpoint fromBase62_loop (str : string) (result : Z) : Z :=
  match str with
  | EmptyString => result
  | String char rest =>
      fromBase62_loop rest (uint64 (result * 62 + char_value char))
  end.

Definition fromBase62 (str : string) : Z := fromBase62_loop str 0.

(** [encodeCounter] *)
Definition minVal : Z := uint64 56800235584.
Definition maxVal : Z := uint64 3521614606207.

Definition encodeCounter (counter : Z) : string :=
  let transformed := obfuscateValue counter in
  let rangeSize := uint64 (uint64 (maxVal - minVal) + 1) in
  let finalValue := uint64 (transformed mod rangeSize + minVal) in
  toBase62 finalValue.

(** [GenerateShortCodeForID] *)
Definition GenerateShortCodeForID (id : Z) : string := encodeCounter id.

(** *** Notions the statements about the encoder use *)

(** The characters of a Go string, in order. *)
Definition chars (s : string) : list ascii := list_ascii_of_string s.

(** The character is one of the 62 symbols. *)
Definition in_alphabet (c : ascii) : Prop := In c (chars base62Chars).

(** Steps 1 to 3 of [obfuscateValue]. *)
Definition scrambled (value : Z) : Z :=
  RotateLeft64 (uint64 (Z.lxor value salt * multiplier)) 21.

(** The XOR of the two halves of a 64-bit word. *)
Definition half_xor (x : Z) : Z :=
  Z.lxor (Z.land x (Z.ones 32)) (Z.shiftr x 32).

(** The word whose lower half is [h] and whose upper half is [h] reversed. *)
Definition pack (h : Z) : Z := Z.lor (Z.shiftl (Reverse32 h) 32) h.

(** The 32-bit value that decides the output of [obfuscateValue]. *)
Definition folded (value : Z) : Z := half_xor (scrambled value).

(** A string [toBase62] can return: not empty, and no leading ["0"]
    before other characters. *)
Definition leading_ok (s : string) : bool :=
  match s with
  | EmptyString => false
  | String c rest =>
      negb (Ascii.eqb c "0") || String.eqb rest EmptyString
  end.

(** Every character of the string is an ASCII character, that is a rune
    of one byte: the [range] of [fromBase62] then steps byte by byte. *)
Definition ascii_only (s : string) : Prop :=
  Forall (fun c => (nat_of_ascii c < 128)%nat) (chars s).

(** The string with every character outside the alphabet replaced by
    ["0"]. *)
Fixpoint sanitize (s : string) : string :=
  match s with
  | EmptyString => EmptyString
  | String c rest =>
      String (if existsb (Ascii.eqb c) (chars base62Chars) then c else "0"%char)
             (sanitize rest)
  end.

(** The inverse of [multiplier] modulo [2 ^ 64]. *)
Definition multiplier_inverse : Z := 0x7B13DFE05BCB1365.

(** Steps 3, 2 and 1 of [obfuscateValue] undone, in that order. *)
Definition unscramble (z : Z) : Z :=
  Z.lxor (uint64 (RotateLeft64 z 43 * multiplier_inverse)) salt.

(** The input whose word after step 3 differs from that of [value] by
    the mask [m] in both halves. *)
Definition partner (value m : Z) : Z :=
  unscramble (Z.lxor (scrambled value) (Z.lor (Z.shiftl m 32) m)).

End CounterGenerator.

Example toBase62_max_range :
  CounterGenerator.toBase62 3521614606207 = "ZZZZZZZ"%string.
Proof. reflexivity. Qed.

Example fromBase62_8m0Kx :
  CounterGenerator.fromBase62 "8m0Kx" = 123456789.
Proof. reflexivity. Qed.

(** ** The encoder as the specification words it

    The seven steps of the specification's encoding algorithm, written
    with arithmetic on numbers rather than with the shifts and masks of
    the Go code.  Step 5 comes in two readings: [reverse_low_in_place]
    follows the specification's sentence, [reverse_low_swapped] is what
    [obfuscateValue] computes. *)

Module EncoderSpec.

(** Rotate the [w]-bit word [x] left by [k] bits. *)
Definition rotate_left (w x k : Z) : Z :=
  (x * 2 ^ k) mod 2 ^ w + x / 2 ^ (w - k).

(** The [w] low bits of [x] in reversed order: the lowest bit becomes
    bit [w - 1], and the rest follows below it. *)
Fixpoint bit_reverse (w : nat) (x : Z) : Z :=
  match w with
  | O => 0
  | S w' => Z.b2z (Z.odd x) * 2 ^ Z.of_nat w' + bit_reverse w' (x / 2)
  end.

(** Step 5, as the specification says it: "reverse the bit order of the
    lower 32 bits in place, leaving the upper 32 bits untouched". *)
Definition reverse_low_in_place (x : Z) : Z :=
  (x / 2 ^ 32) * 2 ^ 32 + bit_reverse 32 (x mod 2 ^ 32).

(** Step 5 with the halves exchanged: the reversed lower half becomes the
    upper half, and the upper half moves down unchanged. *)
Definition reverse_low_swapped (x : Z) : Z :=
  bit_reverse 32 (x mod 2 ^ 32) * 2 ^ 32 + x / 2 ^ 32.

(** The target range [[62^6, 62^7 - 1]]. *)
Definition range_lo : Z := 62 ^ 6.
Definition range_hi : Z := 62 ^ 7 - 1.
Definition range_size : Z := range_hi - range_lo + 1.

(** The 62 symbols by ordinal: digits, then lowercase, then uppercase. *)
Definition symbol (d : Z) : ascii :=
  if d <? 10 then ascii_of_N (Z.to_N (48 + d))
  else if d <? 36 then ascii_of_N (Z.to_N (97 + (d - 10)))
  else ascii_of_N (Z.to_N (65 + (d - 36))).

(** The base-62 digits of [n], most significant first. *)
Equations? digits62 (n : Z) : list Z by wf (CounterGenerator.bitlen n) lt :=
  digits62 n with Z_lt_dec n 62 := {
    | left _ => [n]
    | right _ => digits62 (n / 62) ++ [n mod 62] }.
Proof. apply CounterGenerator.bitlen_div. lia. Qed.

Definition to_base62 (n : Z) : string :=
  string_of_list_ascii (map symbol (digits62 n)).

(** Steps 1 to 5, with step 5 left open. *)
Definition scramble_with (step5 : Z -> Z) (counter : Z) : Z :=
  let x1 := Z.lxor counter CounterGenerator.salt in
  let x2 := (x1 * CounterGenerator.multiplier) mod 2 ^ 64 in
  let x3 := rotate_left 64 x2 21 in
  let x4 := Z.lxor x3 (rotate_left 64 x3 32) in
  step5 x4.

(** Steps 1 to 7. *)
Definition encode_with (step5 : Z -> Z) (counter : Z) : string :=
  let x5 := scramble_with step5 counter in
  let x6 := x5 mod range_size + range_lo in
  to_base62 x6.

Definition spec_encode : Z -> string := encode_with reverse_low_in_place.
Definition swapped_encode : Z -> string := encode_with reverse_low_swapped.

End EncoderSpec.

(** ** internal/shortener: the counter cache *)

Module CounterCache.
Import Bits.

(** A Go [error]: [None] is [nil]. *)
Definition error : Type := option string.

(** The [counters] table behind [sqlc.Queries].  [unavailable] makes every
    statement fail with an error that is not [sql.ErrNoRows]; [executed]
    records the [SetCounter] statements the table has taken, in order. *)
Record Queries := {
  rows : gmap string Z;
  unavailable : bool;
  executed : list (string * Z)
}.

Inductive queryError := ErrNoRows | ErrOther.

(** [GetCounter]: [SELECT value FROM counters WHERE key = ?], one row. *)
Definition db_GetCounter (q : Queries) (key : string) : Z + queryError :=
  if unavailable q then inr ErrOther
  else match rows q !! key with
       | Some v => inl v
       | None => inr ErrNoRows
       end.

(** [SetCounter]: [INSERT OR REPLACE INTO counters (key, value, ...)]. *)
Definition db_SetCounter (q : Queries) (key : string) (value : Z) : Queries :=
  if unavailable q then q
  else {| rows := <[key := value]> (rows q);
          unavailable := false;
          executed := executed q ++ [(key, value)] |}.

Record cacheEntry := {
  current : Z;
  allocated : Z;
  dirty : bool
}.

(** The [resp] channel of a request is never set by this code. *)
Record writebackRequest := {
  key : string;
  value : Z
}.

(** [writebackCh] is the content of the buffered channel, oldest first.
    [spawned] holds the goroutines that [go c.asyncWriteback(key, value)]
    has started and that have not run yet, each with its arguments: the
    scheduler runs them one at a time, in any order and at any time.  The
    mutex serialises the calls, and [stopCh] is open. *)
Record CounterCache := {
  db : Queries;
  counters : gmap string cacheEntry;
  jumpAhead : Z;
  writebackCh : list writebackRequest;
  spawned : list writebackRequest
}.

(** [make(chan writebackRequest, 100)] *)
Definition writebackCap : nat := 100.

Definition NewCounterCache (db : Queries) (jumpAhead : Z) : CounterCache :=
  {| db := db; counters := ∅; jumpAhead := jumpAhead; writebackCh := [];
     spawned := [] |}.

(** [c.counters[key] = entry], also the write through the [*cacheEntry]
    that the map holds. *)
Definition store (c : CounterCache) (key : string) (entry : cacheEntry) : CounterCache :=
  {| db := db c;
     counters := <[key := entry]> (counters c);
     jumpAhead := jumpAhead c;
     writebackCh := writebackCh c;
     spawned := spawned c |}.

(** The body of [asyncWriteback], when its goroutine runs: the send
    succeeds unless the channel is full, in which case the request is
    skipped. *)
Definition asyncWriteback (c : CounterCache) (key : string) (value : Z) : CounterCache :=
  if (length (writebackCh c) <? writebackCap)%nat
  then {| db := db c;
          counters := counters c;
          jumpAhead := jumpAhead c;
          writebackCh := writebackCh c ++ [{| key := key; value := value |}];
          spawned := spawned c |}
  else c.

(** [go c.asyncWriteback(key, value)]: a goroutine is started; nothing is
    sent yet. *)
Definition go_asyncWriteback (c : CounterCache) (key : string) (value : Z) : CounterCache :=
  {| db := db c;
     counters := counters c;
     jumpAhead := jumpAhead c;
     writebackCh := writebackCh c;
     spawned := spawned c ++ [{| key := key; value := value |}] |}.

(** The goroutine at position [i] of [spawned] runs. *)
Definition deliver (c : CounterCache) (i : nat) : CounterCache :=
  match spawned c !! i with
  | Some req =>
      asyncWriteback {| db := db c;
                        counters := counters c;
                        jumpAhead := jumpAhead c;
                        writebackCh := writebackCh c;
                        spawned := delete i (spawned c) |}
                     (key req) (value req)
  | None => c
  end.

(** The [!exists] branch of [GetNextCounter] once the table has answered. *)
Definition initialize (c : CounterCache) (key : string) (dbValue : Z) : CounterCache * cacheEntry :=
  let entry := {| current := dbValue;
                  allocated := int64 (dbValue + jumpAhead c);
                  dirty := true |} in
  (go_asyncWriteback (store c key entry) key (allocated entry), entry).

(** The rest of [GetNextCounter], from "Check if we need to allocate more". *)
Definition allocate (c : CounterCache) (key : string) (entry : cacheEntry) : CounterCache * (Z * error) :=
  let '(c, entry) :=
    if allocated entry <=? current entry then
      let newAllocated := int64 (allocated entry + jumpAhead c) in
      let oldAllocated := allocated entry in
      (go_asyncWriteback c key newAllocated,
       {| current := oldAllocated; allocated := newAllocated; dirty := true |})
    else (c, entry) in
  let entry := {| current := int64 (current entry + 1);
                  allocated := allocated entry;
                  dirty := dirty entry |} in
  (store c key entry, (current entry, None)).

Definition GetNextCounter (c : CounterCache) (key : string) : CounterCache * (Z * error) :=
  match counters c !! key with
  | Some entry => allocate c key entry
  | None =>
      match db_GetCounter (db c) key with
      | inr ErrOther => (c, (0, Some "failed to get counter from DB"%string))
      | inr ErrNoRows =>
          let '(c, entry) := initialize c key 0 in allocate c key entry
      | inl dbValue =>
          let '(c, entry) := initialize c key dbValue in allocate c key entry
      end
  end.

Definition SetCounter (c : CounterCache) (key : string) (value : Z) : CounterCache * error :=
  let entry := {| current := value;
                  allocated := int64 (value + jumpAhead c);
                  dirty := true |} in
  (go_asyncWriteback (store c key entry) key (allocated entry), None).

(** One round of [writebackWorker]: take the oldest request, if any, and
    run [db.SetCounter]; its error is dropped with the [nil] [resp]. *)
Definition writebackWorker (c : CounterCache) : CounterCache :=
  match writebackCh c with
  | [] => c
  | req :: rest =>
      {| db := db_SetCounter (db c) (key req) (value req);
         counters := counters c;
         jumpAhead := jumpAhead c;
         writebackCh := rest;
         spawned := spawned c |}
  end.

(** What happens to one cache over time: calls, and in between the
    goroutines the calls have started, one of which runs its send, and
    rounds of the worker. *)
Inductive event :=
| EvGetNextCounter (key : string)
| EvSetCounter (key : string) (value : Z)
| EvWorker
| EvSend (i : nat).

Definition is_call (ev : event) : bool :=
  match ev with EvWorker | EvSend _ => false | _ => true end.

(** One event; a [GetNextCounter] call also yields what it returned. *)
Definition step (c : CounterCache) (ev : event) : CounterCache * list (Z * error) :=
  match ev with
  | EvGetNextCounter key => let '(c, r) := GetNextCounter c key in (c, [r])
  | EvSetCounter key value => ((SetCounter c key value).1, [])
  | EvWorker => (writebackWorker c, [])
  | EvSend i => (deliver c i, [])
  end.

Fixpoint run (evs : list event) (c : CounterCache) : CounterCache * list (Z * error) :=
  match evs with
  | [] => (c, [])
  | ev :: evs =>
      let '(c, r) := step c ev in
      let '(c, rs) := run evs c in
      (c, r ++ rs)
  end.

(** The durable writes that have reached the channel so far: those the
    table has executed, then those still waiting in the channel. *)
Definition issued (c : CounterCache) : list (string * Z) :=
  executed (db c) ++ map (fun req => (key req, value req)) (writebackCh c).

(** The durable writes the calls have asked for so far, wherever they
    are: executed, in the channel, or with a goroutine that has not run
    yet.  Only the content counts, not the order. *)
Definition requested (c : CounterCache) : list (string * Z) :=
  issued c ++ map (fun req => (key req, value req)) (spawned c).

(** The ceiling of a key, once it has a state. *)
Definition ceiling (c : CounterCache) (key : string) : option Z :=
  allocated <$> counters c !! key.

(** The last value issued for a key, or the persisted baseline before the
    first call. *)
Definition high_water (c : CounterCache) (key : string) : Z :=
  match counters c !! key with
  | Some entry => current entry
  | None => default 0 (rows (db c) !! key)
  end.

(** *** Notions the statements about the counter cache use *)

(** A table without rows that answers. *)
Definition emptyStore : Queries :=
  {| rows := ∅; unavailable := false; executed := [] |}.

(** The state after [j] calls for ["k"], whatever the goroutines and the
    worker have done. *)
Definition after_calls (j : nat) (c : CounterCache) : Prop :=
  jumpAhead c = 10
  /\ unavailable (db c) = false
  /\ match j with
     | O => counters c !! "k"%string = None
            /\ rows (db c) !! "k"%string = None
            /\ requested c = []
     | S _ =>
         counters c !! "k"%string
         = Some {| current := Z.of_nat j;
                   allocated := if (j <=? 10)%nat then 10 else 20;
                   dirty := true |}
         /\ requested c
            ≡ₚ ("k"%string, 10) :: (if (j <=? 10)%nat then [] else [("k"%string, 20)])
     end.

(** An entry within [int64] that respects [current <= allocated]. *)
Definition entry_ok (entry : cacheEntry) : Prop :=
  min_int64 <= current entry
  /\ current entry <= allocated entry
  /\ allocated entry <= max_int64.

(** The data-model invariant, for every key that has a state. *)
Definition well_formed (c : CounterCache) : Prop :=
  forall key entry, counters c !! key = Some entry -> entry_ok entry.

(** [GetNextCounter c key] has what it needs: a sound state for [key], or
    a table that answers with an [int64] baseline. *)
Definition serviceable (c : CounterCache) (key : string) : Prop :=
  match counters c !! key with
  | Some entry => entry_ok entry
  | None =>
      unavailable (db c) = false
      /\ min_int64 <= default 0 (rows (db c) !! key)
  end.

(** The state [allocate] leaves for an entry. *)
Definition advanced (jump : Z) (entry : cacheEntry) : cacheEntry :=
  if allocated entry <=? current entry
  then {| current := allocated entry + 1;
          allocated := allocated entry + jump;
          dirty := true |}
  else {| current := current entry + 1;
          allocated := allocated entry;
          dirty := dirty entry |}.

(** The event computes within [int64]: the next value and one more step
    fit for a call, the new ceiling fits for an override. *)
Definition fits (c : CounterCache) (ev : event) : Prop :=
  match ev with
  | EvGetNextCounter key =>
      min_int64 <= high_water c key
      /\ high_water c key + 1 + jumpAhead c <= max_int64
  | EvSetCounter key value =>
      min_int64 <= value /\ value + jumpAhead c <= max_int64
  | EvWorker => True
  | EvSend _ => True
  end.

(** Every event of the run computes within [int64], in the state it
    meets. *)
Fixpoint fits_all (evs : list event) (c : CounterCache) : Prop :=
  match evs with
  | [] => True
  | ev :: evs => fits c ev /\ fits_all evs (step c ev).1
  end.

(** The event is a [SetCounter] for [key]. *)
Definition overrides (key : string) (ev : event) : Prop :=
  match ev with
  | EvSetCounter key' _ => key' = key
  | _ => False
  end.

(** *** Synchronous persistence and shutdown *)

(** [db.SetCounter] with the error it returns. *)
Definition db_SetCounter_err (q : Queries) (key : string) (value : Z) : Queries * error :=
  (db_SetCounter q key value,
   if unavailable q then Some "database unavailable"%string else None).

Definition with_db (c : CounterCache) (q : Queries) : CounterCache :=
  {| db := q;
     counters := counters c;
     jumpAhead := jumpAhead c;
     writebackCh := writebackCh c;
     spawned := spawned c |}.

(** The snapshot [Sync] takes under the read lock: the ceiling of every
    dirty key. *)
Definition dirtyCeilings (c : CounterCache) : gmap string Z :=
  allocated <$> filter (fun kv => dirty kv.2 = true) (counters c).

(** "Mark as clean": [if entry, exists := c.counters[key]; exists
    { entry.dirty = false }]. *)
Definition markSynced (c : CounterCache) (key : string) : CounterCache :=
  match counters c !! key with
  | Some entry =>
      store c key {| current := current entry;
                     allocated := allocated entry;
                     dirty := false |}
  | None => c
  end.

(** The entry [Sync] leaves in place of [entry]. *)
Definition synced (entry : cacheEntry) : cacheEntry :=
  {| current := current entry; allocated := allocated entry; dirty := false |}.

(** One round of the second loop of [Sync]; an error ends the loop. *)
Definition Sync_round (key : string) (value : Z)
    (acc : CounterCache * error) : CounterCache * error :=
  match acc.2 with
  | Some _ => acc
  | None =>
      let '(q, err) := db_SetCounter_err (db acc.1) key value in
      match err with
      | Some _ => (acc.1, Some ("failed to sync counter " ++ key)%string)
      | None => (markSynced (with_db acc.1 q) key, None)
      end
  end.

(** [Sync]: no other call runs between the snapshot and the writes. *)
Definition Sync (c : CounterCache) : CounterCache * error :=
  map_fold Sync_round (c, None) (dirtyCeilings c).

(** What [writebackWorker] does once [stopCh] is closed: it takes the
    requests left in the channel, one after the other, and returns. *)
Definition drain (c : CounterCache) : CounterCache :=
  Nat.iter (length (writebackCh c)) writebackWorker c.

(** [Close]; [closed] tells whether [stopCh] is closed already, and the
    first component of the result is its state afterwards.  A goroutine
    that sends while the worker is still taking requests is an [EvSend]
    before the [Close]; one that finds [stopCh] closed, or sends when the
    worker has returned, has no effect on the table. *)
Definition Close (closed : bool) (c : CounterCache) : bool * CounterCache * error :=
  if closed then (true, c, None)
  else let '(c, err) := Sync (drain c) in (true, c, err).


(** The event is a call or an override for [key]. *)
Definition concerns (key : string) (ev : event) : Prop :=
  match ev with
  | EvGetNextCounter key' => key' = key
  | EvSetCounter key' _ => key' = key
  | EvWorker => False
  | EvSend _ => False
  end.

(** The key has used up its batch at ceiling [a]: its state has
    [allocated = a <= current], or it has no state yet and the table
    answers with baseline [a]. *)
Definition used_up (c : CounterCache) (key : string) (a : Z) : Prop :=
  match counters c !! key with
  | Some entry => allocated entry = a /\ a <= current entry <= max_int64
  | None => unavailable (db c) = false /\ default 0 (rows (db c) !! key) = a
  end.

End CounterCache.

(** ** internal/shortener: the generator on top of the counter cache *)

Module Generator.
Import Bits CounterGenerator CounterCache.

(** The [counterKey] that [NewCounterGenerator] sets. *)
Definition counterKey : string := "url_counter".

(** [GenerateShortCode]: the URL and the time stamp are not used. *)
Definition GenerateShortCode (c : CounterCache) : CounterCache * (string * error) :=
  let '(c, (counter, err)) := GetNextCounter c counterKey in
  match err with
  | Some e => (c, (""%string, Some e))
  | None => (c, (encodeCounter (uint64 counter), None))
  end.

(** [n] calls of [GenerateShortCode], with what each returned. *)
Fixpoint GenerateShortCodes (n : nat) (c : CounterCache) : CounterCache * list (string * error) :=
  match n with
  | O => (c, [])
  | S n =>
      let '(c, r) := GenerateShortCode c in
      let '(c, rs) := GenerateShortCodes n c in
      (c, r :: rs)
  end.

(** What [GenerateShortCode] makes of the answer of [GetNextCounter]. *)
Definition code_of (r : Z * error) : string * error :=
  match r.2 with
  | Some e => (""%string, Some e)
  | None => (encodeCounter (uint64 r.1), None)
  end.

End Generator.

(** ** internal/cache/memory: the entry cache *)

Module Memory.
Import Bits.

Definition error : Type := option string.

(** Go's [int], on a 64-bit target. *)
Definition int (z : Z) : Z := int64 z.
Definition max_int : Z := max_int64.

(** [domain.CacheEntry]: [UsageCount] is an [int], [LastUsedAt] a point
    in time. *)
Record CacheEntry := {
  OriginalURL : string;
  UsageCount : Z;
  LastUsedAt : Z;
  Dirty : bool
}.

(** The struct literal that copies an entry field by field. *)
Definition copyEntry (entry : CacheEntry) : CacheEntry :=
  {| OriginalURL := OriginalURL entry;
     UsageCount := UsageCount entry;
     LastUsedAt := LastUsedAt entry;
     Dirty := Dirty entry |}.

(** The map and the [running] flag; the mutex serialises the methods. *)
Record Cache := {
  data : gmap string CacheEntry;
  running : bool
}.

Definition New : Cache := {| data := ∅; running := false |}.

Definition with_data (c : Cache) (d : gmap string CacheEntry) : Cache :=
  {| data := d; running := running c |}.

(** [Get]: [None] is the [(nil, false)] answer. *)
Definition Get (c : Cache) (shortCode : string) : option CacheEntry :=
  match data c !! shortCode with
  | Some entry => Some (copyEntry entry)
  | None => None
  end.

(** [Set] *)
Definition Set_ (c : Cache) (shortCode : string) (entry : CacheEntry) : Cache * error :=
  (with_data c (<[shortCode := copyEntry entry]> (data c)), None).

Definition Delete (c : Cache) (shortCode : string) : Cache * error :=
  (with_data c (delete shortCode (data c)), None).

(** [IncrementUsage]; [now] is what [time.Now()] answers. *)
Definition IncrementUsage (now : Z) (c : Cache) (shortCode : string) : Cache * error :=
  match data c !! shortCode with
  | Some entry =>
      let entry := {| OriginalURL := OriginalURL entry;
                      UsageCount := int (UsageCount entry + 1);
                      LastUsedAt := now;
                      Dirty := true |} in
      (with_data c (<[shortCode := entry]> (data c)), None)
  | None => (c, None)
  end.

Definition GetDirtyEntries (c : Cache) : gmap string CacheEntry * error :=
  (copyEntry <$> filter (fun kv => Dirty kv.2 = true) (data c), None).

Definition MarkClean (c : Cache) (shortCode : string) : Cache * error :=
  match data c !! shortCode with
  | Some entry =>
      let entry := {| OriginalURL := OriginalURL entry;
                      UsageCount := UsageCount entry;
                      LastUsedAt := LastUsedAt entry;
                      Dirty := false |} in
      (with_data c (<[shortCode := entry]> (data c)), None)
  | None => (c, None)
  end.

(** [LoadData]: a fresh map, filled with a copy of every entry given. *)
Definition LoadData (c : Cache) (data : gmap string CacheEntry) : Cache * error :=
  (with_data c (copyEntry <$> data), None).

(** [syncToDatabase]; [syncFunc] answers [None] for success. *)
Definition syncToDatabase
    (syncFunc : gmap string CacheEntry -> error) (c : Cache) : Cache :=
  let '(dirtyEntries, err) := GetDirtyEntries c in
  match err with
  | Some _ => c
  | None =>
      if (size dirtyEntries =? 0)%nat then c
      else match syncFunc dirtyEntries with
           | Some _ => c
           | None =>
               map_fold (fun shortCode _ c => (MarkClean c shortCode).1)
                        c dirtyEntries
           end
  end.

(** The entry [MarkClean] leaves in place of [entry]. *)
Definition cleaned (entry : CacheEntry) : CacheEntry :=
  {| OriginalURL := OriginalURL entry;
     UsageCount := UsageCount entry;
     LastUsedAt := LastUsedAt entry;
     Dirty := false |}.

(** *** The background loop *)

(** [StartBackgroundSync]: the second component tells whether the
    goroutine of [backgroundSync] is started. *)
Definition StartBackgroundSync (c : Cache) : Cache * bool * error :=
  if running c then (c, false, None)
  else ({| data := data c; running := true |}, true, None).

(** [StopBackgroundSync]: the second component tells whether [stopChan]
    is closed (and replaced by a new channel). *)
Definition StopBackgroundSync (c : Cache) : Cache * bool * error :=
  if running c
  then ({| data := data c; running := false |}, true, None)
  else (c, false, None).

Definition Close (c : Cache) : Cache * bool * error := StopBackgroundSync c.

(** What the [select] of [backgroundSync] receives: a tick of the ticker,
    the close of [stopChan], or the end of the context. *)
Inductive signal := Tick | Stop | Done.

(** [backgroundSync], along the signals it receives in turn, when no other
    call runs during a cycle. *)
Fixpoint backgroundSync (syncFunc : gmap string CacheEntry -> error)
    (signals : list signal) (c : Cache) : Cache :=
  match signals with
  | [] => c
  | Tick :: signals =>
      backgroundSync syncFunc signals (syncToDatabase syncFunc c)
  | Stop :: _ => syncToDatabase syncFunc c
  | Done :: _ => c
  end.

(** The last loop of [syncToDatabase]: [MarkClean] for every key of the
    batch. *)
Definition markBatchClean (batch : gmap string CacheEntry) (c : Cache) : Cache :=
  map_fold (fun shortCode _ c => (MarkClean c shortCode).1) c batch.

(** [n] calls of [IncrementUsage] for one key, at the times given. *)
Fixpoint IncrementUsage_at (times : list Z) (c : Cache) (shortCode : string) : Cache :=
  match times with
  | [] => c
  | now :: times => IncrementUsage_at times (IncrementUsage now c shortCode).1 shortCode
  end.

End Memory.

(** ** internal/repository/sqlite and internal/service *)

Module Service.
Import Bits.

Definition error : Type := option string.

(** [domain.URLEntry]; a [nil] [LastUsedAt] is [None]. *)
Record URLEntry := {
  ID : Z;
  ShortCode : string;
  OriginalURL : string;
  CreatedAt : Z;
  LastUsedAt : option Z;
  UsageCount : Z
}.

(** The [urls] table by [short_code], which is [UNIQUE]; [nextID] is the
    next [AUTOINCREMENT] id.  [faults] tells how the coming statements
    end, [true] for one that fails; when none is left they succeed. *)
Record Repository := {
  urls : gmap string URLEntry;
  nextID : Z;
  faults : list bool
}.

(** The next statement is sent: does it fail? *)
Definition statement (r : Repository) : Repository * bool :=
  match faults r with
  | [] => (r, false)
  | failed :: rest =>
      ({| urls := urls r; nextID := nextID r; faults := rest |}, failed)
  end.

(** The zero [time.Time]. *)
Definition zeroTime : Z := 0.

(** [CreateURL]: [INSERT INTO urls ... VALUES (?, ?, ?, 0) RETURNING *]. *)
Definition CreateURL (r : Repository) (shortCode originalURL : string) (createdAt : Z)
  : Repository * (option URLEntry * error) :=
  let '(r, failed) := statement r in
  if failed then (r, (None, Some "failed to create URL"%string))
  else match urls r !! shortCode with
       | Some _ => (r, (None, Some "failed to create URL"%string))
       | None =>
           let entry := {| ID := nextID r;
                           ShortCode := shortCode;
                           OriginalURL := originalURL;
                           CreatedAt := createdAt;
                           LastUsedAt := None;
                           UsageCount := 0 |} in
           ({| urls := <[shortCode := entry]> (urls r);
               nextID := nextID r + 1;
               faults := faults r |},
            (Some entry, None))
       end.

(** [GetURL]: [SELECT * FROM urls WHERE short_code = ?]. *)
Definition GetURL (r : Repository) (shortCode : string)
  : Repository * (option URLEntry * error) :=
  let '(r, failed) := statement r in
  if failed then (r, (None, Some "failed to get URL"%string))
  else match urls r !! shortCode with
       | Some entry => (r, (Some entry, None))
       | None => (r, (None, Some "short code not found"%string))
       end.

(** [UpdateUsage]: [UPDATE urls SET usage_count = ?, last_used_at = ?
    WHERE short_code = ?]. *)
Definition UpdateUsage (r : Repository) (shortCode : string) (usageCount lastUsedAt : Z)
  : Repository * error :=
  let '(r, failed) := statement r in
  if failed then (r, Some "failed to update usage"%string)
  else ({| urls := alter (fun entry =>
                           {| ID := ID entry;
                              ShortCode := ShortCode entry;
                              OriginalURL := OriginalURL entry;
                              CreatedAt := CreatedAt entry;
                              LastUsedAt := Some lastUsedAt;
                              UsageCount := int64 usageCount |})
                        shortCode (urls r);
           nextID := nextID r;
           faults := faults r |},
        None).

(** [DeleteURL]: [DELETE FROM urls WHERE short_code = ?]. *)
Definition DeleteURL (r : Repository) (shortCode : string) : Repository * error :=
  let '(r, failed) := statement r in
  if failed then (r, Some "failed to delete URL"%string)
  else ({| urls := delete shortCode (urls r);
           nextID := nextID r;
           faults := faults r |},
        None).

(** [URLExists]: [SELECT COUNT( * ) FROM urls WHERE short_code = ?]. *)
Definition URLExists (r : Repository) (shortCode : string)
  : Repository * (bool * error) :=
  let '(r, failed) := statement r in
  if failed then (r, (false, Some "failed to check URL existence"%string))
  else (r, (bool_decide (is_Some (urls r !! shortCode)), None)).

(** [LoadCacheData]: one clean cache entry per row. *)
Definition LoadCacheData (r : Repository)
  : Repository * (gmap string Memory.CacheEntry * error) :=
  let '(r, failed) := statement r in
  if failed then (r, (∅, Some "failed to load cache data"%string))
  else (r,
        ((fun url =>
            {| Memory.OriginalURL := OriginalURL url;
               Memory.UsageCount := Memory.int (UsageCount url);
               Memory.LastUsedAt := default zeroTime (LastUsedAt url);
               Memory.Dirty := false |}) <$> urls r,
         None)).

(** [urlShortener]: the repository, the cache and the counter cache of
    its generator. *)
Record urlShortener := {
  repo : Repository;
  cache : Memory.Cache;
  generator : CounterCache.CounterCache
}.

Definition with_repo (s : urlShortener) (r : Repository) : urlShortener :=
  {| repo := r; cache := cache s; generator := generator s |}.

Definition with_cache (s : urlShortener) (c : Memory.Cache) : urlShortener :=
  {| repo := repo s; cache := c; generator := generator s |}.

Definition with_generator (s : urlShortener) (g : CounterCache.CounterCache) : urlShortener :=
  {| repo := repo s; cache := cache s; generator := g |}.

(** [InitializeCache] *)
Definition InitializeCache (s : urlShortener) : urlShortener * error :=
  let '(r, (data, err)) := LoadCacheData (repo s) in
  match err with
  | Some _ => (with_repo s r, Some "failed to load cache data"%string)
  | None =>
      let '(c, err) := Memory.LoadData (cache s) data in
      (with_cache (with_repo s r) c, err)
  end.

(** [CreateShortURL].  [scheme] stands for [url.ParseRequestURI] and the
    [Scheme] of its result, [None] when the URL does not parse; [now] is
    what [time.Now()] answers. *)
Definition CreateShortURL (scheme : string -> option string) (now : Z)
    (s : urlShortener) (originalURL : string)
  : urlShortener * (option URLEntry * error) :=
  match scheme originalURL with
  | None => (s, (None, Some "invalid URL"%string))
  | Some sch =>
      if negb (String.eqb sch "http") && negb (String.eqb sch "https")
      then (s, (None, Some "invalid URL: only HTTP and HTTPS are supported"%string))
      else
        let createdAt := now in
        let '(g, (shortCode, err)) := Generator.GenerateShortCode (generator s) in
        let s := with_generator s g in
        match err with
        | Some _ => (s, (None, Some "failed to generate short code"%string))
        | None =>
            let '(r, (entry, err)) := CreateURL (repo s) shortCode originalURL createdAt in
            let s := with_repo s r in
            match err with
            | Some _ => (s, (None, Some "failed to create URL"%string))
            | None =>
                let cacheEntry := {| Memory.OriginalURL := originalURL;
                                     Memory.UsageCount := 0;
                                     Memory.LastUsedAt := createdAt;
                                     Memory.Dirty := false |} in
                let '(c, _) := Memory.Set_ (cache s) shortCode cacheEntry in
                (with_cache s c, (entry, None))
            end
        end
  end.

(** [GetOriginalURL] *)
Definition GetOriginalURL (now : Z) (s : urlShortener) (shortCode : string)
  : urlShortener * (string * error) :=
  match Memory.Get (cache s) shortCode with
  | Some entry =>
      let '(c, _) := Memory.IncrementUsage now (cache s) shortCode in
      (with_cache s c, (Memory.OriginalURL entry, None))
  | None =>
      let '(r, (entry, err)) := GetURL (repo s) shortCode in
      let s := with_repo s r in
      match entry, err with
      | Some entry, None =>
          let cacheEntry := {| Memory.OriginalURL := OriginalURL entry;
                               Memory.UsageCount := Memory.int (UsageCount entry + 1);
                               Memory.LastUsedAt := now;
                               Memory.Dirty := true |} in
          let '(c, _) := Memory.Set_ (cache s) shortCode cacheEntry in
          (with_cache s c, (OriginalURL entry, None))
      | _, _ => (s, (""%string, Some "short code not found"%string))
      end
  end.

(** [GetURLInfo] *)
Definition GetURLInfo (s : urlShortener) (shortCode : string)
  : urlShortener * (option URLEntry * error) :=
  let '(r, (entry, err)) := GetURL (repo s) shortCode in
  let s := with_repo s r in
  match entry, err with
  | Some entry, None =>
      match Memory.Get (cache s) shortCode with
      | Some cacheEntry =>
          (s, (Some {| ID := ID entry;
                       ShortCode := ShortCode entry;
                       OriginalURL := OriginalURL entry;
                       CreatedAt := CreatedAt entry;
                       LastUsedAt := Some (Memory.LastUsedAt cacheEntry);
                       UsageCount := Memory.UsageCount cacheEntry |},
               None))
      | None => (s, (Some entry, None))
      end
  | _, _ => (s, (None, Some "short code not found"%string))
  end.

(** [DeleteShortURL] *)
Definition DeleteShortURL (s : urlShortener) (shortCode : string)
  : urlShortener * error :=
  let '(r, (exists_, err)) := URLExists (repo s) shortCode in
  let s := with_repo s r in
  match err with
  | Some _ => (s, Some "failed to check URL existence"%string)
  | None =>
      if negb exists_ then (s, Some "short code not found"%string)
      else
        let '(r, err) := DeleteURL (repo s) shortCode in
        let s := with_repo s r in
        match err with
        | Some _ => (s, Some "failed to delete URL from database"%string)
        | None =>
            let '(c, _) := Memory.Delete (cache s) shortCode in
            (with_cache s c, None)
        end
  end.

(** One round of the loop of the [syncFunc] that [StartCacheSync] builds;
    an error ends the loop. *)
Definition syncFunc_round (shortCode : string) (entry : Memory.CacheEntry)
    (acc : Repository * error) : Repository * error :=
  match acc.2 with
  | Some _ => acc
  | None =>
      let '(r, err) := UpdateUsage acc.1 shortCode
                         (Memory.UsageCount entry) (Memory.LastUsedAt entry) in
      match err with
      | Some _ => (r, Some ("failed to sync entry " ++ shortCode)%string)
      | None => (r, None)
      end
  end.

(** The [syncFunc] of [StartCacheSync], on the repository it writes to. *)
Definition syncFunc (r : Repository) (dirtyEntries : gmap string Memory.CacheEntry)
  : Repository * error :=
  map_fold syncFunc_round (r, None) dirtyEntries.

(** One cycle of the background loop of the cache with that [syncFunc]:
    [syncToDatabase] calls it on the batch unless the batch is empty. *)
Definition flush (s : urlShortener) : urlShortener * error :=
  let batch := (Memory.GetDirtyEntries (cache s)).1 in
  let '(r, err) :=
    if (size batch =? 0)%nat then (repo s, None) else syncFunc (repo s) batch in
  (with_cache (with_repo s r) (Memory.syncToDatabase (fun _ => err) (cache s)),
   err).

(** What a service is asked to do, one request after the other; no request
    runs during a flush cycle. *)
Inductive request :=
| ReqInitializeCache
| ReqCreateShortURL (originalURL : string) (now : Z)
| ReqGetOriginalURL (shortCode : string) (now : Z)
| ReqGetURLInfo (shortCode : string)
| ReqDeleteShortURL (shortCode : string)
| ReqFlush.

Definition serve (scheme : string -> option string) (s : urlShortener) (req : request)
  : urlShortener :=
  match req with
  | ReqInitializeCache => (InitializeCache s).1
  | ReqCreateShortURL originalURL now => (CreateShortURL scheme now s originalURL).1
  | ReqGetOriginalURL shortCode now => (GetOriginalURL now s shortCode).1
  | ReqGetURLInfo shortCode => (GetURLInfo s shortCode).1
  | ReqDeleteShortURL shortCode => (DeleteShortURL s shortCode).1
  | ReqFlush => (flush s).1
  end.

(** The row [UpdateUsage] leaves in place of [url]. *)
Definition written (usageCount lastUsedAt : Z) (url : URLEntry) : URLEntry :=
  {| ID := ID url;
     ShortCode := ShortCode url;
     OriginalURL := OriginalURL url;
     CreatedAt := CreatedAt url;
     LastUsedAt := Some lastUsedAt;
     UsageCount := int64 usageCount |}.

(** The cache agrees with the table: every cached code has a row with
    the same URL, a clean entry has the usage count of its row, and a
    cached count is an [int]. *)
Definition coherent (s : urlShortener) : Prop :=
  forall shortCode entry,
    Memory.data (cache s) !! shortCode = Some entry ->
    exists url,
      urls (repo s) !! shortCode = Some url
      /\ OriginalURL url = Memory.OriginalURL entry
      /\ (Memory.Dirty entry = false ->
          Memory.int (UsageCount url) = Memory.UsageCount entry)
      /\ Memory.int (Memory.UsageCount entry) = Memory.UsageCount entry.

(** [NewURLShortener] on a cache that [memory.New] has just made. *)
Definition newService (r : Repository) (g : CounterCache.CounterCache) : urlShortener :=
  {| repo := r; cache := Memory.New; generator := g |}.

(** The requests are served one after the other. *)
Definition serve_all (scheme : string -> option string) (reqs : list request)
    (s : urlShortener) : urlShortener :=
  fold_left (serve scheme) reqs s.

End Service.

(** ** The base-62 primitive *)

Section Base62.
Import Bits CounterGenerator.

Lemma toBase62_loop_pos num result :
  0 < num ->
  toBase62_loop num result =
  toBase62_loop (num / 62) (String (index_byte base62Chars (num mod 62)) result).
Proof.
  intros H. rewrite toBase62_loop_equation_1.
  destruct (Z_lt_dec 0 num); [reflexivity | lia].
Qed.

Lemma toBase62_loop_done num result :
  num <= 0 -> toBase62_loop num result = result.
Proof.
  intros H. rewrite toBase62_loop_equation_1.
  destruct (Z_lt_dec 0 num); [lia | reflexivity].
Qed.

(** A property of the 62 indices is checked index by index. *)
Lemma forall_index (P : Z -> bool) :
  forallb (fun n => P (Z.of_nat n)) (seq 0 62) = true ->
  forall d, 0 <= d < 62 -> P d = true.
Proof.
  intros Hall d Hd. rewrite forallb_forall in Hall.
  specialize (Hall (Z.to_nat d)). rewrite Z2Nat.id in Hall by lia.
  apply Hall, in_seq. lia.
Qed.

(** [base62Chars[d]] never panics for a base-62 digit [d]. *)
Lemma index_byte_in_range d :
  0 <= d < 62 ->
  String.get (Z.to_nat d) base62Chars = Some (index_byte base62Chars d).
Proof.
  intros Hd.
  apply (forall_index
           (fun d => match String.get (Z.to_nat d) base62Chars with
                     | Some c => Ascii.eqb c (index_byte base62Chars d)
                     | None => false
                     end)) in Hd; [|vm_compute; reflexivity].
  destruct (String.get (Z.to_nat d) base62Chars); [|discriminate].
  apply Ascii.eqb_eq in Hd. congruence.
Qed.

Lemma char_value_index d :
  0 <= d < 62 -> char_value (index_byte base62Chars d) = d.
Proof.
  intros Hd. apply Z.eqb_eq.
  apply (forall_index
           (fun d => char_value (index_byte base62Chars d) =? d));
    [vm_compute; reflexivity | assumption].
Qed.

Lemma index_byte_in_alphabet d :
  0 <= d < 62 -> in_alphabet (index_byte base62Chars d).
Proof.
  intros Hd.
  apply (forall_index
           (fun d => existsb (Ascii.eqb (index_byte base62Chars d))
                       (chars base62Chars))) in Hd;
    [|vm_compute; reflexivity].
  apply existsb_exists in Hd as (c & Hin & Heq).
  apply Ascii.eqb_eq in Heq. unfold in_alphabet. congruence.
Qed.

(** Decoding what the loop prepended to [result] gives [num] back, and
    the decoder then goes on through [result]. *)
Lemma decode_toBase62_loop num :
  0 <= num < 2 ^ 64 ->
  forall result,
    fromBase62_loop (toBase62_loop num result) 0 = fromBase62_loop result num.
Proof.
  intros [Hnum Hlt]. revert Hnum Hlt.
  induction num as [num IH] using (well_founded_induction (Z.lt_wf 0)).
  intros Hnum Hlt result.
  destruct (Z.eq_dec num 0) as [->|Hne].
  - rewrite toBase62_loop_done by lia. reflexivity.
  - rewrite toBase62_loop_pos by lia.
    assert (Hq : 0 <= num / 62 < num)
      by (split; [apply Z.div_pos; lia | apply Z.div_lt; lia]).
    rewrite IH by lia. cbn [fromBase62_loop].
    rewrite char_value_index by (apply Z.mod_pos_bound; lia).
    f_equal. unfold uint64.
    rewrite (Z.mul_comm (num / 62) 62), <- Z.div_mod by lia.
    apply Z.mod_small. lia.
Qed.

(** The loop prepends exactly [k + 1] characters when [num] has [k + 1]
    base-62 digits. *)
Lemma toBase62_loop_length (k : nat) :
  forall num result,
    62 ^ Z.of_nat k <= num < 62 ^ Z.of_nat (S k) ->
    String.length (toBase62_loop num result) = (S k + String.length result)%nat.
Proof.
  induction k as [|k IH]; intros num result Hnum.
  - change (62 ^ Z.of_nat 0) with 1 in Hnum.
    change (62 ^ Z.of_nat 1) with 62 in Hnum.
    rewrite toBase62_loop_pos by lia.
    rewrite Z.div_small by lia.
    rewrite toBase62_loop_done by lia. reflexivity.
  - rewrite toBase62_loop_pos by lia.
    rewrite !Nat2Z.inj_succ, !Z.pow_succ_r in Hnum by lia.
    rewrite IH.
    + cbn [String.length]. lia.
    + rewrite Nat2Z.inj_succ, Z.pow_succ_r by lia. split.
      * apply Z.div_le_lower_bound; lia.
      * apply Z.div_lt_upper_bound; lia.
Qed.

Lemma toBase62_loop_alphabet num :
  0 <= num ->
  forall result,
    Forall in_alphabet (chars result) ->
    Forall in_alphabet (chars (toBase62_loop num result)).
Proof.
  intros Hnum. revert Hnum.
  induction num as [num IH] using (well_founded_induction (Z.lt_wf 0)).
  intros Hnum result Hres.
  destruct (Z.eq_dec num 0) as [->|Hne].
  - rewrite toBase62_loop_done by lia. assumption.
  - rewrite toBase62_loop_pos by lia.
    apply IH;
      [split; [apply Z.div_pos; lia | apply Z.div_lt; lia]
      |apply Z.div_pos; lia|].
    unfold chars in *. cbn [list_ascii_of_string].
    constructor; [|exact Hres].
    apply index_byte_in_alphabet, Z.mod_pos_bound. lia.
Qed.

(** The value [encodeCounter] hands to [toBase62] has seven digits. *)
Lemma finalValue_range transformed :
  let rangeSize := uint64 (uint64 (maxVal - minVal) + 1) in
  62 ^ 6 <= uint64 (transformed mod rangeSize + minVal) < 62 ^ 7.
Proof.
  cbv zeta.
  change (uint64 (uint64 (maxVal - minVal) + 1)) with 3464814370624.
  change minVal with 56800235584.
  pose proof (Z.mod_pos_bound transformed 3464814370624 ltac:(lia)) as Hm.
  unfold uint64. rewrite Z.mod_small; lia.
Qed.

(** C5: the generic base-62 primitive round-trips on every unsigned
    64-bit integer: decoding the encoding of [x] gives [x] back. *)
Theorem fromBase62_toBase62 (x : Z) :
  0 <= x < 2 ^ 64 -> fromBase62 (toBase62 x) = x.
Proof.
  intros Hx. unfold fromBase62, toBase62.
  destruct (Z.eqb_spec x 0) as [->|Hne]; [reflexivity|].
  rewrite decode_toBase62_loop by assumption. reflexivity.
Qed.

Lemma fromBase62_toBase62_witness :
  0 <= 18446744073709551615 < 2 ^ 64
  /\ fromBase62 (toBase62 18446744073709551615) = 18446744073709551615.
Proof.
  split; [lia | apply (fromBase62_toBase62 18446744073709551615); lia].
Defined.

(** C6: for every input, the code [encodeCounter] returns has exactly
    seven characters, each of them one of the 62 symbols of [base62Chars];
    and [base62Chars] lists the digits, then the lowercase letters, then
    the uppercase letters. *)
Theorem encodeCounter_seven_symbols (counter : Z) :
  Z.of_nat (String.length (encodeCounter counter)) = targetLength
  /\ Forall in_alphabet (chars (encodeCounter counter))
  /\ chars base62Chars = map ascii_of_nat (seq 48 10 ++ seq 97 26 ++ seq 65 26).
Proof.
  unfold encodeCounter. cbv zeta.
  pose proof (finalValue_range (obfuscateValue counter)) as Hr. cbv zeta in Hr.
  set (finalValue := uint64 _) in *.
  unfold toBase62. destruct (Z.eqb_spec finalValue 0) as [H0|_]; [lia|].
  split; [|split].
  - rewrite (toBase62_loop_length 6) by exact Hr. reflexivity.
  - apply toBase62_loop_alphabet; [lia | constructor].
  - reflexivity.
Qed.

End Base62.

(** ** The scrambling steps, bit by bit *)

Section Obfuscation.
Import Bits CounterGenerator.

(** A number below [2 ^ n] has no bit at [n] or above. *)
Lemma testbit_high n z i :
  0 <= z < 2 ^ n -> n <= i -> Z.testbit z i = false.
Proof.
  intros Hz Hi. destruct (Z.eq_dec z 0) as [->|Hne]; [apply Z.testbit_0_l|].
  assert (0 <= n)
    by (destruct (Z.lt_ge_cases n 0); [rewrite Z.pow_neg_r in Hz; lia | lia]).
  apply Z.bits_above_log2; [lia|].
  assert (Z.log2 z < n) by (apply Z.log2_lt_pow2; lia). lia.
Qed.

(** And conversely. *)
Lemma range_of_bits n z :
  0 <= n -> 0 <= z -> (forall i, n <= i -> Z.testbit z i = false) ->
  0 <= z < 2 ^ n.
Proof.
  intros Hn Hz Hhigh. split; [assumption|].
  destruct (Z.eq_dec z 0) as [->|Hne]; [apply Z.pow_pos_nonneg; lia|].
  apply Z.log2_lt_pow2; [lia|].
  destruct (Z.lt_ge_cases (Z.log2 z) n) as [|Hge]; [assumption|].
  specialize (Hhigh _ Hge). rewrite Z.bit_log2 in Hhigh by lia. discriminate.
Qed.

(** Rewrites the bits of [x] that its range [Hx : 0 <= x < 2 ^ n] or a
    negative index makes [false]. *)
Ltac kill_bits x n Hx :=
  repeat match goal with
         | |- context [Z.testbit x ?j] =>
             first [ rewrite (Z.testbit_neg_r x j) by lia
                   | rewrite (testbit_high n x j Hx) by lia ]
         end.

Lemma uint64_range z : 0 <= uint64 z < 2 ^ 64.
Proof. apply Z.mod_pos_bound. lia. Qed.

Lemma uint64_small z : 0 <= z < 2 ^ 64 -> uint64 z = z.
Proof. apply Z.mod_small. Qed.

Lemma reverse_bits_testbit (n : nat) :
  forall x acc i,
    0 <= i ->
    Z.testbit (reverse_bits n x acc) i =
    if i <? Z.of_nat n then Z.testbit x (Z.of_nat n - 1 - i)
    else Z.testbit acc (i - Z.of_nat n).
Proof.
  induction n as [|n IH]; intros x acc i Hi.
  - cbn [reverse_bits].
    destruct (Z.ltb_spec i (Z.of_nat 0)); [lia|]. f_equal. lia.
  - cbn [reverse_bits]. rewrite IH by lia.
    destruct (Z.ltb_spec i (Z.of_nat n)), (Z.ltb_spec i (Z.of_nat (S n)));
      try lia.
    + rewrite Z.shiftr_spec by lia. f_equal. lia.
    + rewrite Z.lor_spec, Z.land_spec, Z.shiftl_spec by lia.
      replace (i - Z.of_nat n) with 0 by lia.
      replace (Z.of_nat (S n) - 1 - i) with 0 by lia.
      rewrite Z.testbit_neg_r by lia. cbn. apply andb_true_r.
    + rewrite Z.lor_spec, Z.land_spec, Z.shiftl_spec by lia.
      replace (i - Z.of_nat n - 1) with (i - Z.of_nat (S n)) by lia.
      replace (Z.testbit 1 (i - Z.of_nat n)) with false.
      * rewrite andb_false_r. apply orb_false_r.
      * symmetry. change 1 with (Z.ones 1). apply Z.ones_spec_high. lia.
Qed.

Lemma reverse_bits_nonneg (n : nat) :
  forall x acc, 0 <= acc -> 0 <= reverse_bits n x acc.
Proof.
  induction n as [|n IH]; intros x acc Hacc; cbn [reverse_bits]; [assumption|].
  apply IH. apply Z.lor_nonneg. split.
  - apply Z.shiftl_nonneg. assumption.
  - apply Z.land_nonneg. right. lia.
Qed.

(** Bit [i] of [Reverse32 x] is bit [31 - i] of [x]. *)
Lemma Reverse32_testbit x i :
  0 <= i ->
  Z.testbit (Reverse32 x) i = if i <? 32 then Z.testbit x (31 - i) else false.
Proof.
  intros Hi. unfold Reverse32. rewrite reverse_bits_testbit by lia.
  change (Z.of_nat 32) with 32.
  destruct (i <? 32); [f_equal; lia | apply Z.testbit_0_l].
Qed.

Lemma Reverse32_range x : 0 <= Reverse32 x < 2 ^ 32.
Proof.
  apply range_of_bits; [lia | apply reverse_bits_nonneg; lia |].
  intros i Hi. rewrite Reverse32_testbit by lia.
  destruct (Z.ltb_spec i 32); [lia | reflexivity].
Qed.

Lemma land_63 k : 0 <= k < 64 -> Z.land k 63 = k.
Proof.
  intros Hk. change 63 with (Z.ones 6). rewrite Z.land_ones by lia.
  apply Z.mod_small. change (2 ^ 6) with 64. lia.
Qed.

Lemma RotateLeft64_range x k :
  0 <= x < 2 ^ 64 -> 0 <= k < 64 -> 0 <= RotateLeft64 x k < 2 ^ 64.
Proof.
  intros Hx Hk. unfold RotateLeft64. cbv zeta. rewrite land_63 by assumption.
  pose proof (uint64_range (Z.shiftl x k)) as Hl.
  apply range_of_bits; [lia | |].
  - apply Z.lor_nonneg. split; [lia | apply Z.shiftr_nonneg; lia].
  - intros i Hi. rewrite Z.lor_spec, Z.shiftr_spec by lia.
    rewrite (testbit_high 64 _ i Hl) by lia.
    rewrite (testbit_high 64 x _ Hx) by lia. reflexivity.
Qed.

Lemma scrambled_range value : 0 <= scrambled value < 2 ^ 64.
Proof. apply RotateLeft64_range; [apply uint64_range | lia]. Qed.

Lemma half_xor_range x : 0 <= x < 2 ^ 64 -> 0 <= half_xor x < 2 ^ 32.
Proof.
  intros Hx. unfold half_xor. apply range_of_bits; [lia | |].
  - apply Z.lxor_nonneg. split; intros _.
    + apply Z.shiftr_nonneg. lia.
    + apply Z.land_nonneg. left. lia.
  - intros i Hi. rewrite Z.lxor_spec, Z.land_spec, Z.shiftr_spec by lia.
    rewrite Z.ones_spec_high by lia.
    rewrite (testbit_high 64 x (i + 32) Hx) by lia.
    rewrite andb_false_r. reflexivity.
Qed.

(** Step 4 makes the two halves equal: both are the XOR of the halves. *)
Lemma step4_halves x :
  0 <= x < 2 ^ 64 ->
  Z.lxor x (RotateLeft64 x 32) = Z.lor (Z.shiftl (half_xor x) 32) (half_xor x).
Proof.
  intros Hx. unfold half_xor, RotateLeft64, uint64.
  change (Z.land 32 63) with 32. change (64 - 32) with 32.
  Z.bitblast; kill_bits x 64 Hx; btauto.
Qed.

Lemma lower_of_halves h :
  0 <= h < 2 ^ 32 ->
  uint32 (Z.land (Z.lor (Z.shiftl h 32) h) 0xFFFFFFFF) = h.
Proof.
  intros Hh. unfold uint32. change 0xFFFFFFFF with (Z.ones 32).
  Z.bitblast; kill_bits h 32 Hh; btauto.
Qed.

Lemma upper_of_halves h :
  0 <= h < 2 ^ 32 ->
  uint32 (Z.shiftr (Z.lor (Z.shiftl h 32) h) 32) = h.
Proof.
  intros Hh. unfold uint32.
  Z.bitblast; kill_bits h 32 Hh; btauto.
Qed.

Lemma shifted_half_small r : 0 <= r < 2 ^ 32 -> uint64 (Z.shiftl r 32) = Z.shiftl r 32.
Proof.
  intros Hr. apply uint64_small. rewrite Z.shiftl_mul_pow2 by lia. lia.
Qed.

(** [obfuscateValue] only depends on the 32-bit XOR of the halves. *)
Lemma obfuscateValue_pack value :
  obfuscateValue value = pack (half_xor (scrambled value)).
Proof.
  unfold obfuscateValue. cbv zeta. fold (scrambled value).
  pose proof (scrambled_range value) as Hs.
  pose proof (half_xor_range _ Hs) as Hh.
  rewrite step4_halves by assumption.
  rewrite lower_of_halves, upper_of_halves by assumption.
  unfold pack. rewrite shifted_half_small by apply Reverse32_range.
  reflexivity.
Qed.

Lemma pack_upper h : 0 <= h < 2 ^ 32 -> Z.shiftr (pack h) 32 = Reverse32 h.
Proof.
  intros Hh. unfold pack. pose proof (Reverse32_range h) as Hr.
  generalize dependent (Reverse32 h). intros r Hr.
  Z.bitblast; kill_bits h 32 Hh; kill_bits r 32 Hr; btauto.
Qed.

Lemma pack_lower h : 0 <= h < 2 ^ 32 -> Z.land (pack h) 0xFFFFFFFF = h.
Proof.
  intros Hh. unfold pack. pose proof (Reverse32_range h) as Hr.
  generalize dependent (Reverse32 h). intros r Hr.
  change 0xFFFFFFFF with (Z.ones 32).
  Z.bitblast; kill_bits h 32 Hh; kill_bits r 32 Hr; btauto.
Qed.

Lemma pack_range h : 0 <= h < 2 ^ 32 -> 0 <= pack h < 2 ^ 64.
Proof.
  intros Hh. unfold pack. pose proof (Reverse32_range h) as Hr.
  generalize dependent (Reverse32 h). intros r Hr.
  apply range_of_bits; [lia | |].
  - apply Z.lor_nonneg. split; [apply Z.shiftl_nonneg; lia | lia].
  - intros i Hi. rewrite Z.lor_spec, Z.shiftl_spec by lia.
    rewrite (testbit_high 32 r _ Hr), (testbit_high 32 h _ Hh) by lia.
    reflexivity.
Qed.

Lemma folded_range value : 0 <= folded value < 2 ^ 32.
Proof. apply half_xor_range, scrambled_range. Qed.

Lemma encodeCounter_folded x y :
  folded x = folded y -> encodeCounter x = encodeCounter y.
Proof.
  intros H. unfold encodeCounter. rewrite !obfuscateValue_pack.
  fold (folded x) (folded y). rewrite H. reflexivity.
Qed.

(** If [f] is decided by [g], inputs with distinct [f] have distinct [g]. *)
Lemma NoDup_map_factor {A B C : Type} (f : A -> B) (g : A -> C) (l : list A) :
  (forall a b, g a = g b -> f a = f b) ->
  List.NoDup (map f l) -> List.NoDup (map g l).
Proof.
  intros Hfg. induction l as [|a l IH]; cbn [map]; intros Hnd.
  - constructor.
  - inversion Hnd as [|? ? Hnotin Hrest]; subst. constructor; [|auto].
    intros Hin. apply Hnotin.
    apply in_map_iff in Hin as (b & Hb & Hbl).
    apply in_map_iff. exists b. split; [apply Hfg; assumption | assumption].
Qed.

(** Pigeonhole: distinct numbers below [n] are at most [n]. *)
Lemma NoDup_below (n : Z) (l : list Z) :
  0 <= n -> List.NoDup l -> (forall x, In x l -> 0 <= x < n) ->
  Z.of_nat (length l) <= n.
Proof.
  intros Hn Hnd Hin.
  assert (Hle : (length l <= length (map Z.of_nat (seq 0 (Z.to_nat n))))%nat).
  { apply NoDup_incl_length; [assumption|].
    intros x Hx. specialize (Hin x Hx).
    apply in_map_iff. exists (Z.to_nat x). split; [lia|].
    apply in_seq. lia. }
  rewrite length_map, length_seq in Hle. lia.
Qed.

Lemma distinct_outputs_bound {B : Type} (f : Z -> B) (vs : list Z) :
  (forall x y, folded x = folded y -> f x = f y) ->
  List.NoDup (map f vs) -> Z.of_nat (length vs) <= 2 ^ 32.
Proof.
  intros Hf Hnd.
  apply (NoDup_map_factor f folded) in Hnd; [|assumption].
  rewrite <- (length_map folded vs).
  apply NoDup_below; [lia | assumption |].
  intros x Hx. apply in_map_iff in Hx as (v & <- & _). apply folded_range.
Qed.

(** C3: the upper 32 bits of every output of [obfuscateValue] are its
    lower 32 bits in reversed order.  So inputs with pairwise distinct
    outputs, or with pairwise distinct codes from [encodeCounter], number
    at most [2 ^ 32]; and the function is not injective: the counters
    111173 and 155018 get the same output and the same code. *)
Theorem obfuscateValue_half_decides :
  (forall value,
      let r := obfuscateValue value in
      0 <= r < 2 ^ 64
      /\ Z.shiftr r 32 = Reverse32 (Z.land r 0xFFFFFFFF)
      /\ (forall i, 0 <= i < 32 -> Z.testbit r (32 + i) = Z.testbit r (31 - i)))
  /\ (forall vs : list Z,
         List.NoDup (map obfuscateValue vs) -> Z.of_nat (length vs) <= 2 ^ 32)
  /\ (forall vs : list Z,
         List.NoDup (map encodeCounter vs) -> Z.of_nat (length vs) <= 2 ^ 32)
  /\ (111173 <> 155018
      /\ obfuscateValue 111173 = obfuscateValue 155018
      /\ encodeCounter 111173 = encodeCounter 155018).
Proof.
  split; [|split; [|split]].
  - intros value r. subst r. rewrite obfuscateValue_pack. fold (folded value).
    pose proof (folded_range value) as Hh.
    split; [apply pack_range; assumption|].
    rewrite pack_upper, pack_lower by assumption.
    split; [reflexivity|].
    intros i Hi.
    assert (Hup : Z.testbit (Z.shiftr (pack (folded value)) 32) i
                  = Z.testbit (pack (folded value)) (32 + i))
      by (rewrite Z.shiftr_spec by lia; f_equal; lia).
    assert (Hlo : Z.testbit (Z.land (pack (folded value)) 0xFFFFFFFF) (31 - i)
                  = Z.testbit (pack (folded value)) (31 - i)).
    { change 0xFFFFFFFF with (Z.ones 32).
      rewrite Z.land_spec, Z.ones_spec_low by lia. apply andb_true_r. }
    rewrite <- Hup, <- Hlo, pack_upper, pack_lower by assumption.
    rewrite Reverse32_testbit by lia.
    destruct (Z.ltb_spec i 32); [reflexivity | lia].
  - intros vs. apply distinct_outputs_bound.
    intros x y H. rewrite !obfuscateValue_pack. fold (folded x) (folded y).
    rewrite H. reflexivity.
  - intros vs. apply distinct_outputs_bound. apply encodeCounter_folded.
  - split; [lia|]. split; vm_compute; reflexivity.
Qed.

(** *** The code against the seven steps of the specification *)

Lemma lor_disjoint a b : Z.land a b = 0 -> Z.lor a b = a + b.
Proof. intros H. pose proof (Z.add_lor_land a b). lia. Qed.

Lemma rotate_left_RotateLeft64 x k :
  0 <= x < 2 ^ 64 -> 0 < k < 64 ->
  EncoderSpec.rotate_left 64 x k = RotateLeft64 x k.
Proof.
  intros Hx Hk. unfold EncoderSpec.rotate_left, RotateLeft64, uint64.
  cbv zeta. rewrite land_63 by lia.
  rewrite <- Z.shiftl_mul_pow2, <- Z.shiftr_div_pow2 by lia.
  symmetry. apply lor_disjoint.
  Z.bitblast.
  match goal with
  | Hl : _ = ?i - k |- _ => destruct (Z.lt_ge_cases i k)
  end; kill_bits x 64 Hx; btauto.
Qed.

Lemma reverse_bits_bit_reverse (n : nat) :
  forall x acc,
    reverse_bits n x acc = acc * 2 ^ Z.of_nat n + EncoderSpec.bit_reverse n x.
Proof.
  induction n as [|n IH]; intros x acc;
    cbn [reverse_bits EncoderSpec.bit_reverse].
  - change (Z.of_nat 0) with 0. lia.
  - rewrite IH, Z.shiftr_div_pow2 by lia. change (2 ^ 1) with 2.
    assert (Hbit : Z.land x 1 = Z.b2z (Z.odd x)).
    { change 1 with (Z.ones 1) at 1. rewrite Z.land_ones by lia.
      change (2 ^ 1) with 2. rewrite <- Z.bit0_odd. symmetry. apply Z.bit0_mod. }
    rewrite lor_disjoint.
    + rewrite Hbit, Z.shiftl_mul_pow2, Nat2Z.inj_succ, Z.pow_succ_r by lia.
      ring.
    + change (Z.land x 1) with (Z.land x (Z.ones 1)). Z.bitblast.
      match goal with
      | |- context [Z.testbit acc ?l] => rewrite (Z.testbit_neg_r acc l) by lia
      end.
      reflexivity.
Qed.

Lemma Reverse32_bit_reverse x : Reverse32 x = EncoderSpec.bit_reverse 32 x.
Proof. unfold Reverse32. rewrite reverse_bits_bit_reverse. lia. Qed.

Lemma halves_plus r h :
  0 <= r < 2 ^ 32 -> 0 <= h < 2 ^ 32 ->
  Z.lor (Z.shiftl r 32) h = r * 2 ^ 32 + h.
Proof.
  intros Hr Hh. rewrite lor_disjoint; [rewrite Z.shiftl_mul_pow2; lia|].
  Z.bitblast.
  match goal with
  | Hl : _ = ?i - 32 |- _ => destruct (Z.lt_ge_cases i 32)
  end; kill_bits h 32 Hh; kill_bits r 32 Hr; btauto.
Qed.

(** Step 5 of the code exchanges the halves. *)
Lemma step5_swapped d :
  0 <= d < 2 ^ 64 ->
  Z.lor (uint64 (Z.shiftl (Reverse32 (uint32 (Z.land d 0xFFFFFFFF))) 32))
        (uint32 (Z.shiftr d 32))
  = EncoderSpec.reverse_low_swapped d.
Proof.
  intros Hd. unfold EncoderSpec.reverse_low_swapped, uint32.
  change 0xFFFFFFFF with (Z.ones 32).
  rewrite Z.land_ones, Z.mod_mod, Z.shiftr_div_pow2 by lia.
  assert (Hup : 0 <= d / 2 ^ 32 < 2 ^ 32).
  { split; [apply Z.div_pos; lia | apply Z.div_lt_upper_bound; lia]. }
  rewrite (Z.mod_small (d / 2 ^ 32)) by assumption.
  rewrite shifted_half_small by apply Reverse32_range.
  rewrite halves_plus by (assumption || apply Reverse32_range).
  rewrite Reverse32_bit_reverse. reflexivity.
Qed.

Lemma obfuscateValue_scramble value :
  obfuscateValue value
  = EncoderSpec.scramble_with EncoderSpec.reverse_low_swapped value.
Proof.
  unfold obfuscateValue, EncoderSpec.scramble_with. cbv zeta.
  fold (uint64 (Z.lxor value salt * multiplier)).
  pose proof (uint64_range (Z.lxor value salt * multiplier)) as H2.
  rewrite (rotate_left_RotateLeft64 _ 21) by (assumption || lia).
  fold (scrambled value). pose proof (scrambled_range value) as H3.
  rewrite (rotate_left_RotateLeft64 _ 32) by (assumption || lia).
  apply step5_swapped.
  rewrite step4_halves by assumption.
  pose proof (half_xor_range _ H3) as Hh.
  rewrite halves_plus by assumption. lia.
Qed.

Lemma string_append_cons (x : ascii) (a b : string) :
  (String x a ++ b)%string = String x (a ++ b)%string.
Proof. reflexivity. Qed.

Lemma string_append_assoc (a b c : string) :
  ((a ++ b) ++ c = a ++ (b ++ c))%string.
Proof.
  induction a as [|x a IH]; [reflexivity|].
  rewrite !string_append_cons, IH. reflexivity.
Qed.

Lemma string_append_empty (a : string) : (a ++ EmptyString)%string = a.
Proof.
  induction a as [|x a IH]; [reflexivity|].
  rewrite string_append_cons, IH. reflexivity.
Qed.

Lemma string_of_list_ascii_snoc (l : list ascii) (x : ascii) :
  string_of_list_ascii (l ++ [x])
  = (string_of_list_ascii l ++ String x EmptyString)%string.
Proof.
  induction l as [|y l IH]; [reflexivity|].
  cbn [app string_of_list_ascii]. rewrite string_append_cons, IH. reflexivity.
Qed.

Lemma symbol_index d :
  0 <= d < 62 -> index_byte base62Chars d = EncoderSpec.symbol d.
Proof.
  intros Hd. apply Ascii.eqb_eq.
  apply (forall_index
           (fun d => Ascii.eqb (index_byte base62Chars d) (EncoderSpec.symbol d)));
    [vm_compute; reflexivity | assumption].
Qed.

Lemma digits62_small n : n < 62 -> EncoderSpec.digits62 n = [n].
Proof.
  intros H. rewrite EncoderSpec.digits62_equation_1.
  destruct (Z_lt_dec n 62); [reflexivity | lia].
Qed.

Lemma digits62_large n :
  62 <= n ->
  EncoderSpec.digits62 n = EncoderSpec.digits62 (n / 62) ++ [n mod 62].
Proof.
  intros H. rewrite EncoderSpec.digits62_equation_1.
  destruct (Z_lt_dec n 62); [lia | reflexivity].
Qed.

(** The loop of [toBase62] prepends the digits, most significant first. *)
Lemma toBase62_loop_digits num :
  1 <= num ->
  forall result,
    toBase62_loop num result = (EncoderSpec.to_base62 num ++ result)%string.
Proof.
  intros Hnum. revert Hnum.
  induction num as [num IH] using (well_founded_induction (Z.lt_wf 0)).
  intros Hnum result. rewrite toBase62_loop_pos by lia.
  rewrite symbol_index by (apply Z.mod_pos_bound; lia).
  unfold EncoderSpec.to_base62.
  destruct (Z_lt_dec num 62) as [Hlt|Hge].
  - rewrite Z.div_small, Z.mod_small by lia.
    rewrite toBase62_loop_done, digits62_small by lia. reflexivity.
  - rewrite digits62_large by lia.
    assert (1 <= num / 62) by (apply Z.div_le_lower_bound; lia).
    assert (num / 62 < num) by (apply Z.div_lt; lia).
    rewrite IH by lia. unfold EncoderSpec.to_base62.
    rewrite map_app. cbn [map].
    rewrite string_of_list_ascii_snoc, string_append_assoc.
    reflexivity.
Qed.

Lemma toBase62_to_base62 num :
  0 <= num -> toBase62 num = EncoderSpec.to_base62 num.
Proof.
  intros Hnum. unfold toBase62.
  destruct (Z.eqb_spec num 0) as [->|Hne]; [reflexivity|].
  rewrite toBase62_loop_digits by lia. apply string_append_empty.
Qed.

(** C10, as the code has it: [encodeCounter] is the seven-step algorithm
    in which step 5 reverses the bit order of the lower 32 bits and
    recombines with the halves exchanged, the reversed lower half on top
    and the former upper half below.  Salt XOR, multiplication modulo
    [2 ^ 64], rotation by 21, XOR with the rotation by 32, reduction into
    [[62^6, 62^7 - 1]] and the base-62 digits, most significant first, are
    as the specification has them; and the multiplier is odd. *)
Theorem encodeCounter_seven_steps :
  (forall counter : Z,
      encodeCounter counter = EncoderSpec.swapped_encode counter)
  /\ Z.odd multiplier = true.
Proof.
  split; [|reflexivity]. intros counter.
  unfold encodeCounter, EncoderSpec.swapped_encode, EncoderSpec.encode_with.
  cbv zeta. rewrite <- obfuscateValue_scramble.
  pose proof (finalValue_range (obfuscateValue counter)) as Hr. cbv zeta in Hr.
  set (finalValue := uint64 _) in *.
  rewrite toBase62_to_base62 by lia.
  f_equal. subst finalValue. apply uint64_small.
  change EncoderSpec.range_size with 3464814370624.
  change EncoderSpec.range_lo with 56800235584.
  pose proof (Z.mod_pos_bound (obfuscateValue counter) 3464814370624
                ltac:(lia)).
  lia.
Qed.

(** C10, as the specification words it, fails on the counter 1.  After
    step 4 both halves are [0x8F638E62]; the code puts its reversal
    [0x4671C6F1] in the upper half, the specification's step 5 leaves it in
    the lower half, and the two codes differ. *)
Lemma spec_encode_differs :
  obfuscateValue 1 = 0x4671C6F18F638E62
  /\ EncoderSpec.scramble_with EncoderSpec.reverse_low_in_place 1
     = 0x8F638E624671C6F1
  /\ encodeCounter 1 = "ZYhhlfA"%string
  /\ EncoderSpec.spec_encode 1 = "yrbgp69"%string
  /\ encodeCounter 1 <> EncoderSpec.spec_encode 1.
Proof.
  repeat split; try (vm_compute; reflexivity).
  vm_compute. intros H. discriminate H.
Qed.

End Obfuscation.

(** ** The entry cache *)

Section EntryCache.
Import Bits Memory.

(** [TestCache_IncrementUsage]: the count goes from 1 to 2 and the entry
    is dirty. *)
Example IncrementUsage_after_Set :
  let entry := {| OriginalURL := "https://example.com";
                  UsageCount := 1;
                  LastUsedAt := 1000;
                  Dirty := false |} in
  Get (IncrementUsage 1001 (Set_ New "test123" entry).1 "test123").1 "test123"
  = Some {| OriginalURL := "https://example.com";
            UsageCount := 2;
            LastUsedAt := 1001;
            Dirty := true |}.
Proof. vm_compute. reflexivity. Qed.

(** [TestCache_MarkClean]: a dirty entry is collected, and no longer once
    it is marked clean. *)
Example MarkClean_after_Set :
  let entry := {| OriginalURL := "https://example.com";
                  UsageCount := 1;
                  LastUsedAt := 1000;
                  Dirty := true |} in
  size (GetDirtyEntries (Set_ New "test123" entry).1).1 = 1%nat
  /\ size (GetDirtyEntries
             (MarkClean (Set_ New "test123" entry).1 "test123").1).1 = 0%nat.
Proof. split; vm_compute; reflexivity. Qed.

Lemma copyEntry_id (entry : CacheEntry) : copyEntry entry = entry.
Proof. destruct entry. reflexivity. Qed.

Lemma copyEntry_fmap_id (d : gmap string CacheEntry) : copyEntry <$> d = d.
Proof.
  apply map_eq. intros k. rewrite lookup_fmap.
  destruct (d !! k) as [entry|]; cbn; [rewrite copyEntry_id|]; reflexivity.
Qed.

Lemma MarkClean_lookup (c : Cache) (shortCode k : string) :
  data (MarkClean c shortCode).1 !! k
  = if decide (shortCode = k) then cleaned <$> data c !! k else data c !! k.
Proof.
  unfold MarkClean. destruct (decide (shortCode = k)) as [->|Hne].
  - destruct (data c !! k) as [entry|] eqn:Hk; cbn.
    + rewrite lookup_insert_eq. reflexivity.
    + rewrite Hk. reflexivity.
  - destruct (data c !! shortCode) as [entry|]; cbn; [|reflexivity].
    rewrite lookup_insert_ne by assumption. reflexivity.
Qed.

Lemma MarkClean_running (c : Cache) (shortCode : string) :
  running (MarkClean c shortCode).1 = running c.
Proof. unfold MarkClean. destruct (data c !! shortCode); reflexivity. Qed.

(** The loop [for shortCode := range dirtyEntries { c.MarkClean(...) }]
    cleans the entries whose key is in the batch and no other. *)
Lemma MarkClean_batch_lookup (batch : gmap string CacheEntry) (c : Cache) (k : string) :
  data (map_fold (fun shortCode _ c => (MarkClean c shortCode).1) c batch) !! k
  = match batch !! k with
    | Some _ => cleaned <$> data c !! k
    | None => data c !! k
    end.
Proof.
  apply (map_fold_weak_ind
           (fun (r : Cache) (m : gmap string CacheEntry) =>
              data r !! k = match m !! k with
                            | Some _ => cleaned <$> data c !! k
                            | None => data c !! k
                            end)).
  - rewrite lookup_empty. reflexivity.
  - intros i x m r Hi IH. rewrite MarkClean_lookup.
    destruct (decide (i = k)) as [->|Hne].
    + rewrite lookup_insert_eq, IH, Hi. reflexivity.
    + rewrite lookup_insert_ne by assumption. exact IH.
Qed.

Lemma GetDirtyEntries_lookup (c : Cache) (k : string) :
  (GetDirtyEntries c).1 !! k
  = match data c !! k with
    | Some entry => if Dirty entry then Some entry else None
    | None => None
    end.
Proof.
  unfold GetDirtyEntries. cbn [fst]. rewrite copyEntry_fmap_id.
  destruct (data c !! k) as [entry|] eqn:Hk.
  - destruct (Dirty entry) eqn:Hd.
    + apply map_lookup_filter_Some. split; assumption.
    + apply map_lookup_filter_None. right. intros e He. cbn.
      rewrite Hk in He. injection He as <-. rewrite Hd. discriminate.
  - apply map_lookup_filter_None. left. assumption.
Qed.

(** C9: [IncrementUsage] returns no error.  On an absent key it leaves the
    cache as it is.  On a present key the entry keeps its URL, its usage
    count goes up by one (Go's [++] on an [int]: exactly one more whenever
    the count is below the largest [int]), its time stamp becomes the
    current time and it is dirty; every other entry and the [running] flag
    stay as they are. *)
Theorem IncrementUsage_effect (now : Z) (c : Cache) (shortCode : string) :
  (IncrementUsage now c shortCode).2 = None
  /\ match data c !! shortCode with
     | None => (IncrementUsage now c shortCode).1 = c
     | Some entry =>
         exists entry',
           data (IncrementUsage now c shortCode).1 !! shortCode = Some entry'
           /\ OriginalURL entry' = OriginalURL entry
           /\ UsageCount entry' = int (UsageCount entry + 1)
           /\ (min_int64 <= UsageCount entry < max_int ->
               UsageCount entry' = UsageCount entry + 1)
           /\ LastUsedAt entry' = now
           /\ Dirty entry' = true
           /\ (forall k, k <> shortCode ->
                         data (IncrementUsage now c shortCode).1 !! k = data c !! k)
           /\ running (IncrementUsage now c shortCode).1 = running c
     end.
Proof.
  unfold IncrementUsage.
  destruct (data c !! shortCode) as [entry|] eqn:Hk; cbn [fst snd];
    (split; [reflexivity|]); [|reflexivity].
  eexists. split; [apply lookup_insert_eq|]. cbn.
  repeat split.
  - intros Hrange. unfold int, int64, max_int, max_int64, min_int64 in *.
    rewrite Z.mod_small; lia.
  - intros k Hne. apply lookup_insert_ne. congruence.
Qed.

(** C7, as the code has it: [LoadData] returns no error and replaces the
    whole content of the cache by copies of exactly the entries given, so
    every prior entry is gone; each loaded entry carries the dirty flag of
    the entry it was copied from, and starts clean exactly when that entry
    is clean. *)
Theorem LoadData_replaces (c : Cache) (d : gmap string CacheEntry) :
  (LoadData c d).2 = None
  /\ data (LoadData c d).1 = d
  /\ (forall k entry,
         data (LoadData c d).1 !! k = Some entry <-> d !! k = Some entry)
  /\ (forall k entry,
         d !! k = Some entry ->
         Dirty <$> data (LoadData c d).1 !! k = Some (Dirty entry)).
Proof.
  unfold LoadData. cbn [fst snd with_data data].
  rewrite copyEntry_fmap_id. repeat split; try tauto.
  intros k entry Hk. rewrite Hk. reflexivity.
Qed.

(** C7, as stated, fails: an entry loaded from a dirty entry
    is dirty, as [TestCache_LoadData] of the repository expects. *)
Lemma LoadData_keeps_dirty :
  Dirty <$> data (LoadData New
                    {[ "entry2"%string :=
                         {| OriginalURL := "https://entry2.com";
                            UsageCount := 10;
                            LastUsedAt := 0;
                            Dirty := true |} ]}).1 !! "entry2"%string
  = Some true.
Proof.
  unfold LoadData. cbn [fst with_data data].
  rewrite lookup_fmap, lookup_singleton_eq. reflexivity.
Qed.

(** C8: a flush cycle marks all of its batch clean or none of it.  When
    [syncFunc] fails on the batch of dirty entries the cache is unchanged:
    every entry of the batch is still dirty and the next cycle collects
    the same batch.  When [syncFunc] succeeds every entry of the batch is
    clean afterwards, with its other fields as they were, no entry is
    dirty any more, and entries outside the batch are untouched. *)
Theorem syncToDatabase_all_or_nothing
    (syncFunc : gmap string CacheEntry -> error) (c : Cache) :
  let batch := (GetDirtyEntries c).1 in
  let c' := syncToDatabase syncFunc c in
  match syncFunc batch with
  | Some _ =>
      c' = c
      /\ (forall k entry, batch !! k = Some entry ->
                          Dirty <$> data c' !! k = Some true)
      /\ (GetDirtyEntries c').1 = batch
  | None =>
      (forall k entry, batch !! k = Some entry ->
                       data c' !! k = Some (cleaned entry))
      /\ (forall k, batch !! k = None -> data c' !! k = data c !! k)
      /\ (GetDirtyEntries c').1 = ∅
  end.
Proof.
  cbv zeta.
  assert (Hdirty : forall k entry,
             (GetDirtyEntries c).1 !! k = Some entry ->
             data c !! k = Some entry /\ Dirty entry = true).
  { intros k entry. rewrite GetDirtyEntries_lookup.
    destruct (data c !! k) as [e|]; [|discriminate].
    destruct (Dirty e) eqn:Hd; [|discriminate].
    intros [= <-]. split; [reflexivity | assumption]. }
  unfold syncToDatabase.
  destruct (GetDirtyEntries c) as [batch err] eqn:Hget.
  assert (Herr : err = None) by (unfold GetDirtyEntries in Hget; congruence).
  subst err. cbn [fst] in *.
  destruct (Nat.eqb_spec (size batch) 0) as [Hsize|Hsize].
  - apply map_size_empty_iff in Hsize. subst batch.
    assert (Hget' : (GetDirtyEntries c).1 = ∅) by (rewrite Hget; reflexivity).
    destruct (syncFunc ∅).
    + repeat split; [|assumption].
      intros k entry Hk. rewrite lookup_empty in Hk. discriminate.
    + repeat split; [|assumption].
      intros k entry Hk. rewrite lookup_empty in Hk. discriminate.
  - destruct (syncFunc batch) as [e|].
    + repeat split.
      * intros k entry Hk. apply Hdirty in Hk as [-> Hd]. cbn. rewrite Hd.
        reflexivity.
      * rewrite Hget. reflexivity.
    + repeat split.
      * intros k entry Hk. rewrite MarkClean_batch_lookup, Hk.
        apply Hdirty in Hk as [-> _]. reflexivity.
      * intros k Hk. rewrite MarkClean_batch_lookup, Hk. reflexivity.
      * apply map_eq. intros k.
        rewrite GetDirtyEntries_lookup, MarkClean_batch_lookup, lookup_empty.
        destruct (batch !! k) as [entry|] eqn:Hk.
        -- apply Hdirty in Hk as [-> _]. reflexivity.
        -- assert (Hk' : (GetDirtyEntries c).1 !! k = None)
             by (rewrite Hget; exact Hk).
           rewrite GetDirtyEntries_lookup in Hk'.
           destruct (data c !! k) as [e0|]; [|reflexivity].
           destruct (Dirty e0); [discriminate | reflexivity].
Qed.

End EntryCache.

(** ** The counter cache *)

Section Allocator.
Import Bits CounterCache.

Lemma int64_small z : min_int64 <= z <= max_int64 -> int64 z = z.
Proof.
  unfold int64, min_int64, max_int64. intros Hz.
  rewrite Z.mod_small; lia.
Qed.

Lemma asyncWriteback_counters c key value :
  counters (asyncWriteback c key value) = counters c.
Proof. unfold asyncWriteback. destruct (_ <? _)%nat; reflexivity. Qed.

Lemma asyncWriteback_jumpAhead c key value :
  jumpAhead (asyncWriteback c key value) = jumpAhead c.
Proof. unfold asyncWriteback. destruct (_ <? _)%nat; reflexivity. Qed.

Lemma asyncWriteback_db c key value :
  db (asyncWriteback c key value) = db c.
Proof. unfold asyncWriteback. destruct (_ <? _)%nat; reflexivity. Qed.

Lemma go_asyncWriteback_counters c key value :
  counters (go_asyncWriteback c key value) = counters c.
Proof. reflexivity. Qed.

Lemma go_asyncWriteback_jumpAhead c key value :
  jumpAhead (go_asyncWriteback c key value) = jumpAhead c.
Proof. reflexivity. Qed.

Lemma go_asyncWriteback_db c key value :
  db (go_asyncWriteback c key value) = db c.
Proof. reflexivity. Qed.

(** A goroutine that runs touches the channel only. *)
Lemma deliver_counters c i :
  counters (deliver c i) = counters c
  /\ jumpAhead (deliver c i) = jumpAhead c
  /\ db (deliver c i) = db c.
Proof.
  unfold deliver. destruct (spawned c !! i) as [req|]; [|repeat split].
  rewrite asyncWriteback_counters, asyncWriteback_jumpAhead, asyncWriteback_db.
  repeat split.
Qed.

(** A request sent while the channel has room is the last one issued. *)
Lemma asyncWriteback_issued c key value :
  (length (issued c) < writebackCap)%nat ->
  issued (asyncWriteback c key value) = issued c ++ [(key, value)].
Proof.
  unfold issued, asyncWriteback. rewrite length_app, length_map. intros Hlen.
  destruct (Nat.ltb_spec (length (writebackCh c)) writebackCap); [|lia].
  cbn [db writebackCh]. rewrite map_app, app_assoc. reflexivity.
Qed.

Lemma store_issued c key entry : issued (store c key entry) = issued c.
Proof. reflexivity. Qed.

(** A round of the worker moves the oldest request from the channel to
    the table, when the table takes it. *)
Lemma writebackWorker_issued c :
  unavailable (db c) = false -> issued (writebackWorker c) = issued c.
Proof.
  intros Hup. unfold writebackWorker.
  destruct (writebackCh c) as [|req rest] eqn:Hch; [reflexivity|].
  unfold issued. rewrite Hch.
  cbn [db writebackCh map]. unfold db_SetCounter. rewrite Hup.
  cbn [executed]. rewrite <- app_assoc. reflexivity.
Qed.

Lemma writebackWorker_counters c :
  counters (writebackWorker c) = counters c
  /\ jumpAhead (writebackWorker c) = jumpAhead c
  /\ unavailable (db (writebackWorker c)) = unavailable (db c).
Proof.
  unfold writebackWorker. destruct (writebackCh c) as [|req rest] eqn:Hch;
    [repeat split|].
  cbn [counters jumpAhead db]. unfold db_SetCounter.
  destruct (unavailable (db c)) eqn:Hup; repeat split; assumption.
Qed.

(** *** What the repository's tests expect *)

(** [TestCounterCache]: the first value is 1 and the next ones follow. *)
Example first_values_step_ten :
  (run (repeat (EvGetNextCounter "test-counter") 5)
       (NewCounterCache emptyStore 10)).2
  = [(1, None); (2, None); (3, None); (4, None); (5, None)].
Proof. vm_compute. reflexivity. Qed.

(** [TestCounterCache]: keys are counted independently. *)
Example independent_keys :
  (run [EvGetNextCounter "counter1"; EvGetNextCounter "counter2";
        EvGetNextCounter "counter1"]
       (NewCounterCache emptyStore 10)).2
  = [(1, None); (1, None); (2, None)].
Proof. vm_compute. reflexivity. Qed.

(** [TestCounterCache]: after [SetCounter] the next value is one more. *)
Example next_after_SetCounter :
  (run [EvSetCounter "set-counter-test" 100;
        EvGetNextCounter "set-counter-test"]
       (NewCounterCache emptyStore 10)).2
  = [(101, None)].
Proof. vm_compute. reflexivity. Qed.

(** A table that does not answer fails the first call for a key. *)
Example first_call_fails_without_table :
  GetNextCounter
    (NewCounterCache {| rows := ∅; unavailable := true; executed := [] |} 10)
    "k"
  = (NewCounterCache {| rows := ∅; unavailable := true; executed := [] |} 10,
     (0, Some "failed to get counter from DB"%string)).
Proof. vm_compute. reflexivity. Qed.

(** *** The scenario: step 10, an empty table *)

Lemma go_asyncWriteback_requested c key value :
  requested (go_asyncWriteback c key value) = requested c ++ [(key, value)].
Proof.
  unfold requested, issued, go_asyncWriteback. cbn [db writebackCh spawned].
  rewrite map_app, !app_assoc. reflexivity.
Qed.

Lemma store_requested c key entry : requested (store c key entry) = requested c.
Proof. reflexivity. Qed.

Lemma writebackWorker_requested c :
  unavailable (db c) = false -> requested (writebackWorker c) = requested c.
Proof.
  intros Hup. unfold requested. rewrite writebackWorker_issued by assumption.
  unfold writebackWorker. destruct (writebackCh c); reflexivity.
Qed.

(** A goroutine that runs while the channel has room moves its request
    to the channel. *)
Lemma deliver_requested c i :
  (length (writebackCh c) < writebackCap)%nat ->
  requested (deliver c i) ≡ₚ requested c.
Proof.
  intros Hroom. unfold deliver.
  destruct (spawned c !! i) as [req|] eqn:Hi; [|reflexivity].
  unfold requested, issued, asyncWriteback. cbn [writebackCh].
  destruct (Nat.ltb_spec (length (writebackCh c)) writebackCap); [|lia].
  cbn [db writebackCh spawned]. rewrite map_app, <- !app_assoc.
  apply Permutation_app_head, Permutation_app_head. cbn [map app key value].
  etransitivity;
    [|apply Permutation_map; symmetry; apply delete_Permutation; exact Hi].
  reflexivity.
Qed.

Lemma requested_channel c :
  (length (writebackCh c) <= length (requested c))%nat.
Proof.
  unfold requested, issued. rewrite !length_app, !length_map. lia.
Qed.

Lemma after_calls_worker j c :
  after_calls j c -> after_calls j (writebackWorker c).
Proof.
  intros (Hjump & Hup & Hj).
  destruct (writebackWorker_counters c) as (Hc & Hj' & Hup').
  unfold after_calls.
  rewrite Hc, Hj', Hup', writebackWorker_requested by assumption.
  repeat split; try assumption.
  destruct j as [|j]; [|exact Hj].
  destruct Hj as (Hk & Hrow & Hreq). repeat split; try assumption.
  unfold requested, issued in Hreq. apply app_eq_nil in Hreq as [Hiss _].
  apply app_eq_nil in Hiss as [_ Hch].
  apply map_eq_nil in Hch. unfold writebackWorker. rewrite Hch. assumption.
Qed.

Lemma after_calls_send j c i :
  after_calls j c -> after_calls j (deliver c i).
Proof.
  intros (Hjump & Hup & Hj).
  destruct (deliver_counters c i) as (Hc & Hj' & Hdb).
  unfold after_calls. rewrite Hc, Hj', Hdb.
  repeat split; try assumption.
  destruct j as [|j].
  - destruct Hj as (Hk & Hrow & Hreq). repeat split; try assumption.
    assert (Hsp : spawned c = []).
    { unfold requested in Hreq. apply app_eq_nil in Hreq as [_ Hsp].
      apply map_eq_nil in Hsp. exact Hsp. }
    unfold deliver. rewrite Hsp. cbn. exact Hreq.
  - destruct Hj as (Hk & Hreq). split; [exact Hk|].
    rewrite deliver_requested; [exact Hreq|].
    pose proof (requested_channel c) as Hlen.
    apply Permutation_length in Hreq. rewrite Hreq in Hlen.
    unfold writebackCap. destruct (S j <=? 10)%nat; cbn [length] in Hlen; lia.
Qed.

Lemma after_calls_first c :
  after_calls 0 c ->
  (GetNextCounter c "k").2 = (1, None)
  /\ after_calls 1 (GetNextCounter c "k").1.
Proof.
  intros (Hjump & Hup & Hk & Hrow & Hreq).
  unfold GetNextCounter, db_GetCounter. rewrite Hk, Hup, Hrow.
  unfold initialize. rewrite Hjump. change (int64 (0 + 10)) with 10.
  cbn [allocated]. unfold allocate.
  rewrite go_asyncWriteback_jumpAhead. cbn [current allocated dirty].
  change (10 <=? 0) with false. cbv iota. cbn [fst snd current].
  split; [reflexivity|].
  unfold after_calls. cbn [jumpAhead db counters store].
  rewrite go_asyncWriteback_jumpAhead, go_asyncWriteback_db,
    go_asyncWriteback_counters.
  cbn [jumpAhead db counters store].
  repeat split; try assumption.
  - rewrite lookup_insert_eq. reflexivity.
  - rewrite store_requested, go_asyncWriteback_requested, store_requested, Hreq.
    reflexivity.
Qed.

Lemma after_calls_next j c :
  (1 <= j <= 10)%nat ->
  after_calls j c ->
  (GetNextCounter c "k").2 = (Z.of_nat (S j), None)
  /\ after_calls (S j) (GetNextCounter c "k").1.
Proof.
  intros Hj (Hjump & Hup & Hinv).
  destruct j as [|j']; [lia|]. cbv iota in Hinv.
  remember (S j') as j eqn:Hj'. clear Hj' j'.
  destruct Hinv as (Hk & Hreq).
  destruct (Nat.leb_spec j 10) as [_|]; [|lia].
  unfold GetNextCounter. rewrite Hk. unfold allocate.
  cbn [current allocated dirty]. rewrite Hjump.
  assert (Hnext : int64 (Z.of_nat j + 1) = Z.of_nat (S j))
    by (rewrite int64_small; unfold min_int64, max_int64; lia).
  destruct (Nat.eq_dec j 10%nat) as [H10|Hlt].
  - (* the ceiling is reached: a second batch is allocated *)
    subst j. change (10 <=? Z.of_nat 10) with true. cbv iota.
    change (int64 (10 + 10)) with 20. cbn [fst snd current allocated dirty].
    split; [reflexivity|].
    unfold after_calls. cbn [jumpAhead db counters store].
    rewrite go_asyncWriteback_jumpAhead, go_asyncWriteback_db,
      go_asyncWriteback_counters.
    repeat split; try assumption.
    + rewrite lookup_insert_eq. reflexivity.
    + rewrite store_requested, go_asyncWriteback_requested, Hreq. reflexivity.
  - destruct (Z.leb_spec 10 (Z.of_nat j)) as [|_]; [lia|].
    cbn [fst snd current allocated dirty]. rewrite Hnext.
    split; [reflexivity|].
    unfold after_calls. cbn [jumpAhead db counters store].
    destruct (Nat.leb_spec (S j) 10) as [_|]; [|lia].
    repeat split; try assumption.
    rewrite lookup_insert_eq. reflexivity.
Qed.

Lemma after_calls_call j c :
  (j <= 10)%nat ->
  after_calls j c ->
  (GetNextCounter c "k").2 = (Z.of_nat (S j), None)
  /\ after_calls (S j) (GetNextCounter c "k").1.
Proof.
  intros Hj Hinv. destruct (Nat.eq_dec j 0%nat) as [->|Hne].
  - apply after_calls_first. assumption.
  - apply after_calls_next; [lia | assumption].
Qed.

Lemma run_after_calls (sched : list event) :
  forall (j n : nat) (c : CounterCache),
    after_calls j c ->
    List.filter is_call sched = repeat (EvGetNextCounter "k") n ->
    (j + n <= 11)%nat ->
    (run sched c).2 = map (fun i => (Z.of_nat i, None)) (seq (S j) n)
    /\ after_calls (j + n) (run sched c).1.
Proof.
  induction sched as [|ev sched IH]; intros j n c Hinv Hcalls Hn.
  - destruct n as [|n]; [|discriminate].
    rewrite Nat.add_0_r. split; [reflexivity | assumption].
  - destruct ev as [key|key value| |i]; cbn [List.filter is_call] in Hcalls.
    + destruct n as [|n]; [discriminate|].
      cbn [repeat] in Hcalls. injection Hcalls as -> Hcalls.
      destruct (after_calls_call j c ltac:(lia) Hinv) as [Hres Hinv'].
      cbn [run step].
      destruct (GetNextCounter c "k") as [c1 r1] eqn:Hcall.
      cbn [fst snd] in Hres, Hinv'. subst r1.
      specialize (IH (S j) n c1 Hinv' Hcalls ltac:(lia)).
      destruct (run sched c1) as [c2 rs] eqn:Hrun. cbn [fst snd] in *.
      destruct IH as [-> Hfinal]. split; [reflexivity|].
      replace (j + S n)%nat with (S j + n)%nat by lia. assumption.
    + destruct n as [|n]; discriminate.
    + cbn [run step].
      specialize (IH j n (writebackWorker c) (after_calls_worker _ _ Hinv)
                    Hcalls Hn).
      destruct (run sched (writebackWorker c)) as [c2 rs]. exact IH.
    + cbn [run step].
      specialize (IH j n (deliver c i) (after_calls_send _ _ i Hinv)
                    Hcalls Hn).
      destruct (run sched (deliver c i)) as [c2 rs]. exact IH.
Qed.

(** C4, as the code has it: with step 10 and an empty table, however the
    goroutines' sends and the worker's rounds fall between the calls, the
    first [n <= 11] calls of [GetNextCounter "k"] return 1 to [n]; the
    first call asks for the durable write of 10, the calls 2 to 10 ask
    for none, and the 11th call, which returns 11, asks for the durable
    write of 20.  Where the writes asked for are (with a goroutine that
    has not run, in the channel, or executed by the table) is up to the
    scheduler; what the table has executed is some of them. *)
Theorem eleven_calls_step_ten (sched : list event) (n : nat) :
  List.filter is_call sched = repeat (EvGetNextCounter "k") n ->
  (1 <= n <= 11)%nat ->
  (run sched (NewCounterCache emptyStore 10)).2
  = map (fun i => (Z.of_nat i, None)) (seq 1 n)
  /\ requested (run sched (NewCounterCache emptyStore 10)).1
     ≡ₚ ("k"%string, 10) :: (if (n <=? 10)%nat then [] else [("k"%string, 20)])
  /\ executed (db (run sched (NewCounterCache emptyStore 10)).1)
     ⊆+ ("k"%string, 10) :: (if (n <=? 10)%nat then [] else [("k"%string, 20)]).
Proof.
  intros Hcalls Hn.
  assert (H0 : after_calls 0 (NewCounterCache emptyStore 10)).
  { unfold after_calls, NewCounterCache, emptyStore, requested, issued.
    cbn [jumpAhead db unavailable counters rows executed writebackCh spawned
         map app].
    repeat split; apply lookup_empty. }
  destruct (run_after_calls sched 0%nat n _ H0 Hcalls ltac:(lia)) as [Hres Hinv].
  split; [exact Hres|].
  cbn [Nat.add] in Hinv. destruct Hinv as (_ & _ & Hinv).
  destruct n as [|n]; [lia|]. destruct Hinv as [_ Hreq].
  split; [exact Hreq|].
  rewrite <- Hreq. unfold requested, issued. rewrite <- app_assoc.
  apply submseteq_inserts_r. reflexivity.
Qed.

(** *** The allocation step *)

Lemma advanced_ok jump entry :
  1 <= jump -> entry_ok entry -> current entry + 1 + jump <= max_int64 ->
  entry_ok (advanced jump entry)
  /\ current (advanced jump entry) = current entry + 1
  /\ allocated entry <= allocated (advanced jump entry).
Proof.
  unfold entry_ok, advanced. intros Hjump (Hmin & Hle & Hmax) Hfit.
  destruct (Z.leb_spec (allocated entry) (current entry));
    cbn [current allocated]; lia.
Qed.

Lemma allocate_effect c key entry :
  1 <= jumpAhead c -> entry_ok entry ->
  current entry + 1 + jumpAhead c <= max_int64 ->
  (allocate c key entry).2 = (current entry + 1, None)
  /\ counters (allocate c key entry).1
     = <[key := advanced (jumpAhead c) entry]> (counters c)
  /\ jumpAhead (allocate c key entry).1 = jumpAhead c
  /\ db (allocate c key entry).1 = db c.
Proof.
  unfold entry_ok, advanced, allocate. intros Hjump (Hmin & Hle & Hmax) Hfit.
  destruct (Z.leb_spec (allocated entry) (current entry)) as [Hfull|Hroom];
    cbn [fst snd current allocated dirty counters jumpAhead db store].
  - assert (Heq : allocated entry = current entry) by lia.
    rewrite go_asyncWriteback_counters, go_asyncWriteback_jumpAhead,
      go_asyncWriteback_db.
    rewrite !int64_small by lia. rewrite Heq. repeat split.
  - rewrite !int64_small by lia. repeat split.
Qed.

Lemma GetNextCounter_effect c key :
  1 <= jumpAhead c -> serviceable c key ->
  high_water c key + 1 + jumpAhead c <= max_int64 ->
  exists entry',
    (GetNextCounter c key).2 = (high_water c key + 1, None)
    /\ counters (GetNextCounter c key).1 = <[key := entry']> (counters c)
    /\ jumpAhead (GetNextCounter c key).1 = jumpAhead c
    /\ entry_ok entry'
    /\ current entry' = high_water c key + 1
    /\ (forall entry, counters c !! key = Some entry ->
                      allocated entry <= allocated entry').
Proof.
  unfold serviceable, high_water, GetNextCounter. intros Hjump Hserv Hfit.
  destruct (counters c !! key) as [entry|] eqn:Hk.
  - destruct (allocate_effect c key entry Hjump Hserv Hfit)
      as (Hres & Hcnt & Hj & _).
    destruct (advanced_ok _ entry Hjump Hserv Hfit) as (Hok & Hcur & Hceil).
    exists (advanced (jumpAhead c) entry).
    split; [exact Hres|]. split; [exact Hcnt|]. split; [exact Hj|].
    split; [exact Hok|]. split; [exact Hcur|].
    intros entry0 [= <-]. assumption.
  - destruct Hserv as [Hup Hmin]. unfold db_GetCounter. rewrite Hup.
    set (dbValue := default 0 (rows (db c) !! key)) in *.
    set (entry := {| current := dbValue;
                     allocated := int64 (dbValue + jumpAhead c);
                     dirty := true |}).
    set (c1 := go_asyncWriteback (store c key entry) key (allocated entry)).
    assert (Hinit : forall v, v = dbValue -> initialize c key v = (c1, entry))
      by (intros v ->; reflexivity).
    assert (Hgoal :
             exists entry',
               (allocate c1 key entry).2 = (dbValue + 1, None)
               /\ counters (allocate c1 key entry).1
                  = <[key := entry']> (counters c)
               /\ jumpAhead (allocate c1 key entry).1 = jumpAhead c
               /\ entry_ok entry'
               /\ current entry' = dbValue + 1
               /\ (forall entry0 : cacheEntry,
                      None = Some entry0 -> allocated entry0 <= allocated entry')).
    { assert (Hj1 : jumpAhead c1 = jumpAhead c)
        by (unfold c1; rewrite go_asyncWriteback_jumpAhead; reflexivity).
      assert (Hc1 : counters c1 = <[key := entry]> (counters c))
        by (unfold c1; rewrite go_asyncWriteback_counters; reflexivity).
      assert (Hentry : entry_ok entry).
      { unfold entry_ok, entry. cbn [current allocated].
        rewrite int64_small by lia. lia. }
      assert (Hfit1 : current entry + 1 + jumpAhead c1 <= max_int64)
        by (rewrite Hj1; exact Hfit).
      rewrite <- Hj1 in Hjump.
      destruct (allocate_effect c1 key entry Hjump Hentry Hfit1)
        as (Hres & Hcnt & Hj & _).
      destruct (advanced_ok _ entry Hjump Hentry Hfit1) as (Hok & Hcur & _).
      exists (advanced (jumpAhead c1) entry).
      split; [exact Hres|].
      split; [rewrite Hcnt, Hc1; apply insert_insert_eq|].
      split; [rewrite Hj; exact Hj1|].
      split; [exact Hok|]. split; [exact Hcur|]. discriminate. }
    destruct (rows (db c) !! key) as [v|] eqn:Hrow.
    + rewrite (Hinit v) by reflexivity. exact Hgoal.
    + rewrite (Hinit 0) by reflexivity. exact Hgoal.
Qed.

(** *** Consecutive calls for one key *)

Lemma GetNextCounter_run (n : nat) :
  forall c key,
    1 <= jumpAhead c -> serviceable c key ->
    high_water c key + Z.of_nat n + jumpAhead c <= max_int64 ->
    (run (repeat (EvGetNextCounter key) n) c).2
    = map (fun i => (high_water c key + Z.of_nat i, None)) (seq 1 n).
Proof.
  induction n as [|n IH]; intros c key Hjump Hserv Hfit; [reflexivity|].
  cbn [repeat run step].
  destruct (GetNextCounter_effect c key Hjump Hserv ltac:(lia))
    as (entry' & Hres & Hcnt & Hj & Hok & Hcur & _).
  destruct (GetNextCounter c key) as [c1 r1]. cbn [fst snd] in *. subst r1.
  assert (Hk1 : counters c1 !! key = Some entry')
    by (rewrite Hcnt; apply lookup_insert_eq).
  assert (Hhw : high_water c1 key = high_water c key + 1)
    by (unfold high_water at 1; rewrite Hk1; exact Hcur).
  specialize (IH c1 key).
  rewrite Hj, Hhw in IH. unfold serviceable in IH. rewrite Hk1 in IH.
  specialize (IH Hjump Hok ltac:(lia)).
  destruct (run (repeat (EvGetNextCounter key) n) c1) as [c2 rs].
  cbn [fst snd] in *. subst rs. cbn [app seq map]. f_equal.
  rewrite <- (seq_shift n 1), map_map. apply map_ext. intros i.
  f_equal. lia.
Qed.

Lemma consecutive_sorted (h : Z) (n : nat) :
  forall start : nat,
    StronglySorted Z.lt (map (fun i => h + Z.of_nat i) (seq start n)).
Proof.
  induction n as [|n IH]; intros start; cbn [seq map]; constructor.
  - apply IH.
  - apply List.Forall_forall. intros x Hx.
    apply in_map_iff in Hx as (i & <- & Hi). apply in_seq in Hi. lia.
Qed.

Lemma sorted_NoDup (l : list Z) : StronglySorted Z.lt l -> List.NoDup l.
Proof.
  induction 1 as [|x l Hsorted IH Hall]; constructor; [|assumption].
  intros Hin. rewrite List.Forall_forall in Hall. specialize (Hall x Hin). lia.
Qed.

(** C1, as the code has it: [n] consecutive calls of [GetNextCounter] for
    one key, with a step of at least 1, from a state that respects
    [current <= ceiling] (or from a readable table, before the first
    call), return exactly the [n] integers that follow the prior
    high-water mark, in increasing order and without repetition, as long
    as the high-water mark plus [n] plus one step does not pass the largest
    [int64]. *)
Theorem GetNextCounter_contiguous (c : CounterCache) (key : string) (n : nat) :
  1 <= jumpAhead c ->
  serviceable c key ->
  high_water c key + Z.of_nat n + jumpAhead c <= max_int64 ->
  let returned := (run (repeat (EvGetNextCounter key) n) c).2 in
  returned = map (fun i => (high_water c key + Z.of_nat i, None)) (seq 1 n)
  /\ StronglySorted Z.lt (map fst returned)
  /\ List.NoDup (map fst returned).
Proof.
  intros Hjump Hserv Hfit returned. subst returned.
  rewrite GetNextCounter_run by assumption.
  rewrite map_map. cbn [fst].
  pose proof (consecutive_sorted (high_water c key) n 1) as Hsorted.
  repeat split; [assumption | apply sorted_NoDup; assumption].
Qed.

Lemma GetNextCounter_contiguous_witness :
  let c := NewCounterCache emptyStore 10 in
  1 <= jumpAhead c
  /\ serviceable c "k"
  /\ high_water c "k" + Z.of_nat 25 + jumpAhead c <= max_int64
  /\ (run (repeat (EvGetNextCounter "k") 25) c).2
     = map (fun i => (high_water c "k" + Z.of_nat i, None)) (seq 1 25).
Proof.
  assert (Hjump : 1 <= jumpAhead (NewCounterCache emptyStore 10))
    by (cbn; lia).
  assert (Hserv : serviceable (NewCounterCache emptyStore 10) "k")
    by (vm_compute; split; [reflexivity | discriminate]).
  assert (Hfit : high_water (NewCounterCache emptyStore 10) "k"
                 + Z.of_nat 25 + jumpAhead (NewCounterCache emptyStore 10)
                 <= max_int64)
    by (vm_compute; discriminate).
  split; [exact Hjump|]. split; [exact Hserv|]. split; [exact Hfit|].
  exact (proj1 (GetNextCounter_contiguous
                  (NewCounterCache emptyStore 10) "k" 25 Hjump Hserv Hfit)).
Defined.

(** C1, as stated, fails at the end of [int64]: after
    [SetCounter] has put the counter at [2^63 - 2] with step 1, two calls
    return [2^63 - 1] and then [- 2^63], which is neither one more nor
    larger. *)
Lemma GetNextCounter_wraps :
  (run [EvSetCounter "k" 9223372036854775806;
        EvGetNextCounter "k"; EvGetNextCounter "k"]
       (NewCounterCache emptyStore 1)).2
  = [(9223372036854775807, None); (-9223372036854775808, None)]
  /\ -9223372036854775808 <> 9223372036854775807 + 1
  /\ -9223372036854775808 < 9223372036854775807.
Proof. split; [vm_compute; reflexivity | lia]. Qed.

(** *** The invariant along a run *)

Lemma GetNextCounter_unavailable c key :
  counters c !! key = None -> unavailable (db c) = true ->
  (GetNextCounter c key).1 = c.
Proof.
  intros Hk Hdown. unfold GetNextCounter, db_GetCounter.
  rewrite Hk, Hdown. reflexivity.
Qed.

Lemma well_formed_insert c counters' key entry :
  well_formed c -> entry_ok entry ->
  counters' = <[key := entry]> (counters c) ->
  forall k e, counters' !! k = Some e -> entry_ok e.
Proof.
  intros Hwf Hok -> k e. destruct (decide (key = k)) as [->|Hne].
  - rewrite lookup_insert_eq. intros [= <-]. assumption.
  - rewrite lookup_insert_ne by assumption. apply Hwf.
Qed.

Lemma step_invariant c ev :
  1 <= jumpAhead c -> well_formed c -> fits c ev ->
  jumpAhead (step c ev).1 = jumpAhead c
  /\ well_formed (step c ev).1
  /\ (forall key a,
         ~ overrides key ev -> ceiling c key = Some a ->
         exists a', ceiling (step c ev).1 key = Some a' /\ a <= a').
Proof.
  intros Hjump Hwf Hfits.
  destruct ev as [key0|key0 value| |i]; cbn [step fits] in *.
  - (* GetNextCounter *)
    destruct Hfits as [Hmin Hfit].
    assert (Hcases : serviceable c key0
                     \/ (counters c !! key0 = None /\ unavailable (db c) = true)).
    { unfold serviceable, high_water in *.
      destruct (counters c !! key0) as [entry|] eqn:Hk; [left; eauto|].
      destruct (unavailable (db c)); [right | left]; split; auto. }
    destruct Hcases as [Hserv|[Hk Hdown]].
    + destruct (GetNextCounter_effect c key0 Hjump Hserv Hfit)
        as (entry' & _ & Hcnt & Hj & Hok & _ & Hceil).
      destruct (GetNextCounter c key0) as [c1 r1]. cbn [fst snd] in *.
      split; [exact Hj|]. split.
      * intros k e. apply (well_formed_insert c _ key0 entry'); assumption.
      * intros key a _. unfold ceiling. rewrite Hcnt.
        destruct (decide (key0 = key)) as [->|Hne].
        -- rewrite lookup_insert_eq. cbn.
           destruct (counters c !! key) as [entry|]; [|discriminate].
           cbn. intros [= <-]. exists (allocated entry'). split; [reflexivity|].
           apply Hceil. reflexivity.
        -- rewrite lookup_insert_ne by assumption.
           intros Ha. exists a. split; [assumption | lia].
    + pose proof (GetNextCounter_unavailable c key0 Hk Hdown) as Hsame.
      destruct (GetNextCounter c key0) as [c1 r1]. cbn [fst] in *. subst c1.
      split; [reflexivity|]. split; [assumption|].
      intros key a _ Ha. exists a. split; [assumption | lia].
  - (* SetCounter *)
    destruct Hfits as [Hmin Hfit]. unfold SetCounter. cbn [fst].
    rewrite go_asyncWriteback_jumpAhead. split; [reflexivity|]. split.
    + intros k e. rewrite go_asyncWriteback_counters.
      apply (well_formed_insert c _ key0
               {| current := value;
                  allocated := int64 (value + jumpAhead c);
                  dirty := true |}); [assumption| |reflexivity].
      unfold entry_ok. cbn [current allocated].
      rewrite int64_small by lia. lia.
    + intros key a Hother. unfold ceiling.
      rewrite go_asyncWriteback_counters. cbn [counters store].
      rewrite lookup_insert_ne by (intros ->; apply Hother; reflexivity).
      intros Ha. exists a. split; [assumption | lia].
  - (* a round of the worker *)
    destruct (writebackWorker_counters c) as (Hc & Hj & _). cbn [fst].
    split; [exact Hj|]. split.
    + intros k e. rewrite Hc. apply Hwf.
    + intros key a _. unfold ceiling. rewrite Hc.
      intros Ha. exists a. split; [assumption | lia].
  - (* a goroutine sends *)
    destruct (deliver_counters c i) as (Hc & Hj & _). cbn [fst].
    split; [exact Hj|]. split.
    + intros k e. rewrite Hc. apply Hwf.
    + intros key a _. unfold ceiling. rewrite Hc.
      intros Ha. exists a. split; [assumption | lia].
Qed.

Lemma run_cons ev evs c :
  (run (ev :: evs) c).1 = (run evs (step c ev).1).1.
Proof.
  cbn [run]. destruct (step c ev) as [c1 r1]. cbn [fst].
  destruct (run evs c1) as [c2 rs]. reflexivity.
Qed.

(** C2, as the code has it: along every run of calls, overrides, sends
    of the goroutines and worker rounds that computes within [int64], with
    a step of at least 1,
    [current <= ceiling] holds for every key after every event; and the
    ceiling of a key does not decrease over events that are not a
    [SetCounter] for that key.  [SetCounter] itself puts the ceiling at
    [value + step], wherever it was. *)
Theorem invariant_along_run (evs : list event) :
  forall c : CounterCache,
    1 <= jumpAhead c -> well_formed c -> fits_all evs c ->
    well_formed (run evs c).1
    /\ (forall key a,
           Forall (fun ev => ~ overrides key ev) evs ->
           ceiling c key = Some a ->
           exists a', ceiling (run evs c).1 key = Some a' /\ a <= a')
    /\ (forall key value,
           ceiling (SetCounter (run evs c).1 key value).1 key
           = Some (int64 (value + jumpAhead c))).
Proof.
  induction evs as [|ev evs IH]; intros c Hjump Hwf Hfits.
  - cbn [run fst]. split; [assumption|]. split.
    + intros key a _ Ha. exists a. split; [assumption | lia].
    + intros key value. unfold ceiling, SetCounter. cbn [fst].
      rewrite go_asyncWriteback_counters. cbn [counters store].
      rewrite lookup_insert_eq. reflexivity.
  - destruct Hfits as [Hfit Hrest].
    destruct (step_invariant c ev Hjump Hwf Hfit) as (Hj & Hwf1 & Hceil1).
    rewrite run_cons.
    rewrite <- Hj in Hjump.
    destruct (IH (step c ev).1 Hjump Hwf1 Hrest) as (Hwf2 & Hceil2 & Hset).
    split; [assumption|]. split.
    + intros key a Hno Ha. inversion Hno as [|? ? Hev Hevs]; subst.
      destruct (Hceil1 key a Hev Ha) as (a1 & Ha1 & Hle1).
      destruct (Hceil2 key a1 Hevs Ha1) as (a2 & Ha2 & Hle2).
      exists a2. split; [assumption | lia].
    + intros key value. rewrite Hset, Hj. reflexivity.
Qed.

Lemma invariant_along_run_witness :
  let c := NewCounterCache emptyStore 3 in
  let evs := [EvGetNextCounter "k"; EvGetNextCounter "k"; EvWorker;
              EvGetNextCounter "k"; EvGetNextCounter "k";
              EvSetCounter "k" 100; EvGetNextCounter "k"] in
  1 <= jumpAhead c
  /\ well_formed c
  /\ fits_all evs c
  /\ well_formed (run evs c).1.
Proof.
  assert (Hjump : 1 <= jumpAhead (NewCounterCache emptyStore 3))
    by (cbn; lia).
  assert (Hwf : well_formed (NewCounterCache emptyStore 3))
    by (intros key entry Hk; cbn [NewCounterCache counters] in Hk;
        rewrite lookup_empty in Hk; discriminate).
  assert (Hfits :
           fits_all [EvGetNextCounter "k"; EvGetNextCounter "k"; EvWorker;
                     EvGetNextCounter "k"; EvGetNextCounter "k";
                     EvSetCounter "k" 100; EvGetNextCounter "k"]
                    (NewCounterCache emptyStore 3))
    by (vm_compute; repeat split; discriminate).
  split; [exact Hjump|]. split; [exact Hwf|]. split; [exact Hfits|].
  exact (proj1 (invariant_along_run _ _ Hjump Hwf Hfits)).
Defined.

(** C2, as stated, fails twice.  [SetCounter] lowers the
    ceiling: with step 1, [SetCounter "k" 100] puts it at 101 and
    [SetCounter "k" 0] puts it back at 1.  And at the end of [int64] the
    ceiling wraps below [current]: [SetCounter "k" (2^63 - 1)] leaves
    [current = 2^63 - 1] with the ceiling at [- 2^63]. *)
Lemma SetCounter_lowers_ceiling :
  ceiling (run [EvSetCounter "k" 100] (NewCounterCache emptyStore 1)).1 "k"
  = Some 101
  /\ ceiling (run [EvSetCounter "k" 100; EvSetCounter "k" 0]
                  (NewCounterCache emptyStore 1)).1 "k"
     = Some 1
  /\ counters (run [EvSetCounter "k" 9223372036854775807]
                   (NewCounterCache emptyStore 1)).1 !! "k"%string
     = Some {| current := 9223372036854775807;
               allocated := -9223372036854775808;
               dirty := true |}.
Proof. repeat split; vm_compute; reflexivity. Qed.

Lemma eleven_calls_step_ten_witness :
  let sched := [EvGetNextCounter "k"; EvSend 0; EvWorker; EvGetNextCounter "k";
                EvGetNextCounter "k"; EvGetNextCounter "k";
                EvGetNextCounter "k"; EvWorker; EvGetNextCounter "k";
                EvGetNextCounter "k"; EvGetNextCounter "k";
                EvGetNextCounter "k"; EvGetNextCounter "k";
                EvGetNextCounter "k"; EvSend 0; EvWorker] in
  List.filter is_call sched = repeat (EvGetNextCounter "k") 11
  /\ (1 <= 11 <= 11)%nat
  /\ (run sched (NewCounterCache emptyStore 10)).2
     = map (fun i => (Z.of_nat i, None)) (seq 1 11)
  /\ requested (run sched (NewCounterCache emptyStore 10)).1
     ≡ₚ [("k"%string, 10); ("k"%string, 20)].
Proof.
  cbv zeta. split; [reflexivity|]. split; [lia|].
  destruct (eleven_calls_step_ten
              [EvGetNextCounter "k"; EvSend 0; EvWorker; EvGetNextCounter "k";
               EvGetNextCounter "k"; EvGetNextCounter "k";
               EvGetNextCounter "k"; EvWorker; EvGetNextCounter "k";
               EvGetNextCounter "k"; EvGetNextCounter "k";
               EvGetNextCounter "k"; EvGetNextCounter "k";
               EvGetNextCounter "k"; EvSend 0; EvWorker] 11)
    as (Hres & Hreq & _); [reflexivity | lia |].
  split; [exact Hres | exact Hreq].
Defined.

(** C4, as stated, fails: the 11 calls ask for two durable
    writes, not one.  The first call alone already asks for the write of
    10; the write of 20 is the second, asked for by the 11th call.  When
    the goroutine of the first call and the worker run right after it, the
    table has executed a write of 10 before the second call; when both
    goroutines and the worker have run after the 11 calls, the table has
    executed both writes, in the order in which the goroutines ran. *)
Lemma eleven_calls_two_writes :
  requested (run (repeat (EvGetNextCounter "k") 1)
                 (NewCounterCache emptyStore 10)).1
  = [("k"%string, 10)]
  /\ requested (run (repeat (EvGetNextCounter "k") 10)
                    (NewCounterCache emptyStore 10)).1
     = [("k"%string, 10)]
  /\ requested (run (repeat (EvGetNextCounter "k") 11)
                    (NewCounterCache emptyStore 10)).1
     = [("k"%string, 10); ("k"%string, 20)]
  /\ executed (db (run [EvGetNextCounter "k"; EvSend 0; EvWorker]
                       (NewCounterCache emptyStore 10)).1)
     = [("k"%string, 10)]
  /\ executed (db (run (repeat (EvGetNextCounter "k") 11
                          ++ [EvSend 0; EvSend 0; EvWorker; EvWorker])
                       (NewCounterCache emptyStore 10)).1)
     = [("k"%string, 10); ("k"%string, 20)]
  /\ executed (db (run (repeat (EvGetNextCounter "k") 11
                          ++ [EvSend 1; EvSend 0; EvWorker; EvWorker])
                       (NewCounterCache emptyStore 10)).1)
     = [("k"%string, 20); ("k"%string, 10)].
Proof. repeat split; vm_compute; reflexivity. Qed.

End Allocator.

(** ** More on the encoder *)

Section EncoderMore.
Import Bits CounterGenerator.

(** A property of the 62 symbols is checked symbol by symbol. *)
Lemma forall_alphabet (P : ascii -> bool) :
  forallb P (chars base62Chars) = true ->
  forall c, in_alphabet c -> P c = true.
Proof.
  intros Hall c Hc. rewrite forallb_forall in Hall. apply Hall. exact Hc.
Qed.

Lemma char_value_range c : in_alphabet c -> 0 <= char_value c < 62.
Proof.
  intros Hc.
  apply (forall_alphabet
           (fun c => (0 <=? char_value c) && (char_value c <? 62))) in Hc;
    [|vm_compute; reflexivity].
  apply andb_true_iff in Hc as [H0 H1].
  apply Z.leb_le in H0. apply Z.ltb_lt in H1. lia.
Qed.

Lemma index_char_value c :
  in_alphabet c -> index_byte base62Chars (char_value c) = c.
Proof.
  intros Hc. apply Ascii.eqb_eq.
  apply (forall_alphabet
           (fun c => Ascii.eqb (index_byte base62Chars (char_value c)) c));
    [vm_compute; reflexivity | assumption].
Qed.

Lemma char_value_positive c :
  in_alphabet c -> c <> "0"%char -> 1 <= char_value c.
Proof.
  intros Hc Hne.
  apply (forall_alphabet
           (fun c => Ascii.eqb c "0" || (1 <=? char_value c))) in Hc;
    [|vm_compute; reflexivity].
  apply orb_true_iff in Hc as [H0|H1].
  - apply Ascii.eqb_eq in H0. contradiction.
  - apply Z.leb_le. assumption.
Qed.

Lemma fromBase62_loop_app (s1 s2 : string) :
  forall acc,
    fromBase62_loop (s1 ++ s2) acc = fromBase62_loop s2 (fromBase62_loop s1 acc).
Proof.
  induction s1 as [|c s1 IH]; intros acc; [reflexivity|].
  rewrite string_append_cons. cbn [fromBase62_loop]. apply IH.
Qed.

Lemma length_string_of_list_ascii (l : list ascii) :
  String.length (string_of_list_ascii l) = length l.
Proof. induction l as [|c l IH]; cbn; [reflexivity | congruence]. Qed.

(** Reading [l], most significant digit first, gives a number below
    [62 ^ length l]; when [l] does not start with ["0"] the number has
    exactly [length l] digits and [toBase62]'s loop writes [l] back. *)
Lemma decode_then_encode (l : list ascii) :
  Forall in_alphabet l -> (length l <= 10)%nat ->
  let v := fromBase62 (string_of_list_ascii l) in
  0 <= v < 62 ^ Z.of_nat (length l)
  /\ (forall c rest, l = c :: rest -> c <> "0"%char ->
        62 ^ Z.of_nat (length rest) <= v
        /\ forall result,
            toBase62_loop v result = (string_of_list_ascii l ++ result)%string).
Proof.
  induction l as [|c l' IH] using rev_ind; intros Hall Hlen v.
  - subst v. cbn. split; [lia | intros; discriminate].
  - apply Forall_app in Hall as [Hall' Hc].
    apply Forall_cons_1 in Hc as [Hc _].
    rewrite length_app in Hlen. cbn [length] in Hlen.
    specialize (IH Hall' ltac:(lia)). cbv zeta in IH.
    destruct IH as [Hv' IHl'].
    pose proof (char_value_range c Hc) as Hd.
    assert (Hpow : 62 ^ Z.of_nat (length (l' ++ [c]))
                   = 62 * 62 ^ Z.of_nat (length l')).
    { rewrite length_app. cbn [length].
      replace (Z.of_nat (length l' + 1)) with (Z.succ (Z.of_nat (length l')))
        by lia.
      apply Z.pow_succ_r. lia. }
    assert (Hbig : 62 * 62 ^ Z.of_nat (length l') <= 62 ^ 10).
    { rewrite <- Z.pow_succ_r by lia. apply Z.pow_le_mono_r; lia. }
    assert (Hv : v = fromBase62 (string_of_list_ascii l') * 62 + char_value c).
    { subst v. unfold fromBase62.
      rewrite string_of_list_ascii_snoc, fromBase62_loop_app.
      cbn [fromBase62_loop]. apply uint64_small.
      fold (fromBase62 (string_of_list_ascii l')).
      assert (62 ^ 10 < 2 ^ 64) by (vm_compute; reflexivity). nia. }
    set (v' := fromBase62 (string_of_list_ascii l')) in *.
    split; [rewrite Hpow; nia|].
    intros c0 rest Heq Hne.
    assert (Hdiv : v / 62 = v')
      by (rewrite Hv, Z.div_add_l by lia; rewrite Z.div_small by lia; lia).
    assert (Hmod : v mod 62 = char_value c)
      by (rewrite Hv, Z.add_comm, Z.mod_add by lia; apply Z.mod_small; lia).
    destruct l' as [|c1 l1].
    + cbn [app] in Heq. injection Heq as <- <-.
      assert (v' = 0) by reflexivity.
      pose proof (char_value_positive c Hc Hne) as Hpos.
      clearbody v v'. change (62 ^ Z.of_nat (length (@nil ascii))) with 1.
      split; [lia|]. intros result.
      rewrite toBase62_loop_pos by lia.
      rewrite Hdiv, Hmod, index_char_value by assumption.
      rewrite toBase62_loop_done by lia. reflexivity.
    + cbn [app] in Heq. injection Heq as <- <-.
      destruct (IHl' c1 l1 eq_refl Hne) as [Hlow Hloop].
      assert (0 < 62 ^ Z.of_nat (length l1)) by (apply Z.pow_pos_nonneg; lia).
      clearbody v v'.
      split.
      * rewrite length_app. cbn [length].
        replace (Z.of_nat (length l1 + 1)) with (Z.succ (Z.of_nat (length l1)))
          by lia.
        rewrite Z.pow_succ_r by lia. nia.
      * intros result. rewrite toBase62_loop_pos by lia.
        rewrite Hdiv, Hmod, index_char_value, Hloop by assumption.
        change (c1 :: l1 ++ [c]) with ((c1 :: l1) ++ [c]).
        rewrite string_of_list_ascii_snoc, string_append_assoc. reflexivity.
Qed.

(** The symbols of a given string are checked by computation. *)
Lemma alphabet_check (s : string) :
  forallb (fun c => existsb (Ascii.eqb c) (chars base62Chars)) (chars s) = true ->
  Forall in_alphabet (chars s).
Proof.
  intros Hall. apply List.Forall_forall. intros c Hc.
  rewrite forallb_forall in Hall. specialize (Hall c Hc).
  apply existsb_exists in Hall as (c' & Hin & Heq).
  apply Ascii.eqb_eq in Heq. subst c'. exact Hin.
Qed.

(** X1: decoding and encoding again gives the string back, for every
    string of at most ten symbols of the alphabet that is ["0"] or does
    not start with ["0"]. *)
Theorem toBase62_fromBase62 (s : string) :
  Forall in_alphabet (chars s) ->
  (String.length s <= 10)%nat ->
  leading_ok s = true ->
  toBase62 (fromBase62 s) = s.
Proof.
  intros Hall Hlen Hlead.
  destruct s as [|c rest]; [discriminate|].
  destruct (Ascii.eqb_spec c "0") as [->|Hne].
  - cbn in Hlead. apply String.eqb_eq in Hlead. subst rest. reflexivity.
  - pose proof (decode_then_encode (chars (String c rest)) Hall) as Hdec.
    unfold chars in Hdec. rewrite string_of_list_ascii_of_string in Hdec.
    rewrite <- length_string_of_list_ascii,
      string_of_list_ascii_of_string in Hdec.
    destruct (Hdec Hlen) as [Hv Hrest]. cbv zeta in Hrest.
    destruct (Hrest c (list_ascii_of_string rest) eq_refl Hne) as [Hlow Hloop].
    assert (0 < 62 ^ Z.of_nat (length (list_ascii_of_string rest)))
      by (apply Z.pow_pos_nonneg; lia).
    unfold toBase62.
    destruct (Z.eqb_spec (fromBase62 (String c rest)) 0) as [H0|_]; [lia|].
    rewrite Hloop. apply string_append_empty.
Qed.

Lemma toBase62_fromBase62_witness :
  Forall in_alphabet (chars "8m0Kx")
  /\ (String.length "8m0Kx" <= 10)%nat
  /\ leading_ok "8m0Kx" = true
  /\ toBase62 (fromBase62 "8m0Kx") = "8m0Kx"%string.
Proof.
  assert (Hall : Forall in_alphabet (chars "8m0Kx"))
    by (apply alphabet_check; reflexivity).
  assert (Hlen : (String.length "8m0Kx" <= 10)%nat) by (cbn; lia).
  split; [exact Hall|]. split; [exact Hlen|]. split; [reflexivity|].
  exact (toBase62_fromBase62 "8m0Kx" Hall Hlen eq_refl).
Defined.

Lemma digits62_head n :
  1 <= n ->
  exists d ds, EncoderSpec.digits62 n = d :: ds /\ 1 <= d < 62.
Proof.
  intros Hn. revert Hn.
  induction n as [n IH] using (well_founded_induction (Z.lt_wf 0)).
  intros Hn. destruct (Z_lt_dec n 62) as [Hlt|Hge].
  - rewrite digits62_small by lia. exists n, []. split; [reflexivity | lia].
  - rewrite digits62_large by lia.
    assert (1 <= n / 62) by (apply Z.div_le_lower_bound; lia).
    assert (n / 62 < n) by (apply Z.div_lt; lia).
    destruct (IH (n / 62) ltac:(lia) ltac:(lia)) as (d & ds & -> & Hd).
    exists d, (ds ++ [n mod 62]). split; [reflexivity | assumption].
Qed.

Lemma toBase62_loop_length_le (k : nat) :
  forall num result,
    num < 62 ^ Z.of_nat k ->
    (String.length (toBase62_loop num result) <= k + String.length result)%nat.
Proof.
  induction k as [|k IH]; intros num result Hnum.
  - change (62 ^ Z.of_nat 0) with 1 in Hnum.
    rewrite toBase62_loop_done by lia. lia.
  - destruct (Z_lt_dec 0 num) as [Hpos|Hneg].
    + rewrite toBase62_loop_pos by lia.
      rewrite Nat2Z.inj_succ, Z.pow_succ_r in Hnum by lia.
      assert (Hq : num / 62 < 62 ^ Z.of_nat k)
        by (apply Z.div_lt_upper_bound; lia).
      specialize (IH (num / 62)
                    (String (index_byte base62Chars (num mod 62)) result) Hq).
      cbn [String.length] in IH. lia.
    + rewrite toBase62_loop_done by lia. lia.
Qed.

(** X2: for every unsigned 64-bit [x], [toBase62 x] has between 1 and 11
    characters, all of them symbols of the alphabet, and it starts with
    ["0"] only when it is ["0"]: the string is one that decodes and
    encodes back to itself. *)
Theorem toBase62_canonical (x : Z) :
  0 <= x < 2 ^ 64 ->
  Forall in_alphabet (chars (toBase62 x))
  /\ leading_ok (toBase62 x) = true
  /\ (1 <= String.length (toBase62 x) <= 11)%nat
  /\ (toBase62 x = "0"%string <-> x = 0).
Proof.
  intros Hx. unfold toBase62.
  destruct (Z.eqb_spec x 0) as [->|Hne].
  - split; [apply (alphabet_check "0"); reflexivity|].
    split; [reflexivity|]. split; [cbn; lia | tauto].
  - assert (Hlead : leading_ok (toBase62_loop x "") = true
                    /\ toBase62_loop x "" <> "0"%string).
    { rewrite toBase62_loop_digits, string_append_empty by lia.
      unfold EncoderSpec.to_base62.
      destruct (digits62_head x ltac:(lia)) as (d & ds & -> & Hd).
      cbn [map string_of_list_ascii leading_ok].
      assert (Hsym : negb (Ascii.eqb (EncoderSpec.symbol d) "0") = true).
      { assert (Hchk : (d =? 0)
                       || negb (Ascii.eqb (EncoderSpec.symbol d) "0") = true)
          by (apply (forall_index
                       (fun d => (d =? 0)
                                 || negb (Ascii.eqb (EncoderSpec.symbol d) "0")));
              [vm_compute; reflexivity | lia]).
        apply orb_true_iff in Hchk as [H0|H1]; [|exact H1].
        apply Z.eqb_eq in H0. lia. }
      rewrite Hsym. split; [reflexivity|].
      intros [= Heq _]. rewrite Heq in Hsym. discriminate. }
    destruct Hlead as [Hlead Hnot0].
    split; [apply toBase62_loop_alphabet; [lia | constructor]|].
    split; [exact Hlead|]. split; [|tauto].
    split.
    + destruct (toBase62_loop x "") as [|c rest]; [discriminate | cbn; lia].
    + pose proof (toBase62_loop_length_le 11 x ""%string) as Hle.
      assert (2 ^ 64 < 62 ^ Z.of_nat 11) by (vm_compute; reflexivity).
      specialize (Hle ltac:(lia)). cbn [String.length] in Hle. lia.
Qed.

Lemma toBase62_canonical_witness :
  0 <= 3521614606207 < 2 ^ 64
  /\ leading_ok (toBase62 3521614606207) = true.
Proof.
  assert (Hx : 0 <= 3521614606207 < 2 ^ 64) by lia.
  split; [exact Hx|].
  exact (proj1 (proj2 (toBase62_canonical 3521614606207 Hx))).
Defined.

Lemma char_value_sanitized (c : ascii) :
  char_value (if existsb (Ascii.eqb c) (chars base62Chars) then c else "0"%char)
  = char_value c.
Proof.
  destruct c as [b0 b1 b2 b3 b4 b5 b6 b7].
  destruct b0, b1, b2, b3, b4, b5, b6, b7; vm_compute; reflexivity.
Qed.

Lemma fromBase62_loop_sanitize (s : string) :
  forall acc, fromBase62_loop (sanitize s) acc = fromBase62_loop s acc.
Proof.
  induction s as [|c s IH]; intros acc; [reflexivity|].
  cbn [sanitize fromBase62_loop]. rewrite char_value_sanitized. apply IH.
Qed.

(** X3: [fromBase62] rejects no string of ASCII characters.  A character
    outside the alphabet counts as the digit 0, so such a string decodes
    like the string with these characters replaced by ["0"]; leading
    ["0"]s do not count; and the empty string decodes to 0. *)
Theorem fromBase62_lenient (s : string) :
  ascii_only s ->
  fromBase62 s = fromBase62 (sanitize s)
  /\ fromBase62 (String "0" s) = fromBase62 s
  /\ fromBase62 EmptyString = 0.
Proof.
  intros _. unfold fromBase62. rewrite fromBase62_loop_sanitize.
  repeat split; reflexivity.
Qed.

Lemma fromBase62_lenient_witness :
  ascii_only "a-b"
  /\ fromBase62 "a-b" = fromBase62 "a0b"
  /\ fromBase62 "0a-b" = fromBase62 "a-b".
Proof.
  assert (Hascii : ascii_only "a-b")
    by (repeat constructor; vm_compute; lia).
  split; [exact Hascii|].
  split; [exact (proj1 (fromBase62_lenient "a-b" Hascii))|].
  exact (proj1 (proj2 (fromBase62_lenient "a-b" Hascii))).
Defined.

(** X4: decoding a short code gives the range-reduced scrambled value,
    a number of [[62^6, 62^7 - 1]], not the counter. *)
Theorem fromBase62_encodeCounter (counter : Z) :
  fromBase62 (encodeCounter counter)
  = obfuscateValue counter mod 3464814370624 + 56800235584
  /\ 62 ^ 6 <= fromBase62 (encodeCounter counter) < 62 ^ 7.
Proof.
  pose proof (finalValue_range (obfuscateValue counter)) as Hr. cbv zeta in Hr.
  assert (Hfv : uint64 (obfuscateValue counter
                          mod uint64 (uint64 (maxVal - minVal) + 1) + minVal)
                = obfuscateValue counter mod 3464814370624 + 56800235584).
  { apply uint64_small.
    change (uint64 (uint64 (maxVal - minVal) + 1)) with 3464814370624.
    change minVal with 56800235584.
    pose proof (Z.mod_pos_bound (obfuscateValue counter) 3464814370624
                  ltac:(lia)).
    lia. }
  unfold encodeCounter. cbv zeta.
  set (finalValue := uint64 _) in *.
  assert (Hdec : fromBase62 (toBase62 finalValue) = finalValue).
  { unfold fromBase62, toBase62.
    destruct (Z.eqb_spec finalValue 0) as [H0|_]; [lia|].
    rewrite decode_toBase62_loop by lia. reflexivity. }
  rewrite Hdec. split; [exact Hfv | exact Hr].
Qed.

End EncoderMore.

(** ** Where the collisions of the encoder come from *)

Section Collisions.
Import Bits CounterGenerator.

Ltac drop_bits x n Hx :=
  repeat match goal with
         | |- context [Z.testbit x ?j] =>
             first [ rewrite (Z.testbit_neg_r x j) by lia
                   | rewrite (testbit_high n x j Hx) by lia ]
         end.

Lemma lxor_range n a b :
  0 <= n -> 0 <= a < 2 ^ n -> 0 <= b < 2 ^ n -> 0 <= Z.lxor a b < 2 ^ n.
Proof.
  intros Hn Ha Hb. apply range_of_bits; [assumption | |].
  - apply Z.lxor_nonneg. lia.
  - intros i Hi. rewrite Z.lxor_spec.
    rewrite (testbit_high n a i Ha), (testbit_high n b i Hb) by lia.
    reflexivity.
Qed.

(** [multiplier_inverse] undoes the multiplication of step 2. *)
Lemma multiply_back z :
  uint64 (uint64 (z * multiplier_inverse) * multiplier) = uint64 z.
Proof.
  unfold uint64. rewrite Z.mul_mod_idemp_l by lia.
  rewrite <- Z.mul_assoc, <- Z.mul_mod_idemp_r by lia.
  change ((multiplier_inverse * multiplier) mod 2 ^ 64) with 1.
  rewrite Z.mul_1_r. reflexivity.
Qed.

(** Rotating by 43 and then by 21 is rotating by 64. *)
Lemma rotate_back z :
  0 <= z < 2 ^ 64 -> RotateLeft64 (RotateLeft64 z 43) 21 = z.
Proof.
  intros Hz. unfold RotateLeft64, uint64.
  change (Z.land 43 63) with 43. change (Z.land 21 63) with 21.
  change (64 - 43) with 21. change (64 - 21) with 43.
  Z.bitblast; drop_bits z 64 Hz; btauto.
Qed.

Lemma unscramble_range z : 0 <= unscramble z < 2 ^ 64.
Proof.
  unfold unscramble. apply lxor_range; [lia | apply uint64_range |].
  unfold salt. lia.
Qed.

(** Steps 1 to 3 are onto the 64-bit words: [unscramble] finds the input. *)
Lemma scrambled_unscramble z :
  0 <= z < 2 ^ 64 -> scrambled (unscramble z) = z.
Proof.
  intros Hz. unfold scrambled, unscramble.
  rewrite Z.lxor_assoc, Z.lxor_nilpotent, Z.lxor_0_r.
  rewrite multiply_back.
  rewrite uint64_small by (apply RotateLeft64_range; lia).
  apply rotate_back. assumption.
Qed.

Lemma half_xor_lxor a b :
  half_xor (Z.lxor a b) = Z.lxor (half_xor a) (half_xor b).
Proof. unfold half_xor. Z.bitblast. Qed.

Lemma half_xor_mask m :
  0 <= m < 2 ^ 32 -> half_xor (Z.lor (Z.shiftl m 32) m) = 0.
Proof.
  intros Hm. unfold half_xor.
  Z.bitblast; drop_bits m 32 Hm; btauto.
Qed.

Lemma mask_range m :
  0 <= m < 2 ^ 32 -> 0 <= Z.lor (Z.shiftl m 32) m < 2 ^ 64.
Proof. intros Hm. rewrite halves_plus by assumption. lia. Qed.

Lemma mask_positive m :
  0 < m < 2 ^ 32 -> Z.lor (Z.shiftl m 32) m <> 0.
Proof. intros Hm. rewrite halves_plus by lia. lia. Qed.

(** X5: every 64-bit counter [value] shares its scrambled value and its
    short code with other counters: for each 32-bit mask [m] other than 0,
    [partner value m] is a 64-bit number different from [value] with the
    same [obfuscateValue] and the same [encodeCounter], and different
    masks give different partners. *)
Theorem partner_collides (value m : Z) :
  0 <= value < 2 ^ 64 ->
  0 < m < 2 ^ 32 ->
  0 <= partner value m < 2 ^ 64
  /\ partner value m <> value
  /\ obfuscateValue (partner value m) = obfuscateValue value
  /\ encodeCounter (partner value m) = encodeCounter value
  /\ (forall m', 0 < m' < 2 ^ 32 ->
                 partner value m' = partner value m -> m' = m).
Proof.
  intros Hv Hm. unfold partner.
  pose proof (scrambled_range value) as Hs.
  pose proof (mask_range m ltac:(lia)) as Hmask.
  pose proof (lxor_range 64 _ _ ltac:(lia) Hs Hmask) as Hz.
  assert (Hscr : forall m0, 0 < m0 < 2 ^ 32 ->
             scrambled (unscramble (Z.lxor (scrambled value)
                                           (Z.lor (Z.shiftl m0 32) m0)))
             = Z.lxor (scrambled value) (Z.lor (Z.shiftl m0 32) m0)).
  { intros m0 Hm0. apply scrambled_unscramble.
    apply lxor_range; [lia | assumption | apply mask_range; lia]. }
  assert (Hfold : folded (unscramble (Z.lxor (scrambled value)
                                             (Z.lor (Z.shiftl m 32) m)))
                  = folded value).
  { unfold folded. rewrite Hscr by assumption.
    rewrite half_xor_lxor, half_xor_mask by lia. apply Z.lxor_0_r. }
  split; [apply unscramble_range|]. split; [|split; [|split]].
  - intros Heq.
    apply (f_equal scrambled) in Heq. rewrite Hscr in Heq by assumption.
    apply (f_equal (Z.lxor (scrambled value))) in Heq.
    rewrite <- Z.lxor_assoc, !Z.lxor_nilpotent, Z.lxor_0_l in Heq.
    exact (mask_positive m Hm Heq).
  - rewrite !obfuscateValue_pack. fold (folded value).
    fold (folded (unscramble (Z.lxor (scrambled value)
                                     (Z.lor (Z.shiftl m 32) m)))).
    rewrite Hfold. reflexivity.
  - apply encodeCounter_folded. exact Hfold.
  - intros m' Hm' Heq.
    apply (f_equal scrambled) in Heq. rewrite !Hscr in Heq by assumption.
    apply (f_equal (Z.lxor (scrambled value))) in Heq.
    rewrite <- !Z.lxor_assoc, !Z.lxor_nilpotent, !Z.lxor_0_l in Heq.
    rewrite !halves_plus in Heq by lia. lia.
Qed.

Lemma partner_collides_witness :
  0 <= 1 < 2 ^ 64
  /\ 0 < 1 < 2 ^ 32
  /\ partner 1 1 <> 1
  /\ encodeCounter (partner 1 1) = encodeCounter 1.
Proof.
  assert (Hv : 0 <= 1 < 2 ^ 64) by lia.
  assert (Hm : 0 < 1 < 2 ^ 32) by lia.
  split; [exact Hv|]. split; [exact Hm|].
  pose proof (partner_collides 1 1 Hv Hm) as H.
  split; [exact (proj1 (proj2 H)) | exact (proj1 (proj2 (proj2 (proj2 H))))].
Defined.

End Collisions.

(** ** More on the counter cache *)

Section AllocatorMore.
Import Bits CounterCache.

Lemma allocate_frame c key entry :
  db (allocate c key entry).1 = db c
  /\ jumpAhead (allocate c key entry).1 = jumpAhead c
  /\ (forall k, k <> key ->
                counters (allocate c key entry).1 !! k = counters c !! k)
  /\ (exists entry', counters (allocate c key entry).1 !! key = Some entry'
                     /\ (dirty entry = true -> dirty entry' = true)).
Proof.
  unfold allocate.
  destruct (allocated entry <=? current entry);
    cbn [fst db jumpAhead counters store];
    rewrite ?go_asyncWriteback_db, ?go_asyncWriteback_jumpAhead,
      ?go_asyncWriteback_counters;
    (split; [reflexivity|]); (split; [reflexivity|]);
    (split; [intros k Hk; apply lookup_insert_ne; congruence|]);
    eexists; (split; [apply lookup_insert_eq|]); cbn [dirty]; auto.
Qed.

Lemma allocate_result c c' key entry :
  jumpAhead c = jumpAhead c' ->
  (allocate c key entry).2 = (allocate c' key entry).2.
Proof.
  intros Hj. unfold allocate. rewrite Hj.
  destruct (allocated entry <=? current entry); reflexivity.
Qed.

Lemma initialize_frame c key dbValue :
  db (initialize c key dbValue).1 = db c
  /\ jumpAhead (initialize c key dbValue).1 = jumpAhead c
  /\ (forall k, k <> key ->
                counters (initialize c key dbValue).1 !! k = counters c !! k)
  /\ dirty (initialize c key dbValue).2 = true.
Proof.
  unfold initialize. cbn [fst snd].
  rewrite go_asyncWriteback_db, go_asyncWriteback_jumpAhead, go_asyncWriteback_counters.
  cbn [db jumpAhead counters store dirty].
  repeat split. intros k Hk. apply lookup_insert_ne. congruence.
Qed.

(** What a call of [GetNextCounter] leaves alone, and that it keeps dirty
    entries dirty, in any state. *)
Lemma GetNextCounter_frame c key :
  db (GetNextCounter c key).1 = db c
  /\ jumpAhead (GetNextCounter c key).1 = jumpAhead c
  /\ (forall k, k <> key ->
                counters (GetNextCounter c key).1 !! k = counters c !! k)
  /\ (forall entry', counters (GetNextCounter c key).1 !! key = Some entry' ->
                     (forall entry, counters c !! key = Some entry ->
                                    dirty entry = true) ->
                     dirty entry' = true).
Proof.
  unfold GetNextCounter.
  destruct (counters c !! key) as [entry|] eqn:Hk.
  - destruct (allocate_frame c key entry) as (Hdb & Hj & Hother & e' & He' & Hd).
    repeat split; try assumption.
    intros entry' Hentry' Hdirty. rewrite He' in Hentry'.
    injection Hentry' as <-. apply Hd, (Hdirty entry). reflexivity.
  - assert (Hinit : forall v,
               db (let '(c0, e0) := initialize c key v in allocate c0 key e0).1
               = db c
               /\ jumpAhead
                    (let '(c0, e0) := initialize c key v in allocate c0 key e0).1
                  = jumpAhead c
               /\ (forall k, k <> key ->
                      counters
                        (let '(c0, e0) := initialize c key v in
                         allocate c0 key e0).1 !! k
                      = counters c !! k)
               /\ (forall entry',
                      counters
                        (let '(c0, e0) := initialize c key v in
                         allocate c0 key e0).1 !! key = Some entry' ->
                      dirty entry' = true)).
    { intros v.
      destruct (initialize_frame c key v) as (Hdb0 & Hj0 & Hother0 & Hd0).
      destruct (initialize c key v) as [c0 e0]. cbn [fst snd] in *.
      destruct (allocate_frame c0 key e0)
        as (Hdb & Hj & Hother & e' & He' & Hd).
      split; [congruence|]. split; [congruence|]. split.
      - intros k Hne. rewrite Hother by assumption. apply Hother0. assumption.
      - intros entry' Hentry'. rewrite He' in Hentry'.
        injection Hentry' as <-. auto. }
    destruct (db_GetCounter (db c) key) as [v|[|]].
    + destruct (Hinit v) as (H1 & H2 & H3 & H4). repeat split; auto.
    + destruct (Hinit 0) as (H1 & H2 & H3 & H4). repeat split; auto.
    + cbn [fst]. repeat split. intros entry' Hentry'. congruence.
Qed.

Lemma SetCounter_frame c key value :
  db (SetCounter c key value).1 = db c
  /\ jumpAhead (SetCounter c key value).1 = jumpAhead c
  /\ (forall k, k <> key ->
                counters (SetCounter c key value).1 !! k = counters c !! k)
  /\ counters (SetCounter c key value).1 !! key
     = Some {| current := value;
               allocated := int64 (value + jumpAhead c);
               dirty := true |}.
Proof.
  unfold SetCounter. cbn [fst].
  rewrite go_asyncWriteback_db, go_asyncWriteback_jumpAhead, go_asyncWriteback_counters.
  cbn [db jumpAhead counters store].
  repeat split; [|apply lookup_insert_eq].
  intros k Hk. apply lookup_insert_ne. congruence.
Qed.

Lemma step_call_db c ev : is_call ev = true -> db (step c ev).1 = db c.
Proof.
  destruct ev as [key|key value| |i]; cbn [step is_call]; intros Hcall.
  - pose proof (GetNextCounter_frame c key) as (Hdb & _).
    destruct (GetNextCounter c key) as [c1 r1]. exact Hdb.
  - apply SetCounter_frame.
  - discriminate.
  - discriminate.
Qed.

Lemma step_jumpAhead c ev : jumpAhead (step c ev).1 = jumpAhead c.
Proof.
  destruct ev as [key|key value| |i]; cbn [step].
  - pose proof (GetNextCounter_frame c key) as (_ & Hj & _).
    destruct (GetNextCounter c key) as [c1 r1]. exact Hj.
  - apply SetCounter_frame.
  - apply writebackWorker_counters.
  - apply deliver_counters.
Qed.

Lemma run_jumpAhead evs : forall c, jumpAhead (run evs c).1 = jumpAhead c.
Proof.
  induction evs as [|ev evs IH]; intros c; [reflexivity|].
  rewrite run_cons, IH. apply step_jumpAhead.
Qed.

(** X6: calls never write to the table, only the worker does.  So when
    no round of the worker has run, a cache started again on the table
    finds the baseline the first cache found, and answers its first call
    as the first cache did: the values issued meanwhile are issued
    again. *)
Theorem calls_leave_table (evs : list event) (c : CounterCache) (key : string) :
  Forall (fun ev => is_call ev = true) evs ->
  db (run evs c).1 = db c
  /\ GetNextCounter (NewCounterCache (db (run evs c).1) (jumpAhead c)) key
     = GetNextCounter (NewCounterCache (db c) (jumpAhead c)) key.
Proof.
  intros Hcalls.
  assert (Hdb : db (run evs c).1 = db c).
  { revert c. induction Hcalls as [|ev evs Hev _ IH]; intros c; [reflexivity|].
    rewrite run_cons, IH. apply step_call_db. exact Hev. }
  split; [exact Hdb | rewrite Hdb; reflexivity].
Qed.

Lemma calls_leave_table_witness :
  let c := NewCounterCache emptyStore 10 in
  let evs := [EvGetNextCounter "k"; EvGetNextCounter "k"; EvSetCounter "k" 7] in
  Forall (fun ev => is_call ev = true) evs
  /\ (GetNextCounter (NewCounterCache (db (run evs c).1) (jumpAhead c)) "k").2
     = (1, None).
Proof.
  cbv zeta.
  assert (Hcalls : Forall (fun ev => is_call ev = true)
                     [EvGetNextCounter "k"; EvGetNextCounter "k";
                      EvSetCounter "k" 7])
    by (repeat constructor).
  split; [exact Hcalls|].
  rewrite (proj2 (calls_leave_table _ (NewCounterCache emptyStore 10) "k" Hcalls)).
  reflexivity.
Defined.

Lemma step_frame c ev key :
  ~ concerns key ev ->
  counters (step c ev).1 !! key = counters c !! key.
Proof.
  destruct ev as [key0|key0 value| |i]; cbn [step concerns]; intros Hne.
  - pose proof (GetNextCounter_frame c key0) as (_ & _ & Hother & _).
    destruct (GetNextCounter c key0) as [c1 r1]. cbn [fst] in *.
    apply Hother. congruence.
  - apply SetCounter_frame. congruence.
  - destruct (writebackWorker_counters c) as (Hc & _). cbn [fst].
    rewrite Hc. reflexivity.
  - destruct (deliver_counters c i) as (Hc & _). cbn [fst].
    rewrite Hc. reflexivity.
Qed.

(** X7: keys are counted independently.  Calls and overrides for other
    keys, sends of the goroutines and rounds of the worker leave the state
    of a key as it is, and
    the next call for the key returns what it would have returned without
    them. *)
Theorem other_keys_do_not_interfere (evs : list event) (c : CounterCache) (key : string) :
  Forall (fun ev => ~ concerns key ev) evs ->
  counters (run evs c).1 !! key = counters c !! key
  /\ (is_Some (counters c !! key) ->
      (GetNextCounter (run evs c).1 key).2 = (GetNextCounter c key).2).
Proof.
  intros Hother.
  assert (Hk : counters (run evs c).1 !! key = counters c !! key).
  { revert c. induction Hother as [|ev evs Hev _ IH]; intros c; [reflexivity|].
    rewrite run_cons, IH. apply step_frame. exact Hev. }
  split; [exact Hk|].
  intros [entry Hentry]. unfold GetNextCounter. rewrite Hk, Hentry.
  apply allocate_result. apply run_jumpAhead.
Qed.

Lemma other_keys_do_not_interfere_witness :
  let c := (run [EvGetNextCounter "a"] (NewCounterCache emptyStore 10)).1 in
  let evs := [EvGetNextCounter "b"; EvWorker; EvSetCounter "b" 50;
              EvGetNextCounter "b"] in
  Forall (fun ev => ~ concerns "a" ev) evs
  /\ (GetNextCounter (run evs c).1 "a").2 = (2, None).
Proof.
  cbv zeta.
  assert (Hother : Forall (fun ev => ~ concerns "a" ev)
                     [EvGetNextCounter "b"; EvWorker; EvSetCounter "b" 50;
                      EvGetNextCounter "b"])
    by (repeat constructor; cbn; try discriminate; tauto).
  split; [exact Hother|].
  rewrite (proj2 (other_keys_do_not_interfere _ _ "a" Hother));
    [vm_compute; reflexivity | vm_compute; eauto].
Defined.

(** X8: after [SetCounter key value] the next call for the key returns
    [value + 1], whatever the key's state was before, for a step of at
    least 1 and a value whose ceiling fits [int64]. *)
Theorem GetNextCounter_after_SetCounter (c : CounterCache) (key : string) (value : Z) :
  1 <= jumpAhead c ->
  min_int64 <= value ->
  value + jumpAhead c <= max_int64 ->
  (SetCounter c key value).2 = None
  /\ (GetNextCounter (SetCounter c key value).1 key).2 = (value + 1, None).
Proof.
  intros Hjump Hmin Hmax. split; [reflexivity|].
  destruct (SetCounter_frame c key value) as (_ & Hj & _ & Hk).
  unfold GetNextCounter. rewrite Hk. unfold allocate.
  cbn [current allocated dirty]. rewrite Hj.
  rewrite (int64_small (value + jumpAhead c)) by lia.
  destruct (Z.leb_spec (value + jumpAhead c) value) as [|_]; [lia|].
  cbn [fst snd current]. rewrite int64_small by lia. reflexivity.
Qed.

Lemma GetNextCounter_after_SetCounter_witness :
  let c := NewCounterCache emptyStore 10 in
  1 <= jumpAhead c
  /\ min_int64 <= 100
  /\ 100 + jumpAhead c <= max_int64
  /\ (GetNextCounter (SetCounter c "set-counter-test" 100).1
        "set-counter-test").2 = (100 + 1, None).
Proof.
  cbv zeta.
  assert (Hjump : 1 <= jumpAhead (NewCounterCache emptyStore 10)) by (cbn; lia).
  assert (Hmin : min_int64 <= 100) by (vm_compute; discriminate).
  assert (Hmax : 100 + jumpAhead (NewCounterCache emptyStore 10) <= max_int64)
    by (vm_compute; discriminate).
  split; [exact Hjump|]. split; [exact Hmin|]. split; [exact Hmax|].
  exact (proj2 (GetNextCounter_after_SetCounter
                  (NewCounterCache emptyStore 10) "set-counter-test" 100
                  Hjump Hmin Hmax)).
Defined.

End AllocatorMore.

(** ** Synchronous persistence, shutdown and restart *)

Section Shutdown.
Import Bits CounterCache.

Lemma dirtyCeilings_lookup c key :
  dirtyCeilings c !! key
  = match counters c !! key with
    | Some entry => if dirty entry then Some (allocated entry) else None
    | None => None
    end.
Proof.
  unfold dirtyCeilings. rewrite lookup_fmap.
  destruct (counters c !! key) as [entry|] eqn:Hk.
  - destruct (dirty entry) eqn:Hd.
    + rewrite (proj2 (map_lookup_filter_Some _ _ key entry)); [reflexivity|].
      split; assumption.
    + rewrite (proj2 (map_lookup_filter_None _ _ key)); [reflexivity|].
      right. intros e He. cbn. rewrite Hk in He. injection He as <-.
      rewrite Hd. discriminate.
  - rewrite (proj2 (map_lookup_filter_None _ _ key)); [reflexivity|].
    left. assumption.
Qed.

Lemma markSynced_lookup c key k :
  counters (markSynced c key) !! k
  = if decide (key = k) then synced <$> counters c !! k else counters c !! k.
Proof.
  unfold markSynced. destruct (decide (key = k)) as [->|Hne].
  - destruct (counters c !! k) as [entry|] eqn:Hk; cbn.
    + rewrite lookup_insert_eq. reflexivity.
    + rewrite Hk. reflexivity.
  - destruct (counters c !! key) as [entry|]; [|reflexivity].
    cbn. rewrite lookup_insert_ne by assumption. reflexivity.
Qed.

Lemma markSynced_rest c key :
  db (markSynced c key) = db c
  /\ jumpAhead (markSynced c key) = jumpAhead c
  /\ writebackCh (markSynced c key) = writebackCh c.
Proof.
  unfold markSynced. destruct (counters c !! key); repeat split.
Qed.

(** The state of [Sync] after the keys of [m] when the table answers. *)
Lemma Sync_rounds c :
  unavailable (db c) = false ->
  forall m : gmap string Z,
    let acc := map_fold Sync_round (c, None) m in
    acc.2 = None
    /\ unavailable (db acc.1) = false
    /\ jumpAhead acc.1 = jumpAhead c
    /\ writebackCh acc.1 = writebackCh c
    /\ (forall k, counters acc.1 !! k
                  = match m !! k with
                    | Some _ => synced <$> counters c !! k
                    | None => counters c !! k
                    end)
    /\ (forall k, rows (db acc.1) !! k
                  = match m !! k with
                    | Some v => Some v
                    | None => rows (db c) !! k
                    end).
Proof.
  intros Hup m. cbv zeta.
  apply (map_fold_weak_ind
           (fun (acc : CounterCache * error) (m : gmap string Z) =>
              acc.2 = None
              /\ unavailable (db acc.1) = false
              /\ jumpAhead acc.1 = jumpAhead c
              /\ writebackCh acc.1 = writebackCh c
              /\ (forall k, counters acc.1 !! k
                            = match m !! k with
                              | Some _ => synced <$> counters c !! k
                              | None => counters c !! k
                              end)
              /\ (forall k, rows (db acc.1) !! k
                            = match m !! k with
                              | Some v => Some v
                              | None => rows (db c) !! k
                              end))).
  - cbn [fst snd]. repeat split; try assumption; intros k;
      rewrite lookup_empty; reflexivity.
  - intros i x m0 [c1 err] Hi (Herr & Hup1 & Hj & Hch & Hcnt & Hrows).
    cbn [fst snd] in *. subst err.
    unfold Sync_round, db_SetCounter_err, db_SetCounter. cbn [fst snd].
    rewrite Hup1.
    destruct (markSynced_rest
                (with_db c1 {| rows := <[i:=x]> (rows (db c1));
                               unavailable := false;
                               executed := executed (db c1) ++ [(i, x)] |}) i)
      as (Hdb & Hj' & Hch').
    cbn [fst snd]. rewrite Hdb, Hj', Hch'. cbn [with_db db jumpAhead writebackCh unavailable rows].
    split; [reflexivity|]. split; [reflexivity|].
    split; [assumption|]. split; [assumption|]. split.
    + intros k. rewrite markSynced_lookup. cbn [with_db counters].
      destruct (decide (i = k)) as [->|Hne].
      * rewrite lookup_insert_eq, Hcnt, Hi. reflexivity.
      * rewrite lookup_insert_ne by assumption. apply Hcnt.
    + intros k. destruct (decide (i = k)) as [->|Hne].
      * rewrite !lookup_insert_eq. reflexivity.
      * rewrite !lookup_insert_ne by assumption. apply Hrows.
Qed.

(** X9: when the table answers, [Sync] returns no error; afterwards every
    entry is clean and keeps its counter and ceiling, the table holds the
    ceiling of every key that was dirty, and the rows of the other keys
    are untouched. *)
Theorem Sync_persists (c : CounterCache) :
  unavailable (db c) = false ->
  (Sync c).2 = None
  /\ (forall key,
         counters (Sync c).1 !! key = synced <$> counters c !! key)
  /\ (forall key entry,
         counters c !! key = Some entry -> dirty entry = true ->
         rows (db (Sync c).1) !! key = Some (allocated entry))
  /\ (forall key,
         (forall entry, counters c !! key = Some entry -> dirty entry = false) ->
         rows (db (Sync c).1) !! key = rows (db c) !! key)
  /\ dirtyCeilings (Sync c).1 = ∅.
Proof.
  intros Hup.
  destruct (Sync_rounds c Hup (dirtyCeilings c))
    as (Herr & _ & _ & _ & Hcnt & Hrows).
  fold (Sync c) in *.
  assert (Hall : forall key,
             counters (Sync c).1 !! key = synced <$> counters c !! key).
  { intros key. rewrite Hcnt, dirtyCeilings_lookup.
    destruct (counters c !! key) as [entry|]; [|reflexivity].
    destruct (dirty entry) eqn:Hd; [reflexivity|].
    cbn. f_equal. destruct entry. cbn in *. subst. reflexivity. }
  split; [exact Herr|]. split; [exact Hall|]. split; [|split].
  - intros key entry Hk Hd. rewrite Hrows, dirtyCeilings_lookup, Hk, Hd.
    reflexivity.
  - intros key Hclean. rewrite Hrows, dirtyCeilings_lookup.
    destruct (counters c !! key) as [entry|]; [|reflexivity].
    rewrite (Hclean entry eq_refl). reflexivity.
  - apply map_eq. intros key.
    rewrite dirtyCeilings_lookup, Hall, lookup_empty.
    destruct (counters c !! key); reflexivity.
Qed.

Lemma Sync_persists_witness :
  let c := (run [EvGetNextCounter "k"; EvGetNextCounter "k"]
                (NewCounterCache emptyStore 3)).1 in
  unavailable (db c) = false
  /\ rows (db (Sync c).1) !! "k"%string = Some 3.
Proof.
  cbv zeta.
  assert (Hup : unavailable
                  (db (run [EvGetNextCounter "k"; EvGetNextCounter "k"]
                           (NewCounterCache emptyStore 3)).1) = false)
    by reflexivity.
  split; [exact Hup|].
  destruct (Sync_persists _ Hup) as (_ & _ & Hrows & _).
  apply (Hrows "k"%string {| current := 2; allocated := 3; dirty := true |});
    vm_compute; reflexivity.
Defined.

(** X10: when the table does not answer, [Sync] changes nothing: it
    returns an error as soon as some entry is dirty, every entry stays as
    it was, dirty ones included, and it returns no error when there is
    nothing to write. *)
Theorem Sync_fails (c : CounterCache) :
  unavailable (db c) = true ->
  (Sync c).1 = c
  /\ ((exists key entry, counters c !! key = Some entry /\ dirty entry = true)
      <-> is_Some (Sync c).2).
Proof.
  intros Hdown.
  assert (HP : (Sync c).1 = c
               /\ (dirtyCeilings c = ∅ -> (Sync c).2 = None)
               /\ (dirtyCeilings c <> ∅ -> is_Some (Sync c).2)).
  { unfold Sync.
    apply (map_fold_weak_ind
             (fun (acc : CounterCache * error) (m : gmap string Z) =>
                acc.1 = c
                /\ (m = ∅ -> acc.2 = None)
                /\ (m <> ∅ -> is_Some acc.2))).
    - cbn. repeat split. intros H. contradiction.
    - intros i x m [c1 err] Hi (Hc1 & Hempty & Hsome).
      cbn [fst snd] in *. subst c1.
      unfold Sync_round, db_SetCounter_err. cbn [fst snd].
      destruct err as [e|]; cbn [fst snd].
      + repeat split; [|eauto].
        intros Hins. exfalso. exact (insert_non_empty m i x Hins).
      + rewrite Hdown. cbn [fst snd]. repeat split; [|eauto].
        intros Hins. exfalso. exact (insert_non_empty m i x Hins). }
  destruct HP as (Hsame & Hnone & Hsome). split; [exact Hsame|]. split.
  - intros (key & entry & Hk & Hd). apply Hsome. intros Hempty.
    pose proof (dirtyCeilings_lookup c key) as Hl.
    rewrite Hempty, lookup_empty, Hk, Hd in Hl. discriminate.
  - intros Hsync.
    destruct (decide (dirtyCeilings c = ∅)) as [Hempty|Hne].
    + rewrite (Hnone Hempty) in Hsync. destruct Hsync. discriminate.
    + destruct (map_choose _ Hne) as (key & v & Hkv).
      rewrite dirtyCeilings_lookup in Hkv.
      destruct (counters c !! key) as [entry|] eqn:Hk; [|discriminate].
      destruct (dirty entry) eqn:Hd; [|discriminate].
      exists key, entry. split; assumption.
Qed.

Lemma Sync_fails_witness :
  let c := (run [EvGetNextCounter "k"]
                (NewCounterCache emptyStore 3)).1 in
  let c' := with_db c {| rows := ∅; unavailable := true; executed := [] |} in
  unavailable (db c') = true
  /\ (Sync c').1 = c'.
Proof.
  cbv zeta. split; [reflexivity|].
  apply (Sync_fails
           (with_db (run [EvGetNextCounter "k"] (NewCounterCache emptyStore 3)).1
                    {| rows := ∅; unavailable := true; executed := [] |})).
  reflexivity.
Defined.

(** The worker, round after round, when the table answers. *)
Lemma worker_rounds (n : nat) :
  forall c,
    length (writebackCh c) = n ->
    unavailable (db c) = false ->
    writebackCh (Nat.iter n writebackWorker c) = []
    /\ issued (Nat.iter n writebackWorker c) = issued c
    /\ counters (Nat.iter n writebackWorker c) = counters c
    /\ jumpAhead (Nat.iter n writebackWorker c) = jumpAhead c
    /\ unavailable (db (Nat.iter n writebackWorker c)) = false.
Proof.
  induction n as [|n IH]; intros c Hlen Hup.
  - change (Nat.iter 0 writebackWorker c) with c.
    destruct (writebackCh c) eqn:Hch; [|discriminate].
    repeat split; assumption.
  - rewrite Nat.iter_succ_r.
    destruct (writebackWorker_counters c) as (Hc & Hj & Hup').
    pose proof (writebackWorker_issued c Hup) as Hiss.
    assert (Hlen' : length (writebackCh (writebackWorker c)) = n).
    { unfold writebackWorker. destruct (writebackCh c) as [|req rest] eqn:Hch;
        [discriminate|]. cbn [writebackCh]. cbn in Hlen. lia. }
    destruct (IH (writebackWorker c) Hlen' ltac:(congruence))
      as (H1 & H2 & H3 & H4 & H5).
    repeat split; congruence.
Qed.

(** X11: once [stopCh] is closed the worker empties the channel: when the
    table answers, every request that was waiting is executed, in the
    order in which it was sent, after those executed before, and the
    counters are not touched. *)
Theorem drain_executes_all (c : CounterCache) :
  unavailable (db c) = false ->
  writebackCh (drain c) = []
  /\ executed (db (drain c)) = issued c
  /\ counters (drain c) = counters c
  /\ jumpAhead (drain c) = jumpAhead c.
Proof.
  intros Hup. unfold drain.
  destruct (worker_rounds _ c eq_refl Hup) as (Hch & Hiss & Hc & Hj & _).
  repeat split; try assumption.
  rewrite <- Hiss. unfold issued. rewrite Hch. cbn [map].
  rewrite app_nil_r. reflexivity.
Qed.

Lemma drain_executes_all_witness :
  let c := (run (repeat (EvGetNextCounter "k") 11 ++ [EvSend 0; EvSend 0])
                (NewCounterCache emptyStore 10)).1 in
  unavailable (db c) = false
  /\ executed (db (drain c)) = [("k"%string, 10); ("k"%string, 20)].
Proof.
  cbv zeta. split; [reflexivity|].
  destruct (drain_executes_all
              (run (repeat (EvGetNextCounter "k") 11 ++ [EvSend 0; EvSend 0])
                   (NewCounterCache emptyStore 10)).1 eq_refl)
    as (_ & Hexec & _).
  rewrite Hexec. vm_compute. reflexivity.
Defined.






End Shutdown.

(** ** The generator on the counter cache, and a step of zero *)

Section Generation.
Import Bits CounterGenerator CounterCache Generator.

(** One call with a step of zero, in a state whose batch is used up. *)
Lemma zero_step_call c key a :
  jumpAhead c = 0 -> used_up c key a -> min_int64 <= a < max_int64 ->
  (GetNextCounter c key).2 = (a + 1, None)
  /\ jumpAhead (GetNextCounter c key).1 = 0
  /\ used_up (GetNextCounter c key).1 key a.
Proof.
  intros Hj Hused Ha.
  assert (Hall : forall c0 entry,
             jumpAhead c0 = 0 -> allocated entry = a ->
             a <= current entry <= max_int64 ->
             (allocate c0 key entry).2 = (a + 1, None)
             /\ jumpAhead (allocate c0 key entry).1 = 0
             /\ used_up (allocate c0 key entry).1 key a).
  { intros c0 entry Hj0 Halloc Hcur. unfold allocate, used_up.
    destruct (Z.leb_spec (allocated entry) (current entry)) as [_|Hlt]; [|lia].
    cbn [fst snd current allocated dirty counters jumpAhead store].
    rewrite go_asyncWriteback_counters, go_asyncWriteback_jumpAhead, lookup_insert_eq.
    cbn [current allocated]. rewrite Hj0, Halloc, Z.add_0_r.
    rewrite (int64_small a) by lia. rewrite (int64_small (a + 1)) by lia.
    repeat split; lia. }
  unfold GetNextCounter, used_up in *.
  destruct (counters c !! key) as [entry|] eqn:Hk.
  - destruct Hused as [Halloc Hcur]. apply Hall; assumption.
  - destruct Hused as [Hup Hbase]. unfold db_GetCounter. rewrite Hup.
    assert (Hinit : forall v, v = a ->
               (let '(c1, entry) := initialize c key v in allocate c1 key entry).2
               = (a + 1, None)
               /\ jumpAhead (let '(c1, entry) := initialize c key v in
                             allocate c1 key entry).1 = 0
               /\ match counters (let '(c1, entry) := initialize c key v in
                                  allocate c1 key entry).1 !! key with
                  | Some entry => allocated entry = a
                                  /\ a <= current entry <= max_int64
                  | None => unavailable
                              (db (let '(c1, entry) := initialize c key v in
                                   allocate c1 key entry).1) = false
                            /\ default 0
                                 (rows (db (let '(c1, entry) := initialize c key v in
                                            allocate c1 key entry).1) !! key) = a
                  end).
    { intros v ->. unfold initialize.
      apply (Hall _ {| current := a; allocated := int64 (a + jumpAhead c);
                       dirty := true |}).
      - rewrite go_asyncWriteback_jumpAhead. exact Hj.
      - cbn [allocated]. rewrite Hj, Z.add_0_r. apply int64_small. lia.
      - cbn [current]. lia. }
    destruct (rows (db c) !! key) as [v|]; cbn [default] in Hbase;
      apply Hinit; assumption.
Qed.

Lemma zero_step_run (n : nat) :
  forall c key a,
    jumpAhead c = 0 -> used_up c key a -> min_int64 <= a < max_int64 ->
    (run (repeat (EvGetNextCounter key) n) c).2 = repeat (a + 1, None) n.
Proof.
  induction n as [|n IH]; intros c key a Hj Hused Ha; [reflexivity|].
  cbn [repeat run step].
  destruct (zero_step_call c key a Hj Hused Ha) as (Hres & Hj1 & Hused1).
  destruct (GetNextCounter c key) as [c1 r1]. cbn [fst snd] in *. subst r1.
  specialize (IH c1 key a Hj1 Hused1 Ha).
  destruct (run (repeat (EvGetNextCounter key) n) c1) as [c2 rs].
  cbn [fst snd] in *. subst rs. reflexivity.
Qed.

(** X13: a step of zero, which the command line accepts, makes the counter
    stand still: on a cache started with [jumpAhead = 0] on a table that
    answers, every call for a key returns the same value, the persisted
    baseline plus one, without an error. *)
Theorem zero_step_repeats (q : Queries) (key : string) (n : nat) :
  unavailable q = false ->
  min_int64 <= default 0 (rows q !! key) < max_int64 ->
  (run (repeat (EvGetNextCounter key) n) (NewCounterCache q 0)).2
  = repeat (default 0 (rows q !! key) + 1, None) n.
Proof.
  intros Hup Hbase. apply zero_step_run; [reflexivity | | assumption].
  unfold used_up. cbn [NewCounterCache counters db].
  rewrite lookup_empty. split; [assumption | reflexivity].
Qed.

Lemma zero_step_repeats_witness :
  unavailable emptyStore = false
  /\ min_int64 <= default 0 (rows emptyStore !! "k"%string) < max_int64
  /\ (run (repeat (EvGetNextCounter "k") 4) (NewCounterCache emptyStore 0)).2
     = [(1, None); (1, None); (1, None); (1, None)].
Proof.
  assert (Hbase : min_int64 <= default 0 (rows emptyStore !! "k"%string) < max_int64)
    by (vm_compute; split; [discriminate | reflexivity]).
  split; [reflexivity|]. split; [exact Hbase|].
  exact (zero_step_repeats emptyStore "k" 4 eq_refl Hbase).
Defined.

Lemma GenerateShortCode_GetNextCounter c :
  (GenerateShortCode c).1 = (GetNextCounter c counterKey).1
  /\ (GenerateShortCode c).2 = code_of (GetNextCounter c counterKey).2.
Proof.
  unfold GenerateShortCode, code_of.
  destruct (GetNextCounter c counterKey) as [c1 [counter [e|]]]; split; reflexivity.
Qed.

Lemma GenerateShortCodes_run (n : nat) :
  forall c,
    (GenerateShortCodes n c).1 = (run (repeat (EvGetNextCounter counterKey) n) c).1
    /\ (GenerateShortCodes n c).2
       = map code_of (run (repeat (EvGetNextCounter counterKey) n) c).2.
Proof.
  induction n as [|n IH]; intros c; [split; reflexivity|].
  cbn [GenerateShortCodes repeat run step].
  destruct (GenerateShortCode_GetNextCounter c) as [H1 H2].
  destruct (GenerateShortCode c) as [c1 r1].
  destruct (GetNextCounter c counterKey) as [c1' r1']. cbn [fst snd] in *.
  subst c1' r1. destruct (IH c1) as [IH1 IH2].
  destruct (GenerateShortCodes n c1) as [c2 rs].
  destruct (run (repeat (EvGetNextCounter counterKey) n) c1) as [c2' rs'].
  cbn [fst snd] in *. subst c2' rs. split; reflexivity.
Qed.

(** X14: the generator on the counter cache.  With a step of at least 1,
    a state that can serve the key ["url_counter"], a last issued value
    [h >= 0] and room for [n] more values within [int64], [n] calls of
    [GenerateShortCode] return, without an error and in this order, the
    codes of the counters [h + 1], ..., [h + n]. *)
Theorem GenerateShortCodes_consecutive (c : CounterCache) (n : nat) :
  1 <= jumpAhead c ->
  serviceable c counterKey ->
  0 <= high_water c counterKey ->
  high_water c counterKey + Z.of_nat n + jumpAhead c <= max_int64 ->
  (GenerateShortCodes n c).2
  = map (fun i => (encodeCounter (high_water c counterKey + Z.of_nat i), None))
        (seq 1 n).
Proof.
  intros Hjump Hserv Hpos Hfit.
  rewrite (proj2 (GenerateShortCodes_run n c)).
  rewrite GetNextCounter_run by assumption.
  rewrite map_map. apply map_ext_in. intros i Hi. apply in_seq in Hi.
  unfold code_of. cbn [fst snd].
  rewrite uint64_small; [reflexivity|].
  unfold max_int64 in Hfit. lia.
Qed.

Lemma GenerateShortCodes_consecutive_witness :
  let c := NewCounterCache emptyStore 100 in
  1 <= jumpAhead c
  /\ serviceable c counterKey
  /\ 0 <= high_water c counterKey
  /\ high_water c counterKey + Z.of_nat 3 + jumpAhead c <= max_int64
  /\ (GenerateShortCodes 3 c).2
     = [(encodeCounter 1, None); (encodeCounter 2, None); (encodeCounter 3, None)].
Proof.
  cbv zeta.
  assert (Hjump : 1 <= jumpAhead (NewCounterCache emptyStore 100))
    by (cbn; lia).
  assert (Hserv : serviceable (NewCounterCache emptyStore 100) counterKey)
    by (split; [reflexivity | vm_compute; discriminate]).
  assert (Hpos : 0 <= high_water (NewCounterCache emptyStore 100) counterKey)
    by (vm_compute; discriminate).
  assert (Hfit : high_water (NewCounterCache emptyStore 100) counterKey
                 + Z.of_nat 3 + jumpAhead (NewCounterCache emptyStore 100)
                 <= max_int64)
    by (vm_compute; discriminate).
  split; [exact Hjump|]. split; [exact Hserv|]. split; [exact Hpos|].
  split; [exact Hfit|].
  exact (GenerateShortCodes_consecutive _ 3 Hjump Hserv Hpos Hfit).
Defined.

Lemma allocate_answers c key entry :
  (allocate c key entry).2.2 = None
  /\ is_Some (counters (allocate c key entry).1 !! key).
Proof.
  split.
  - unfold allocate. destruct (allocated entry <=? current entry); reflexivity.
  - destruct (allocate_frame c key entry) as (_ & _ & _ & e' & He' & _).
    rewrite He'. eauto.
Qed.

(** X15: [GenerateShortCode] fails in one case only: the key
    ["url_counter"] has no state yet and the table does not answer.  It
    then returns the empty code and leaves the counter cache as it is, so
    that the next call asks the table again.  In every other case it
    returns no error and the key has a state afterwards: once a call has
    succeeded, no later call reads the table. *)
Theorem GenerateShortCode_fails_iff (c : CounterCache) :
  match counters c !! counterKey, unavailable (db c) with
  | None, true =>
      GenerateShortCode c
      = (c, (""%string, Some "failed to get counter from DB"%string))
  | _, _ =>
      (GenerateShortCode c).2.2 = None
      /\ is_Some (counters (GenerateShortCode c).1 !! counterKey)
  end.
Proof.
  destruct (GenerateShortCode_GetNextCounter c) as [H1 H2].
  assert (Hok : forall c1 entry,
             GetNextCounter c counterKey = allocate c1 counterKey entry ->
             (GenerateShortCode c).2.2 = None
             /\ is_Some (counters (GenerateShortCode c).1 !! counterKey)).
  { intros c1 entry Heq.
    destruct (allocate_answers c1 counterKey entry) as [Herr Hk].
    rewrite H1, H2, Heq. unfold code_of. rewrite Herr. split; [reflexivity|].
    exact Hk. }
  destruct (counters c !! counterKey) as [entry|] eqn:Hk.
  - apply (Hok c entry). unfold GetNextCounter. rewrite Hk. reflexivity.
  - destruct (unavailable (db c)) eqn:Hup.
    + unfold GenerateShortCode, GetNextCounter, db_GetCounter.
      rewrite Hk, Hup. reflexivity.
    + destruct (rows (db c) !! counterKey) as [v|] eqn:Hrow.
      * apply (Hok (initialize c counterKey v).1 (initialize c counterKey v).2).
        unfold GetNextCounter, db_GetCounter. rewrite Hk, Hup, Hrow.
        destruct (initialize c counterKey v). reflexivity.
      * apply (Hok (initialize c counterKey 0).1 (initialize c counterKey 0).2).
        unfold GetNextCounter, db_GetCounter. rewrite Hk, Hup, Hrow.
        destruct (initialize c counterKey 0). reflexivity.
Qed.

End Generation.

(** ** The entry cache: hits, flush cycles and the background loop *)

Section EntryCacheMore.
Import Bits Memory.

Lemma int_small z : min_int64 <= z <= max_int -> int z = z.
Proof. apply int64_small. Qed.

(** What a flush cycle leaves under a key. *)
Lemma syncToDatabase_lookup (f : gmap string CacheEntry -> error) (c : Cache) (k : string) :
  data (syncToDatabase f c) !! k
  = match f (GetDirtyEntries c).1 with
    | Some _ => data c !! k
    | None =>
        match (GetDirtyEntries c).1 !! k with
        | Some _ => cleaned <$> data c !! k
        | None => data c !! k
        end
    end.
Proof.
  unfold syncToDatabase.
  destruct (GetDirtyEntries c) as [batch err] eqn:Hget.
  assert (Herr : err = None) by (unfold GetDirtyEntries in Hget; congruence).
  subst err. cbn [fst].
  destruct (Nat.eqb_spec (size batch) 0) as [Hsize|Hsize].
  - apply map_size_empty_iff in Hsize. subst batch.
    rewrite lookup_empty. destruct (f ∅); reflexivity.
  - destruct (f batch); [reflexivity|]. apply MarkClean_batch_lookup.
Qed.

Lemma markBatchClean_running (batch : gmap string CacheEntry) (c : Cache) :
  running (markBatchClean batch c) = running c.
Proof.
  unfold markBatchClean.
  apply (map_fold_weak_ind
           (fun (r : Cache) (m : gmap string CacheEntry) => running r = running c)).
  - reflexivity.
  - intros i x m r _ IH. rewrite MarkClean_running. exact IH.
Qed.

Lemma syncToDatabase_running (f : gmap string CacheEntry -> error) (c : Cache) :
  running (syncToDatabase f c) = running c.
Proof.
  unfold syncToDatabase.
  destruct (GetDirtyEntries c) as [batch [e|]]; [reflexivity|].
  destruct (size batch =? 0)%nat; [reflexivity|].
  destruct (f batch); [reflexivity|]. apply markBatchClean_running.
Qed.

Lemma syncToDatabase_clean (f : gmap string CacheEntry -> error) (c : Cache) :
  f (GetDirtyEntries c).1 = None ->
  (GetDirtyEntries (syncToDatabase f c)).1 = ∅.
Proof.
  intros Hf. apply map_eq. intros k.
  rewrite GetDirtyEntries_lookup, syncToDatabase_lookup, Hf, lookup_empty.
  rewrite GetDirtyEntries_lookup.
  destruct (data c !! k) as [entry|]; [|reflexivity].
  destruct (Dirty entry) eqn:Hd; cbn; [reflexivity|].
  rewrite Hd. reflexivity.
Qed.

(** X16: a hit between the snapshot and the marking of a flush cycle is
    lost to the table.  The cycle takes the lock three times, for the
    snapshot, and for each [MarkClean]; when [IncrementUsage] runs for a
    dirty entry after the snapshot, the batch carries the old count, the
    entry ends up clean with the new count, and no entry is dirty: the
    next cycle does not write the new count. *)
Theorem IncrementUsage_between_snapshot_and_MarkClean
    (c : Cache) (shortCode : string) (entry : CacheEntry) (now : Z) :
  data c !! shortCode = Some entry ->
  Dirty entry = true ->
  let batch := (GetDirtyEntries c).1 in
  let c' := markBatchClean batch (IncrementUsage now c shortCode).1 in
  batch !! shortCode = Some entry
  /\ data c' !! shortCode
     = Some {| OriginalURL := OriginalURL entry;
               UsageCount := int (UsageCount entry + 1);
               LastUsedAt := now;
               Dirty := false |}
  /\ (GetDirtyEntries c').1 = ∅.
Proof.
  intros Hk Hd. cbv zeta.
  assert (Hbatch : (GetDirtyEntries c).1 !! shortCode = Some entry)
    by (rewrite GetDirtyEntries_lookup, Hk, Hd; reflexivity).
  assert (Hinc : forall k,
             data (IncrementUsage now c shortCode).1 !! k
             = if decide (shortCode = k)
               then Some {| OriginalURL := OriginalURL entry;
                            UsageCount := int (UsageCount entry + 1);
                            LastUsedAt := now;
                            Dirty := true |}
               else data c !! k).
  { intros k. unfold IncrementUsage. rewrite Hk. cbn [fst with_data data].
    destruct (decide (shortCode = k)) as [->|Hne].
    - apply lookup_insert_eq.
    - apply lookup_insert_ne. assumption. }
  split; [exact Hbatch|]. split.
  - unfold markBatchClean. rewrite MarkClean_batch_lookup, Hbatch, Hinc.
    rewrite decide_True by reflexivity. reflexivity.
  - apply map_eq. intros k. rewrite GetDirtyEntries_lookup, lookup_empty.
    unfold markBatchClean. rewrite MarkClean_batch_lookup, Hinc.
    destruct (decide (shortCode = k)) as [<-|Hne].
    + rewrite Hbatch. reflexivity.
    + rewrite GetDirtyEntries_lookup.
      destruct (data c !! k) as [e|]; [|reflexivity].
      destruct (Dirty e) eqn:He; cbn; [reflexivity|].
      rewrite He. reflexivity.
Qed.

Lemma IncrementUsage_between_snapshot_and_MarkClean_witness :
  let entry := {| OriginalURL := "https://example.com";
                  UsageCount := 5;
                  LastUsedAt := 1000;
                  Dirty := true |} in
  let c := (Set_ New "abc" entry).1 in
  data c !! "abc"%string = Some entry
  /\ Dirty entry = true
  /\ data (markBatchClean (GetDirtyEntries c).1
             (IncrementUsage 1001 c "abc").1) !! "abc"%string
     = Some {| OriginalURL := "https://example.com";
               UsageCount := int 6;
               LastUsedAt := 1001;
               Dirty := false |}.
Proof.
  cbv zeta.
  assert (Hk : data (Set_ New "abc"
                       {| OriginalURL := "https://example.com";
                          UsageCount := 5;
                          LastUsedAt := 1000;
                          Dirty := true |}).1 !! "abc"%string
               = Some {| OriginalURL := "https://example.com";
                         UsageCount := 5;
                         LastUsedAt := 1000;
                         Dirty := true |})
    by (vm_compute; reflexivity).
  split; [exact Hk|]. split; [reflexivity|].
  exact (proj1 (proj2 (IncrementUsage_between_snapshot_and_MarkClean
                         _ "abc" _ 1001 Hk eq_refl))).
Defined.

Lemma last_default (l : list Z) (a d d' : Z) :
  List.last (a :: l) d = List.last (a :: l) d'.
Proof.
  revert a. induction l as [|b l IH]; intros a; [reflexivity|].
  change (List.last (b :: l) d = List.last (b :: l) d'). apply IH.
Qed.

(** X17: hits add up.  After [IncrementUsage] for a cached code at each of
    the times given, the usage count is the old one plus the number of
    calls, as long as that stays below the largest [int]; the time stamp
    is the last time given, the entry is dirty, the URL is unchanged and
    so is every other entry. *)
Theorem IncrementUsage_adds_up
    (times : list Z) (c : Cache) (shortCode : string) (entry : CacheEntry) :
  data c !! shortCode = Some entry ->
  times <> [] ->
  min_int64 <= UsageCount entry ->
  UsageCount entry + Z.of_nat (length times) <= max_int ->
  data (IncrementUsage_at times c shortCode) !! shortCode
  = Some {| OriginalURL := OriginalURL entry;
            UsageCount := UsageCount entry + Z.of_nat (length times);
            LastUsedAt := List.last times (LastUsedAt entry);
            Dirty := true |}
  /\ (forall k, k <> shortCode ->
                data (IncrementUsage_at times c shortCode) !! k = data c !! k)
  /\ running (IncrementUsage_at times c shortCode) = running c.
Proof.
  revert c entry.
  induction times as [|now times IH]; intros c entry Hk Hne Hmin Hmax;
    [contradiction|].
  cbn [IncrementUsage_at].
  set (entry1 := {| OriginalURL := OriginalURL entry;
                    UsageCount := UsageCount entry + 1;
                    LastUsedAt := now;
                    Dirty := true |}).
  assert (Hstep : (IncrementUsage now c shortCode).1
                  = with_data c (<[shortCode := entry1]> (data c))).
  { unfold IncrementUsage. rewrite Hk. cbn [fst]. subst entry1.
    rewrite int_small; [reflexivity|]. cbn [length] in Hmax. lia. }
  rewrite Hstep.
  destruct times as [|now' times].
  - cbn [IncrementUsage_at with_data data running length List.last].
    rewrite lookup_insert_eq. subst entry1.
    change (Z.of_nat 1) with 1. repeat split.
    intros k Hk'. apply lookup_insert_ne. congruence.
  - destruct (IH (with_data c (<[shortCode := entry1]> (data c))) entry1)
      as (H1 & H2 & H3).
    + cbn [with_data data]. apply lookup_insert_eq.
    + discriminate.
    + subst entry1. cbn [UsageCount]. lia.
    + subst entry1. cbn [UsageCount]. cbn [length] in *. lia.
    + rewrite H1, H3. subst entry1. cbn [OriginalURL UsageCount LastUsedAt].
      repeat split.
      * f_equal. f_equal; [cbn [length]; lia|].
        change (List.last (now :: now' :: times) (LastUsedAt entry))
          with (List.last (now' :: times) (LastUsedAt entry)).
        apply last_default.
      * intros k Hk'. rewrite H2 by assumption. cbn [with_data data].
        apply lookup_insert_ne. congruence.
Qed.

Lemma IncrementUsage_adds_up_witness :
  let entry := {| OriginalURL := "https://example.com";
                  UsageCount := 5;
                  LastUsedAt := 1000;
                  Dirty := false |} in
  let c := (Set_ New "abc" entry).1 in
  data c !! "abc"%string = Some entry
  /\ [1001; 1002; 1003] <> []
  /\ min_int64 <= UsageCount entry
  /\ UsageCount entry + Z.of_nat (length [1001; 1002; 1003]) <= max_int
  /\ data (IncrementUsage_at [1001; 1002; 1003] c "abc") !! "abc"%string
     = Some {| OriginalURL := "https://example.com";
               UsageCount := 5 + Z.of_nat 3;
               LastUsedAt := 1003;
               Dirty := true |}.
Proof.
  cbv zeta.
  assert (Hk : data (Set_ New "abc"
                       {| OriginalURL := "https://example.com";
                          UsageCount := 5;
                          LastUsedAt := 1000;
                          Dirty := false |}).1 !! "abc"%string
               = Some {| OriginalURL := "https://example.com";
                         UsageCount := 5;
                         LastUsedAt := 1000;
                         Dirty := false |})
    by (vm_compute; reflexivity).
  assert (Hne : [1001; 1002; 1003] <> []) by discriminate.
  assert (Hmin : min_int64 <= 5) by (vm_compute; discriminate).
  assert (Hmax : 5 + Z.of_nat (length [1001; 1002; 1003]) <= max_int)
    by (vm_compute; discriminate).
  split; [exact Hk|]. split; [exact Hne|]. split; [exact Hmin|].
  split; [exact Hmax|].
  exact (proj1 (IncrementUsage_adds_up [1001; 1002; 1003] _ "abc" _
                  Hk Hne Hmin Hmax)).
Defined.

(** X18: the background loop changes dirty flags and nothing else.
    Whatever signals it receives and whatever [syncFunc] answers, the
    cache has the same keys afterwards, every entry has its URL, usage
    count and time stamp, a clean entry is still clean, and the [running]
    flag is as it was. *)
Theorem backgroundSync_keeps_content
    (syncFunc : gmap string CacheEntry -> error) (signals : list signal) (c : Cache) :
  running (backgroundSync syncFunc signals c) = running c
  /\ (forall k,
         cleaned <$> data (backgroundSync syncFunc signals c) !! k
         = cleaned <$> data c !! k)
  /\ (forall k entry,
         data (backgroundSync syncFunc signals c) !! k = Some entry ->
         Dirty entry = true ->
         data c !! k = Some entry).
Proof.
  assert (Hcycle : forall c0 : Cache,
             running (syncToDatabase syncFunc c0) = running c0
             /\ (forall k, cleaned <$> data (syncToDatabase syncFunc c0) !! k
                           = cleaned <$> data c0 !! k)
             /\ (forall k entry,
                    data (syncToDatabase syncFunc c0) !! k = Some entry ->
                    Dirty entry = true -> data c0 !! k = Some entry)).
  { intros c0. split; [apply syncToDatabase_running|]. split.
    - intros k. rewrite syncToDatabase_lookup.
      destruct (syncFunc (GetDirtyEntries c0).1); [reflexivity|].
      destruct ((GetDirtyEntries c0).1 !! k); [|reflexivity].
      destruct (data c0 !! k); reflexivity.
    - intros k entry. rewrite syncToDatabase_lookup.
      destruct (syncFunc (GetDirtyEntries c0).1); [auto|].
      destruct ((GetDirtyEntries c0).1 !! k); [|auto].
      destruct (data c0 !! k) as [e|]; [|discriminate].
      cbn. intros [= <-]. discriminate. }
  revert c. induction signals as [|sig signals IH]; intros c.
  - cbn [backgroundSync]. auto.
  - destruct sig; cbn [backgroundSync].
    + destruct (IH (syncToDatabase syncFunc c)) as (H1 & H2 & H3).
      destruct (Hcycle c) as (G1 & G2 & G3).
      split; [congruence|]. split.
      * intros k. rewrite H2. apply G2.
      * intros k entry Hk Hd. apply G3; [|assumption]. apply H3; assumption.
    + apply Hcycle.
    + auto.
Qed.

(** X19: the last flush.  When [stopChan] is closed after any number of
    ticks and [syncFunc] succeeds, the loop ends with one more flush and
    no entry is dirty afterwards. *)
Theorem backgroundSync_final_flush
    (syncFunc : gmap string CacheEntry -> error)
    (ticks : nat) (rest : list signal) (c : Cache) :
  (forall batch, syncFunc batch = None) ->
  (GetDirtyEntries
     (backgroundSync syncFunc (repeat Tick ticks ++ Stop :: rest) c)).1 = ∅.
Proof.
  intros Hf. revert c. induction ticks as [|ticks IH]; intros c.
  - cbn [repeat app backgroundSync]. apply syncToDatabase_clean, Hf.
  - cbn [repeat app backgroundSync]. apply IH.
Qed.

Lemma backgroundSync_final_flush_witness :
  let entry := {| OriginalURL := "https://example.com";
                  UsageCount := 5;
                  LastUsedAt := 1000;
                  Dirty := true |} in
  (forall batch : gmap string CacheEntry, (fun _ => None : error) batch = None)
  /\ (GetDirtyEntries
        (backgroundSync (fun _ => None) (repeat Tick 2 ++ Stop :: [Tick])
           (Set_ New "abc" entry).1)).1 = ∅.
Proof.
  cbv zeta.
  assert (Hf : forall batch : gmap string CacheEntry,
             (fun _ => None : error) batch = None) by reflexivity.
  split; [exact Hf|].
  exact (backgroundSync_final_flush (fun _ => None) 2 [Tick] _ Hf).
Defined.

(** X20: what is stored is what is found.  After [Set] the cache answers
    [Get] for the code with the entry stored, after [Delete] with nothing;
    both leave the answers for every other code as they were and return no
    error. *)
Theorem Get_after_Set_and_Delete
    (c : Cache) (shortCode : string) (entry : CacheEntry) :
  (Set_ c shortCode entry).2 = None
  /\ (Delete c shortCode).2 = None
  /\ Get (Set_ c shortCode entry).1 shortCode = Some entry
  /\ Get (Delete c shortCode).1 shortCode = None
  /\ Get (Delete (Set_ c shortCode entry).1 shortCode).1 shortCode = None
  /\ (forall k, k <> shortCode ->
                Get (Set_ c shortCode entry).1 k = Get c k
                /\ Get (Delete c shortCode).1 k = Get c k).
Proof.
  unfold Get, Set_, Delete. cbn [fst snd with_data data].
  rewrite lookup_insert_eq, !lookup_delete_eq, !copyEntry_id.
  repeat split.
  - rewrite lookup_insert_ne by congruence. reflexivity.
  - rewrite lookup_delete_ne by congruence. reflexivity.
Qed.

End EntryCacheMore.

(** ** The service: the cache and the table stay in step *)

Section Shortener.
Import Bits Service.

Lemma int64_range z : min_int64 <= int64 z <= max_int64.
Proof.
  unfold int64, min_int64, max_int64.
  pose proof (Z.mod_pos_bound (z + 2 ^ 63) (2 ^ 64) ltac:(lia)). lia.
Qed.

Lemma int_idem z : Memory.int (Memory.int z) = Memory.int z.
Proof. unfold Memory.int. apply int64_small, int64_range. Qed.

(** [coherent] looks at the rows and at the cached entries only. *)
Lemma coherent_ext (s s' : urlShortener) :
  urls (repo s') = urls (repo s) ->
  Memory.data (cache s') = Memory.data (cache s) ->
  coherent s -> coherent s'.
Proof.
  intros Hr Hc Hs code entry Hk. rewrite Hc in Hk. rewrite Hr.
  apply (Hs code entry Hk).
Qed.

Lemma statement_urls (r : Repository) :
  urls (statement r).1 = urls r /\ nextID (statement r).1 = nextID r.
Proof. unfold statement. destruct (faults r); split; reflexivity. Qed.

(** The rows after [CreateURL]: as they were, or with one new row under a
    code that had none. *)
Lemma CreateURL_urls (r : Repository) (shortCode originalURL : string) (createdAt : Z) :
  match (CreateURL r shortCode originalURL createdAt).2.2 with
  | Some _ => urls (CreateURL r shortCode originalURL createdAt).1 = urls r
  | None =>
      urls r !! shortCode = None
      /\ exists url,
           (CreateURL r shortCode originalURL createdAt).2.1 = Some url
           /\ OriginalURL url = originalURL
           /\ UsageCount url = 0
           /\ urls (CreateURL r shortCode originalURL createdAt).1
              = <[shortCode := url]> (urls r)
  end.
Proof.
  unfold CreateURL. destruct (statement_urls r) as [Hu _].
  destruct (statement r) as [r1 [|]]; cbn [fst snd] in *; [exact Hu|].
  rewrite Hu. destruct (urls r !! shortCode) eqn:Hk; cbn [fst snd urls];
    [exact Hu|].
  split; [reflexivity|]. eexists. repeat split.
Qed.

(** [GetURL] answers with the row of the code or with an error; it writes
    nothing. *)
Lemma GetURL_urls (r : Repository) (shortCode : string) :
  urls (GetURL r shortCode).1 = urls r
  /\ match (GetURL r shortCode).2 with
     | (Some url, None) => urls r !! shortCode = Some url
     | (None, Some _) => True
     | _ => False
     end.
Proof.
  unfold GetURL. destruct (statement_urls r) as [Hu _].
  destruct (statement r) as [r1 [|]]; cbn [fst snd] in *; [auto|].
  rewrite Hu. destruct (urls r !! shortCode); cbn [fst snd]; auto.
Qed.

Lemma UpdateUsage_urls (r : Repository) (shortCode : string) (usageCount lastUsedAt : Z) :
  match (UpdateUsage r shortCode usageCount lastUsedAt).2 with
  | Some _ => urls (UpdateUsage r shortCode usageCount lastUsedAt).1 = urls r
  | None =>
      urls (UpdateUsage r shortCode usageCount lastUsedAt).1
      = alter (written usageCount lastUsedAt) shortCode (urls r)
  end.
Proof.
  unfold UpdateUsage. destruct (statement_urls r) as [Hu _].
  destruct (statement r) as [r1 [|]]; cbn [fst snd urls] in *; [exact Hu|].
  rewrite Hu. reflexivity.
Qed.

Lemma DeleteURL_urls (r : Repository) (shortCode : string) :
  match (DeleteURL r shortCode).2 with
  | Some _ => urls (DeleteURL r shortCode).1 = urls r
  | None => urls (DeleteURL r shortCode).1 = delete shortCode (urls r)
  end.
Proof.
  unfold DeleteURL. destruct (statement_urls r) as [Hu _].
  destruct (statement r) as [r1 [|]]; cbn [fst snd urls] in *; [exact Hu|].
  rewrite Hu. reflexivity.
Qed.

Lemma URLExists_urls (r : Repository) (shortCode : string) :
  urls (URLExists r shortCode).1 = urls r
  /\ ((URLExists r shortCode).2.2 = None ->
      (URLExists r shortCode).2.1 = bool_decide (is_Some (urls r !! shortCode))).
Proof.
  unfold URLExists. destruct (statement_urls r) as [Hu _].
  destruct (statement r) as [r1 [|]]; cbn [fst snd] in *;
    (split; [exact Hu|]); [discriminate|].
  rewrite Hu. reflexivity.
Qed.

Lemma LoadCacheData_urls (r : Repository) :
  urls (LoadCacheData r).1 = urls r
  /\ ((LoadCacheData r).2.2 = None ->
      forall code,
        (LoadCacheData r).2.1 !! code
        = (fun url =>
             {| Memory.OriginalURL := OriginalURL url;
                Memory.UsageCount := Memory.int (UsageCount url);
                Memory.LastUsedAt := default zeroTime (LastUsedAt url);
                Memory.Dirty := false |}) <$> urls r !! code).
Proof.
  unfold LoadCacheData. destruct (statement_urls r) as [Hu _].
  destruct (statement r) as [r1 [|]]; cbn [fst snd] in *;
    (split; [exact Hu|]); [discriminate|].
  intros _ code. rewrite lookup_fmap, Hu. reflexivity.
Qed.

(** The rows after the [syncFunc] of [StartCacheSync]: on success every
    row of the batch is written; on failure some of them are, and no
    other. *)
Lemma syncFunc_urls (r : Repository) (batch : gmap string Memory.CacheEntry) :
  match (syncFunc r batch).2 with
  | None =>
      forall k,
        urls (syncFunc r batch).1 !! k
        = match batch !! k with
          | Some entry =>
              written (Memory.UsageCount entry) (Memory.LastUsedAt entry)
                <$> urls r !! k
          | None => urls r !! k
          end
  | Some _ =>
      forall k,
        urls (syncFunc r batch).1 !! k = urls r !! k
        \/ exists entry,
             batch !! k = Some entry
             /\ urls (syncFunc r batch).1 !! k
                = written (Memory.UsageCount entry) (Memory.LastUsedAt entry)
                    <$> urls r !! k
  end.
Proof.
  unfold syncFunc.
  apply (map_fold_weak_ind
           (fun (acc : Repository * error) (m : gmap string Memory.CacheEntry) =>
              match acc.2 with
              | None =>
                  forall k,
                    urls acc.1 !! k
                    = match m !! k with
                      | Some entry =>
                          written (Memory.UsageCount entry) (Memory.LastUsedAt entry)
                            <$> urls r !! k
                      | None => urls r !! k
                      end
              | Some _ =>
                  forall k,
                    urls acc.1 !! k = urls r !! k
                    \/ exists entry,
                         m !! k = Some entry
                         /\ urls acc.1 !! k
                            = written (Memory.UsageCount entry)
                                (Memory.LastUsedAt entry) <$> urls r !! k
              end)).
  - cbn [fst snd]. intros k. rewrite lookup_empty. reflexivity.
  - intros i x m [r1 err] Hi IH. cbn [fst snd] in IH.
    assert (Hweak : forall k,
               (urls r1 !! k = urls r !! k
                \/ exists entry,
                     m !! k = Some entry
                     /\ urls r1 !! k
                        = written (Memory.UsageCount entry)
                            (Memory.LastUsedAt entry) <$> urls r !! k) ->
               urls r1 !! k = urls r !! k
               \/ exists entry,
                    <[i:=x]> m !! k = Some entry
                    /\ urls r1 !! k
                       = written (Memory.UsageCount entry)
                           (Memory.LastUsedAt entry) <$> urls r !! k).
    { intros k [Hl|(e & He & Hr)]; [left; exact Hl|]. right. exists e.
      split; [|exact Hr]. rewrite lookup_insert_ne; [exact He|].
      intros ->. rewrite Hi in He. discriminate. }
    unfold syncFunc_round. cbn [fst snd].
    destruct err as [e|]; cbn [fst snd].
    + intros k. apply Hweak, IH.
    + pose proof (UpdateUsage_urls r1 i (Memory.UsageCount x) (Memory.LastUsedAt x))
        as Hup.
      destruct (UpdateUsage r1 i (Memory.UsageCount x) (Memory.LastUsedAt x))
        as [r2 [e|]]; cbn [fst snd] in *.
      * intros k. rewrite Hup. apply Hweak. rewrite IH.
        destruct (m !! k) as [entry|] eqn:Hk; [right; eauto | left; reflexivity].
      * intros k. rewrite Hup. destruct (decide (i = k)) as [->|Hne].
        -- rewrite lookup_alter_eq, lookup_insert_eq, IH, Hi. reflexivity.
        -- rewrite lookup_alter_ne, lookup_insert_ne by assumption. apply IH.
Qed.

Lemma InitializeCache_coherent (s : urlShortener) :
  coherent s -> coherent (InitializeCache s).1.
Proof.
  intros Hs. unfold InitializeCache.
  destruct (LoadCacheData_urls (repo s)) as [Hu Hdata].
  destruct (LoadCacheData (repo s)) as [r [d [e|]]]; cbn [fst snd] in *.
  - apply (coherent_ext s); [exact Hu | reflexivity | exact Hs].
  - unfold Memory.LoadData. cbn [fst]. intros code entry.
    cbn [with_cache with_repo cache repo Memory.with_data Memory.data].
    rewrite lookup_fmap, (Hdata eq_refl), Hu.
    destruct (urls (repo s) !! code) as [url|]; [|discriminate].
    cbn. intros [= <-]. exists url. cbn. repeat split. apply int_idem.
Qed.

Lemma GenerateShortCode_only_generator (s : urlShortener) g :
  coherent s -> coherent (with_generator s g).
Proof. apply coherent_ext; reflexivity. Qed.

Lemma CreateShortURL_coherent scheme now (s : urlShortener) originalURL :
  coherent s -> coherent (CreateShortURL scheme now s originalURL).1.
Proof.
  intros Hs. unfold CreateShortURL.
  destruct (scheme originalURL) as [sch|]; [|exact Hs].
  destruct (negb (String.eqb sch "http") && negb (String.eqb sch "https"));
    [exact Hs|].
  destruct (Generator.GenerateShortCode (generator s)) as [g [shortCode [e|]]].
  - apply (coherent_ext s); [reflexivity | reflexivity | exact Hs].
  - cbn [with_generator repo cache generator].
    pose proof (CreateURL_urls (repo s) shortCode originalURL now) as Hc.
    destruct (CreateURL (repo s) shortCode originalURL now) as [r [entry [e|]]];
      cbn [fst snd] in *.
    + apply (coherent_ext s); [exact Hc | reflexivity | exact Hs].
    + destruct Hc as (Hnone & url & _ & Hurl & Hcount & Hurls).
      unfold Memory.Set_. cbn [fst]. intros code entry'.
      cbn [with_cache with_repo cache repo Memory.with_data Memory.data].
      rewrite Hurls. destruct (decide (shortCode = code)) as [->|Hne].
      * rewrite !lookup_insert_eq. intros [= <-]. exists url. cbn.
        rewrite Hcount. repeat split. exact Hurl.
      * rewrite !lookup_insert_ne by assumption. apply Hs.
Qed.

Lemma GetOriginalURL_coherent now (s : urlShortener) shortCode :
  coherent s -> coherent (GetOriginalURL now s shortCode).1.
Proof.
  intros Hs. unfold GetOriginalURL, Memory.Get.
  destruct (Memory.data (cache s) !! shortCode) as [entry|] eqn:Hk.
  - unfold Memory.IncrementUsage. rewrite Hk. cbn [fst].
    destruct (Hs shortCode entry Hk) as (url & Hrow & Hurl & _ & _).
    intros code entry'.
    cbn [with_cache cache repo Memory.with_data Memory.data].
    destruct (decide (shortCode = code)) as [<-|Hne].
    + rewrite lookup_insert_eq. intros [= <-]. exists url. cbn.
      split; [exact Hrow|]. split; [exact Hurl|].
      split; [discriminate | apply int_idem].
    + rewrite lookup_insert_ne by assumption. apply Hs.
  - destruct (GetURL_urls (repo s) shortCode) as [Hu Hres].
    destruct (GetURL (repo s) shortCode) as [r [[url|] [e|]]];
      cbn [fst snd] in *; try contradiction.
    + unfold Memory.Set_. cbn [fst]. intros code entry'.
      cbn [with_cache with_repo cache repo Memory.with_data Memory.data].
      rewrite Hu. destruct (decide (shortCode = code)) as [<-|Hne].
      * rewrite lookup_insert_eq. intros [= <-]. exists url. cbn.
        split; [exact Hres|]. split; [reflexivity|].
        split; [discriminate | apply int_idem].
      * rewrite lookup_insert_ne by assumption. apply Hs.
    + apply (coherent_ext s); [exact Hu | reflexivity | exact Hs].
Qed.

Lemma GetURLInfo_coherent (s : urlShortener) shortCode :
  coherent s -> coherent (GetURLInfo s shortCode).1.
Proof.
  intros Hs. unfold GetURLInfo.
  destruct (GetURL_urls (repo s) shortCode) as [Hu _].
  destruct (GetURL (repo s) shortCode) as [r [[url|] [e|]]];
    cbn [fst snd] in *;
    try (apply (coherent_ext s); [exact Hu | reflexivity | exact Hs]).
  cbn [with_repo cache].
  destruct (Memory.Get (cache s) shortCode);
    apply (coherent_ext s); [exact Hu | reflexivity | exact Hs
                            | exact Hu | reflexivity | exact Hs].
Qed.

Lemma DeleteShortURL_coherent (s : urlShortener) shortCode :
  coherent s -> coherent (DeleteShortURL s shortCode).1.
Proof.
  intros Hs. unfold DeleteShortURL.
  destruct (URLExists_urls (repo s) shortCode) as [Hu _].
  destruct (URLExists (repo s) shortCode) as [r [exists_ [e|]]];
    cbn [fst snd] in *.
  - apply (coherent_ext s); [exact Hu | reflexivity | exact Hs].
  - destruct exists_; cbn [negb];
      [|apply (coherent_ext s); [exact Hu | reflexivity | exact Hs]].
    cbn [with_repo repo cache].
    pose proof (DeleteURL_urls r shortCode) as Hd.
    destruct (DeleteURL r shortCode) as [r' [e|]]; cbn [fst snd] in *.
    + apply (coherent_ext s);
        [cbn [with_repo repo]; congruence | reflexivity | exact Hs].
    + unfold Memory.Delete. cbn [fst]. intros code entry.
      cbn [with_cache with_repo cache repo Memory.with_data Memory.data].
      rewrite Hd, Hu. destruct (decide (shortCode = code)) as [<-|Hne].
      * rewrite lookup_delete_eq. discriminate.
      * rewrite !lookup_delete_ne by assumption. apply Hs.
Qed.

(** The batch of a flush cycle holds the dirty entries as they are. *)
Lemma batch_entry (c : Memory.Cache) (k : string) (entry : Memory.CacheEntry) :
  (Memory.GetDirtyEntries c).1 !! k = Some entry ->
  Memory.data c !! k = Some entry /\ Memory.Dirty entry = true.
Proof.
  rewrite GetDirtyEntries_lookup.
  destruct (Memory.data c !! k) as [e|]; [|discriminate].
  destruct (Memory.Dirty e) eqn:Hd; [|discriminate].
  intros [= <-]. split; [reflexivity | assumption].
Qed.

Lemma flush_coherent (s : urlShortener) :
  coherent s -> coherent (flush s).1.
Proof.
  intros Hs. unfold flush.
  set (batch := (Memory.GetDirtyEntries (cache s)).1).
  assert (Hrows :
            match (if (size batch =? 0)%nat then (repo s, None)
                   else syncFunc (repo s) batch).2 with
            | None =>
                forall k,
                  urls (if (size batch =? 0)%nat then (repo s, None)
                        else syncFunc (repo s) batch).1 !! k
                  = match batch !! k with
                    | Some entry =>
                        written (Memory.UsageCount entry) (Memory.LastUsedAt entry)
                          <$> urls (repo s) !! k
                    | None => urls (repo s) !! k
                    end
            | Some _ =>
                forall k,
                  urls (if (size batch =? 0)%nat then (repo s, None)
                        else syncFunc (repo s) batch).1 !! k
                  = urls (repo s) !! k
                  \/ exists entry,
                       batch !! k = Some entry
                       /\ urls (if (size batch =? 0)%nat then (repo s, None)
                                else syncFunc (repo s) batch).1 !! k
                          = written (Memory.UsageCount entry)
                              (Memory.LastUsedAt entry) <$> urls (repo s) !! k
            end).
  { destruct (Nat.eqb_spec (size batch) 0) as [Hsize|Hsize].
    - apply map_size_empty_iff in Hsize. rewrite Hsize. cbn [fst snd].
      intros k. rewrite lookup_empty. reflexivity.
    - apply syncFunc_urls. }
  destruct (if (size batch =? 0)%nat then (repo s, None)
            else syncFunc (repo s) batch) as [r err].
  cbn [fst snd] in *. intros code entry'.
  cbn [with_cache with_repo cache repo].
  rewrite syncToDatabase_lookup. fold batch.
  destruct err as [e|].
  - intros Hk. destruct (Hs code entry' Hk) as (url & Hrow & Hurl & Hclean & Hint).
    destruct (Hrows code) as [Hsame|(entry & Hb & Hw)].
    + exists url. rewrite Hsame. auto.
    + apply batch_entry in Hb as [Hb Hd].
      assert (entry = entry') by congruence. subst entry.
      exists (written (Memory.UsageCount entry') (Memory.LastUsedAt entry') url).
      rewrite Hw, Hrow. cbn. split; [reflexivity|]. split; [exact Hurl|].
      split; [|exact Hint]. rewrite Hd. discriminate.
  - specialize (Hrows code).
    destruct (batch !! code) as [entry|] eqn:Hb.
    + apply batch_entry in Hb as [Hb Hd]. rewrite Hb. cbn. intros [= <-].
      destruct (Hs code entry Hb) as (url & Hrow & Hurl & _ & Hint).
      exists (written (Memory.UsageCount entry) (Memory.LastUsedAt entry) url).
      rewrite Hrows, Hrow. cbn. split; [reflexivity|]. split; [exact Hurl|].
      split; [|exact Hint]. intros _.
      change (Memory.int (int64 (Memory.UsageCount entry)))
        with (Memory.int (Memory.int (Memory.UsageCount entry))).
      rewrite int_idem. exact Hint.
    + intros Hk. rewrite Hrows. apply (Hs code entry' Hk).
Qed.

Lemma serve_coherent scheme (s : urlShortener) (req : request) :
  coherent s -> coherent (serve scheme s req).
Proof.
  destruct req; cbn [serve].
  - apply InitializeCache_coherent.
  - apply CreateShortURL_coherent.
  - apply GetOriginalURL_coherent.
  - apply GetURLInfo_coherent.
  - apply DeleteShortURL_coherent.
  - apply flush_coherent.
Qed.

Lemma serve_all_coherent scheme (reqs : list request) :
  forall s, coherent s -> coherent (serve_all scheme reqs s).
Proof.
  unfold serve_all. induction reqs as [|req reqs IH]; intros s Hs; [exact Hs|].
  cbn [fold_left]. apply IH, serve_coherent, Hs.
Qed.

(** X21: the cache and the table stay in step.  A service started on any
    table with a new cache, after any sequence of requests (loading the
    cache, creating, resolving, inspecting and deleting short URLs, flush
    cycles of the background loop), every statement of which may fail or
    not: every cached code has a row in the table with the cached URL, a
    clean entry has the usage count of its row, and every cached count is
    an [int]. *)
Theorem cache_agrees_with_table
    (scheme : string -> option string) (reqs : list request)
    (r : Repository) (g : CounterCache.CounterCache) :
  coherent (serve_all scheme reqs (newService r g)).
Proof.
  apply serve_all_coherent. intros code entry Hk.
  cbn in Hk. rewrite lookup_empty in Hk. discriminate.
Qed.

(** X22: a short code resolves to the URL of its row, and every
    resolution is counted.  In a state where the cache agrees with the
    table, when [GetOriginalURL] returns no error the table has a row for
    the code and the answer is its URL; the code is cached afterwards,
    dirty, with the time of the call and one more than the count it had
    in the cache or, when it was not cached, in the row.  When it returns
    an error, the answer is empty, the code was not cached and the cache
    is as it was. *)
Theorem GetOriginalURL_resolves (now : Z) (s : urlShortener) (shortCode : string) :
  coherent s ->
  match (GetOriginalURL now s shortCode).2.2 with
  | None =>
      exists url,
        urls (repo s) !! shortCode = Some url
        /\ (GetOriginalURL now s shortCode).2.1 = OriginalURL url
        /\ Memory.data (cache (GetOriginalURL now s shortCode).1) !! shortCode
           = Some {| Memory.OriginalURL := OriginalURL url;
                     Memory.UsageCount :=
                       Memory.int
                         (match Memory.data (cache s) !! shortCode with
                          | Some entry => Memory.UsageCount entry
                          | None => UsageCount url
                          end + 1);
                     Memory.LastUsedAt := now;
                     Memory.Dirty := true |}
  | Some _ =>
      (GetOriginalURL now s shortCode).2.1 = ""%string
      /\ Memory.data (cache s) !! shortCode = None
      /\ cache (GetOriginalURL now s shortCode).1 = cache s
  end.
Proof.
  intros Hs. unfold GetOriginalURL, Memory.Get.
  destruct (Memory.data (cache s) !! shortCode) as [entry|] eqn:Hk.
  - unfold Memory.IncrementUsage. rewrite Hk. cbn [fst snd].
    destruct (Hs shortCode entry Hk) as (url & Hrow & Hurl & _ & _).
    exists url. split; [exact Hrow|]. split; [cbn; congruence|].
    cbn [with_cache cache Memory.with_data Memory.data].
    rewrite lookup_insert_eq, Hurl. reflexivity.
  - destruct (GetURL_urls (repo s) shortCode) as [Hu Hres].
    destruct (GetURL (repo s) shortCode) as [r [[url|] [e|]]];
      cbn [fst snd] in *; try contradiction.
    + exists url. split; [exact Hres|]. split; [reflexivity|].
      unfold Memory.Set_.
      cbn [fst with_cache with_repo cache Memory.with_data Memory.data].
      rewrite lookup_insert_eq. reflexivity.
    + repeat split.
Qed.

Lemma GetOriginalURL_resolves_witness :
  let url := {| ID := 1;
                ShortCode := "abc";
                OriginalURL := "https://example.com";
                CreatedAt := 1000;
                LastUsedAt := None;
                UsageCount := 4 |} in
  let s := newService {| urls := {[ "abc"%string := url ]};
                         nextID := 2;
                         faults := [] |}
             (CounterCache.NewCounterCache CounterCache.emptyStore 100) in
  coherent s
  /\ exists url',
       urls (repo s) !! "abc"%string = Some url'
       /\ (GetOriginalURL 1001 s "abc").2.1 = OriginalURL url'.
Proof.
  cbv zeta.
  assert (Hs : coherent
                 (newService
                    {| urls := {[ "abc"%string :=
                                    {| ID := 1;
                                       ShortCode := "abc";
                                       OriginalURL := "https://example.com";
                                       CreatedAt := 1000;
                                       LastUsedAt := None;
                                       UsageCount := 4 |} ]};
                       nextID := 2;
                       faults := [] |}
                    (CounterCache.NewCounterCache CounterCache.emptyStore 100))).
  { intros code entry Hk. cbn in Hk. rewrite lookup_empty in Hk. discriminate. }
  split; [exact Hs|].
  pose proof (GetOriginalURL_resolves 1001 _ "abc" Hs) as H.
  match type of H with
  | match ?err with _ => _ end =>
      assert (Herr : err = None) by (vm_compute; reflexivity);
      rewrite Herr in H
  end.
  destruct H as (url' & Hrow & Hanswer & _).
  exists url'. split; assumption.
Defined.

End Shortener.
